(** * update-existing-release: the reconciliation run of [src/main.ts]

    A shallow embedding of the [Connection] class of [src/main.ts] and of
    the part of the hosting platform its calls address, followed by the
    properties of the reconciliation procedure.

    Layout: strings, the configuration read by the constructor, the remote
    store and its calls, the process monad, the methods of [Connection],
    concrete scenarios, the vocabulary of the statements, and then the
    theorems: the constructor's flags and names, what a returning run has
    done to the releases, the tag stage, asset deletion, the calls a run can
    send, a run that nothing disturbs, release convergence and the tag
    repoint, [getReleaseID], failing deletions, missing files; then the
    constructor's tokens, paths and names, how a method can end, what a run
    leaves alone, the release stage and the uploads, the order of the
    mutating calls, and the theorems at concrete inputs. *)

From Stdlib Require Import String Ascii List Bool ZArith Lia.
Import ListNotations.

Open Scope string_scope.
Open Scope Z_scope.

Set Implicit Arguments.

(* ------------------------------------------------------------------ *)
(** ** Strings, as JavaScript treats them in [main.ts]                  *)
(* ------------------------------------------------------------------ *)

Module JsString.

(** [strip_prefix p s] is [Some rest] when [s = p ++ rest]. *)
Fixpoint strip_prefix (p s : string) : option string :=
  match p, s with
  | EmptyString, _ => Some s
  | String a p', String b s' =>
      if Ascii.eqb a b then strip_prefix p' s' else None
  | String _ _, EmptyString => None
  end.

(** [s.replace(/p/, '')] for a literal pattern [p] without the [g] flag:
    the leftmost occurrence of [p], wherever it is, is removed. *)
Fixpoint replace_first (p s : string) : string :=
  match strip_prefix p s with
  | Some rest => rest
  | None =>
      match s with
      | EmptyString => EmptyString
      | String a s' => String a (replace_first p s')
      end
  end.

(** [s.replace(/\//g, '-')]: every slash becomes a dash. *)
Fixpoint slash_to_dash (s : string) : string :=
  match s with
  | EmptyString => EmptyString
  | String a s' =>
      String (if Ascii.eqb a "/"%char then "-"%char else a) (slash_to_dash s')
  end.

(** [s.replace(/\\/g, '/')]: every backslash becomes a slash. *)
Fixpoint backslash_to_slash (s : string) : string :=
  match s with
  | EmptyString => EmptyString
  | String a s' =>
      String (if Ascii.eqb a "092"%char then "/"%char else a)
             (backslash_to_slash s')
  end.

(** Does [p] occur in [s]? *)
Fixpoint occurs (p s : string) : bool :=
  match strip_prefix p s with
  | Some _ => true
  | None =>
      match s with
      | EmptyString => false
      | String _ s' => occurs p s'
      end
  end.

(** The character class of the regular expression [/[ ,\r\n\t]+/]. *)
Definition is_delim (a : ascii) : bool :=
  Ascii.eqb a " "%char || Ascii.eqb a ","%char || Ascii.eqb a "013"%char
  || Ascii.eqb a "010"%char || Ascii.eqb a "009"%char.

(** [s.split(/[ ,\r\n\t]+/)]: [cur] is the piece being read, [sep] tells
    that the previous character belonged to a separator run. *)
Fixpoint split_from (s cur : string) (sep : bool) : list string :=
  match s with
  | EmptyString => [cur]
  | String a s' =>
      if is_delim a
      then if sep then split_from s' cur true
           else cur :: split_from s' EmptyString true
      else split_from s' (cur ++ String a EmptyString) false
  end.

Definition split_delims (s : string) : list string :=
  split_from s EmptyString false.

End JsString.
Import JsString.

(** [isTruthyString], [isFalsyString] (main.ts, bottom of the file). *)
Definition isTruthyString (s : string) : bool :=
  String.eqb s "true" || String.eqb s "yes".

Definition isFalsyString (s : string) : bool :=
  String.eqb s "false" || String.eqb s "no".

(* ------------------------------------------------------------------ *)
(** ** The process and the connection object                            *)
(* ------------------------------------------------------------------ *)

(** What the process reads from its surroundings: action inputs as
    [core.getInput] returns them, the variables the runner defines, and the
    value of [new Date().toISOString()] when a tagger is built. *)
Record Process := mkProcess {
  getInput : string -> string;
  GITHUB_REF : string;
  GITHUB_SHA : string;
  GITHUB_WORKSPACE : string;
  clock : string
}.

(** The fields of [Connection] that the constructor settles.  [owner] and
    [repo] are never read again ([context.repo] addresses every call) and
    are left out; [body] is written by an asynchronous method and lives in
    the world (see [World]). *)
Record Connection := mkConnection {
  ref : string;
  release : string;
  sha : string;
  tag : string;
  message : string;
  draft : bool;
  prerelease : bool;
  files : list string
}.

(** Field initialisers of the class. *)
Definition initial : Connection :=
  {| ref := "unknown-ref"; release := "unknown-release"; sha := "unknown-sha";
     tag := "unknown-tag"; message := ""; draft := false; prerelease := false;
     files := [] |}.

Definition with_release (c : Connection) (v : string) : Connection :=
  {| ref := ref c; release := v; sha := sha c; tag := tag c;
     message := message c; draft := draft c; prerelease := prerelease c;
     files := files c |}.

Definition with_tag (c : Connection) (v : string) : Connection :=
  {| ref := ref c; release := release c; sha := sha c; tag := v;
     message := message c; draft := draft c; prerelease := prerelease c;
     files := files c |}.

Definition with_message (c : Connection) (v : string) : Connection :=
  {| ref := ref c; release := release c; sha := sha c; tag := tag c;
     message := v; draft := draft c; prerelease := prerelease c;
     files := files c |}.

Definition with_draft (c : Connection) (v : bool) : Connection :=
  {| ref := ref c; release := release c; sha := sha c; tag := tag c;
     message := message c; draft := v; prerelease := prerelease c;
     files := files c |}.

Definition with_prerelease (c : Connection) (v : bool) : Connection :=
  {| ref := ref c; release := release c; sha := sha c; tag := tag c;
     message := message c; draft := draft c; prerelease := v;
     files := files c |}.

Definition with_files (c : Connection) (v : list string) : Connection :=
  {| ref := ref c; release := release c; sha := sha c; tag := tag c;
     message := message c; draft := draft c; prerelease := prerelease c;
     files := v |}.

(** [setRelease]. *)
Definition setRelease (p : Process) (c : Connection) : Connection :=
  let c1 := with_release c (getInput p "release") in
  let c2 :=
    if String.eqb (release c1) ""
    then
      let r0 := ref c1 in
      let r1 := replace_first "refs/" r0 in
      let r2 := replace_first "heads/" r1 in
      let r3 := replace_first "tags/" r2 in
      with_release c1 (slash_to_dash r3)
    else c1 in
  let c3 := with_tag c2 (getInput p "tag") in
  if String.eqb (tag c3) "" then with_tag c3 (release c3) else c3.

(** [setDraft], [setPrerelease]. *)
Definition setDraft (p : Process) (c : Connection) : Connection :=
  with_draft c (isTruthyString (getInput p "draft")).

Definition setPrerelease (p : Process) (c : Connection) : Connection :=
  with_prerelease c (negb (isFalsyString (getInput p "prerelease"))).

(** [setMessage]: the field is written in the empty-input branch only. *)
Definition setMessage (p : Process) (c : Connection) : Connection :=
  let message := getInput p "message" in
  if String.eqb message ""
  then with_message c (release c ++ " (automatically created)")
  else c.

(** The constructor's first assignments: [ref] and [sha] from the runner. *)
Definition from_runner (p : Process) : Connection :=
  {| ref := GITHUB_REF p; release := release initial; sha := GITHUB_SHA p;
     tag := tag initial; message := message initial; draft := draft initial;
     prerelease := prerelease initial; files := files initial |}.

(** The name derivation as the specification words it: a leading [refs/]
    segment is removed, then a leading [heads/] or [tags/] segment, then every
    remaining slash becomes a dash. *)
Module Spec.

Definition strip_leading (p s : string) : string :=
  match strip_prefix p s with
  | Some rest => rest
  | None => s
  end.

Definition strip_heads_or_tags (s : string) : string :=
  match strip_prefix "heads/" s with
  | Some rest => rest
  | None => strip_leading "tags/" s
  end.

Definition derive_name (r : string) : string :=
  slash_to_dash (strip_heads_or_tags (strip_leading "refs/" r)).

End Spec.

(* ------------------------------------------------------------------ *)
(** ** The hosting platform                                             *)
(* ------------------------------------------------------------------ *)

Record Tagger := mkTagger {
  tagger_name : string;
  tagger_email : string;
  tagger_date : string
}.

(** [new Tagger()]. *)
Definition new_Tagger (p : Process) : Tagger :=
  {| tagger_name := "update-existing-release github action";
     tagger_email := "none";
     tagger_date := clock p |}.

Record TagObject := mkTagObject {
  to_tag : string;
  to_message : string;
  to_object : string;
  to_type : string;
  to_tagger : Tagger
}.

(** An entry of [listTags]: the tag's name and the commit it resolves to. *)
Record Tag := mkTag {
  tag_name : string;
  tag_commit : string
}.

Record Asset := mkAsset {
  asset_id : Z;
  asset_name : string
}.

(** A release as [listReleases] shows it.  The platform types [name] as
    [string | null]. *)
Record Release := mkRelease {
  rel_id : Z;
  rel_name : option string;
  rel_tag_name : string;
  rel_body : string;
  rel_draft : bool;
  rel_prerelease : bool;
  rel_upload_url : string;
  rel_assets : list Asset
}.

(** The collaborators outside the program: Node's [path], [fs] and
    [mime-types], and the two values the platform computes for a new
    object. *)
Class Collaborators := {
  basename : string -> string;
  existsSync : string -> bool;
  isAbsolute : string -> bool;
  resolve : string -> string -> string;
  lookup : string -> option string;
  statSync_size : string -> option Z;
  readFileSync : string -> option string;
  tag_object_sha : TagObject -> string;
  upload_url_of : Z -> string
}.

(** The repository on the platform: git refs by full name, annotated tag
    objects and commit messages by SHA, releases in listing order (newest
    first), and the next identifier the platform hands out. *)
Record Remote := mkRemote {
  refs : list (string * string);
  tag_objects : list (string * TagObject);
  commits : list (string * string);
  releases : list Release;
  next_id : Z
}.

(** The remote calls of [main.ts], with the arguments it passes. *)
Inductive Call : Type :=
| ListTags
| CreateTag (o : TagObject)
| CreateRef (ref sha : string)
| UpdateRef (ref sha : string)
| ListReleases
| CreateRelease (tag_name name body : string) (draft prerelease : bool)
| UpdateRelease (release_id : Z) (name body : string) (draft prerelease : bool)
| ListReleaseAssets (release_id : Z)
| DeleteReleaseAsset (asset_id : Z)
| UploadReleaseAsset (release_id : Z) (url name content_type : string)
                     (content_length : Z) (data : string)
| GetCommit (commit_sha : string).

Definition is_mutation (c : Call) : bool :=
  match c with
  | ListTags | ListReleases | ListReleaseAssets _ | GetCommit _ => false
  | _ => true
  end.

(** What each call does to the remote when the platform accepts it, and
    the cases in which the platform itself refuses it ([None]).  Listings are
    complete: paging belongs to the client library. *)
Module Platform.
Section Served.
Context {K : Collaborators}.

Fixpoint assoc {A : Type} (k : string) (l : list (string * A)) : option A :=
  match l with
  | [] => None
  | (k', v) :: l' => if String.eqb k' k then Some v else assoc k l'
  end.

Fixpoint assoc_set {A : Type} (k : string) (v : A) (l : list (string * A))
  : list (string * A) :=
  match l with
  | [] => []
  | (k', v') :: l' =>
      if String.eqb k' k then (k', v) :: l' else (k', v') :: assoc_set k v l'
  end.

(** A ref that names an annotated tag resolves to the tagged object. *)
Definition peel (r : Remote) (target : string) : string :=
  match assoc target (tag_objects r) with
  | Some o => to_object o
  | None => target
  end.

Fixpoint tags_of (r : Remote) (l : list (string * string)) : list Tag :=
  match l with
  | [] => []
  | (name, target) :: l' =>
      match strip_prefix "refs/tags/" name with
      | Some short => mkTag short (peel r target) :: tags_of r l'
      | None => tags_of r l'
      end
  end.

Definition listTags (r : Remote) : option (list Tag * Remote) :=
  Some (tags_of r (refs r), r).

Definition createTag (o : TagObject) (r : Remote) : option (string * Remote) :=
  let h := tag_object_sha o in
  Some (h, mkRemote (refs r) ((h, o) :: tag_objects r) (commits r)
                    (releases r) (next_id r)).

(** The platform keeps at most one ref per name. *)
Definition createRef (name target : string) (r : Remote)
  : option (unit * Remote) :=
  match assoc name (refs r) with
  | Some _ => None
  | None => Some (tt, mkRemote (refs r ++ [(name, target)]) (tag_objects r)
                               (commits r) (releases r) (next_id r))
  end.

(** [updateRef] addresses a ref without its [refs/] prefix. *)
Definition updateRef (name target : string) (r : Remote)
  : option (unit * Remote) :=
  let full := "refs/" ++ name in
  match assoc full (refs r) with
  | None => None
  | Some _ => Some (tt, mkRemote (assoc_set full target (refs r))
                                 (tag_objects r) (commits r) (releases r)
                                 (next_id r))
  end.

Definition listReleases (r : Remote) : option (list Release * Remote) :=
  Some (releases r, r).

Definition createRelease (tag_name name body : string)
           (draft prerelease : bool) (r : Remote) : option (unit * Remote) :=
  let new := {| rel_id := next_id r; rel_name := Some name;
                rel_tag_name := tag_name; rel_body := body;
                rel_draft := draft; rel_prerelease := prerelease;
                rel_upload_url := upload_url_of (next_id r);
                rel_assets := [] |} in
  Some (tt, mkRemote (refs r) (tag_objects r) (commits r)
                     (new :: releases r) (next_id r + 1)).

Definition has_release (id : Z) (r : Remote) : bool :=
  existsb (fun x => rel_id x =? id) (releases r).

Definition edit_release (id : Z) (f : Release -> Release) (r : Remote)
  : Remote :=
  mkRemote (refs r) (tag_objects r) (commits r)
           (map (fun x => if rel_id x =? id then f x else x) (releases r))
           (next_id r).

(** The tag a release is attached to is not part of the update. *)
Definition updateRelease (id : Z) (name body : string)
           (draft prerelease : bool) (r : Remote) : option (unit * Remote) :=
  if has_release id r
  then Some (tt, edit_release id
                   (fun x => {| rel_id := rel_id x; rel_name := Some name;
                                rel_tag_name := rel_tag_name x;
                                rel_body := body; rel_draft := draft;
                                rel_prerelease := prerelease;
                                rel_upload_url := rel_upload_url x;
                                rel_assets := rel_assets x |}) r)
  else None.

Definition listReleaseAssets (id : Z) (r : Remote)
  : option (list Asset * Remote) :=
  match find (fun x => rel_id x =? id) (releases r) with
  | Some x => Some (rel_assets x, r)
  | None => None
  end.

Definition with_assets (x : Release) (l : list Asset) : Release :=
  {| rel_id := rel_id x; rel_name := rel_name x;
     rel_tag_name := rel_tag_name x; rel_body := rel_body x;
     rel_draft := rel_draft x; rel_prerelease := rel_prerelease x;
     rel_upload_url := rel_upload_url x; rel_assets := l |}.

Definition has_asset (aid : Z) (r : Remote) : bool :=
  existsb (fun x => existsb (fun a => asset_id a =? aid) (rel_assets x))
          (releases r).

Definition deleteReleaseAsset (aid : Z) (r : Remote)
  : option (unit * Remote) :=
  if has_asset aid r
  then Some (tt, mkRemote (refs r) (tag_objects r) (commits r)
                   (map (fun x => with_assets x
                                    (filter (fun a => negb (asset_id a =? aid))
                                            (rel_assets x)))
                        (releases r))
                   (next_id r))
  else None.

(** Asset names are unique within a release. *)
Definition uploadReleaseAsset (id : Z) (name : string) (r : Remote)
  : option (unit * Remote) :=
  match find (fun x => rel_id x =? id) (releases r) with
  | None => None
  | Some x =>
      if existsb (fun a => String.eqb (asset_name a) name) (rel_assets x)
      then None
      else
        let r' := edit_release id
                    (fun y => with_assets y
                                (rel_assets y ++ [mkAsset (next_id r) name])) r in
        Some (tt, mkRemote (refs r') (tag_objects r') (commits r')
                           (releases r') (next_id r + 1))
  end.

Definition getCommit (h : string) (r : Remote) : option (string * Remote) :=
  match assoc h (commits r) with
  | Some m => Some (m, r)
  | None => None
  end.

End Served.
End Platform.

(* ------------------------------------------------------------------ *)
(** ** The process monad                                                *)
(* ------------------------------------------------------------------ *)

(** The world of one run.  [log] lists the remote calls sent so far, oldest
    first.  [faults] tells which of the calls to come are rejected, by the
    transport or by the platform for a reason of its own, one entry per call
    ([true]: the call is rejected and leaves the remote untouched); past its
    end every call goes through to the platform.
    [body] is [this.body].  [commit_fetch] is the request that [setBody]
    leaves running without being awaited: the number of later calls that
    still return before its answer arrives, and the answer. *)
Record World := mkWorld {
  remote : Remote;
  log : list Call;
  faults : list bool;
  body : string;
  commit_fetch : option (nat * option string);
  latency : nat
}.

(** A step either returns, or throws (a rejected promise, a JavaScript
    exception), or has ended the process with [process.exit]. *)
Inductive Outcome (A : Type) : Type :=
| Done (a : A) (w : World)
| Thrown (w : World)
| Exited (code : Z) (w : World).
Arguments Thrown {A} w.
Arguments Exited {A} code w.

Definition M (A : Type) : Type := World -> Outcome A.

Definition ret {A : Type} (a : A) : M A := fun w => Done a w.

Definition bind {A B : Type} (m : M A) (f : A -> M B) : M B :=
  fun w =>
    match m w with
    | Done a w' => f a w'
    | Thrown w' => Thrown w'
    | Exited code w' => Exited code w'
    end.

Definition throw {A : Type} : M A := fun w => Thrown w.

(** [fail]: report and [process.exit(2)]. *)
Definition fail {A : Type} : M A := fun w => Exited 2 w.

(** [try { m } catch (error) { h }]. *)
Definition try_catch {A : Type} (m h : M A) : M A :=
  fun w =>
    match m w with
    | Thrown w' => h w'
    | o => o
    end.

Declare Scope proc_scope.
Delimit Scope proc_scope with proc.
Notation "x <- m ;; k" := (bind m (fun x => k))
  (at level 61, m at next level, right associativity) : proc_scope.
Notation "m ;; k" := (bind m (fun _ => k))
  (at level 61, right associativity) : proc_scope.
Open Scope proc_scope.

(** The outcome's world, whatever the outcome. *)
Definition world_of {A : Type} (o : Outcome A) : World :=
  match o with
  | Done _ w => w
  | Thrown w => w
  | Exited _ w => w
  end.

Definition next_fault (w : World) : bool * list bool :=
  match faults w with
  | f :: fs => (f, fs)
  | [] => (false, [])
  end.

(** While a call is awaited the answer to [setBody]'s request may arrive:
    its continuation stores the commit message, or calls [fail]. *)
Definition settle (w : World) : World + World :=
  match commit_fetch w with
  | None => inl w
  | Some (S n, a) =>
      inl (mkWorld (remote w) (log w) (faults w) (body w) (Some (n, a))
                   (latency w))
  | Some (O, Some m) =>
      inl (mkWorld (remote w) (log w) (faults w) m None (latency w))
  | Some (O, None) => inr w
  end.

(** One awaited remote call. *)
Definition request {A : Type} (c : Call)
           (serve : Remote -> option (A * Remote)) : M A :=
  fun w =>
    let (rejected, rest) := next_fault w in
    let answer := if rejected then None else serve (remote w) in
    let r' := match answer with Some (_, r') => r' | None => remote w end in
    let sent := mkWorld r' (log w ++ [c]) rest (body w) (commit_fetch w)
                        (latency w) in
    match settle sent with
    | inr w' => Exited 2 w'
    | inl w' =>
        match answer with
        | Some (a, _) => Done a w'
        | None => Thrown w'
        end
    end.

(** [core.getInput(name, { required: true })] throws on an empty value. *)
Definition required_input (p : Process) (name : string) : M string :=
  let v := getInput p name in
  if String.eqb v "" then throw else ret v.

(* ------------------------------------------------------------------ *)
(** ** The methods of [Connection]                                      *)
(* ------------------------------------------------------------------ *)

Section Methods.
Context {K : Collaborators}.

(** [this.github.rest.*]. *)
Definition rest_listTags : M (list Tag) :=
  request ListTags Platform.listTags.
Definition rest_createTag (o : TagObject) : M string :=
  request (CreateTag o) (Platform.createTag o).
Definition rest_createRef (name target : string) : M unit :=
  request (CreateRef name target) (Platform.createRef name target).
Definition rest_updateRef (name target : string) : M unit :=
  request (UpdateRef name target) (Platform.updateRef name target).
Definition rest_listReleases : M (list Release) :=
  request ListReleases Platform.listReleases.
Definition rest_createRelease (tag_name name body : string)
           (draft prerelease : bool) : M unit :=
  request (CreateRelease tag_name name body draft prerelease)
          (Platform.createRelease tag_name name body draft prerelease).
Definition rest_updateRelease (id : Z) (name body : string)
           (draft prerelease : bool) : M unit :=
  request (UpdateRelease id name body draft prerelease)
          (Platform.updateRelease id name body draft prerelease).
Definition rest_listReleaseAssets (id : Z) : M (list Asset) :=
  request (ListReleaseAssets id) (Platform.listReleaseAssets id).
Definition rest_deleteReleaseAsset (aid : Z) : M unit :=
  request (DeleteReleaseAsset aid) (Platform.deleteReleaseAsset aid).
Definition rest_uploadReleaseAsset (id : Z) (url name content_type : string)
           (content_length : Z) (data : string) : M unit :=
  request (UploadReleaseAsset id url name content_type content_length data)
          (Platform.uploadReleaseAsset id name).

(** [name === this.release] (and [==]: on a string and a string-or-null
    the two agree). *)
Definition name_is (n : option string) (s : string) : bool :=
  match n with
  | Some n' => String.eqb n' s
  | None => false
  end.

Definition createLightweightTag (c : Connection) (tagger : Tagger)
  : M string :=
  rest_createTag {| to_tag := tag c; to_message := message c;
                    to_object := sha c; to_type := "commit";
                    to_tagger := tagger |}.

Definition createRelease (c : Connection) : M unit :=
  try_catch
    (fun w => rest_createRelease (tag c) (release c) (body w) (draft c)
                                 (prerelease c) w)
    fail.

Definition updateRelease (c : Connection) (id : Z) : M unit :=
  try_catch
    (fun w => rest_updateRelease id (release c) (body w) (draft c)
                                 (prerelease c) w)
    fail.

Definition createTag (p : Process) (c : Connection) : M unit :=
  try_catch
    (let tagger := new_Tagger p in
     tagObject <- createLightweightTag c tagger ;;
     rest_createRef ("refs/tags/" ++ tag c) tagObject)
    fail.

(** [getReleaseID]: the id of the first listed release with the name, or
    [fail]. *)
Definition getReleaseID (c : Connection) : M Z :=
  found <- try_catch
             (releasesObject <- rest_listReleases ;;
              ret (option_map rel_id
                     (find (fun r => name_is (rel_name r) (release c))
                           releasesObject)))
             fail ;;
  match found with
  | Some id => ret id
  | None => fail
  end.

(** [getReleaseAssets]; [None] is the [undefined] of the bare [return]. *)
Definition getReleaseAssets (c : Connection) : M (option (list Asset)) :=
  try_catch
    (id <- getReleaseID c ;;
     if id <? 0 then ret None
     else assets <- rest_listReleaseAssets id ;; ret (Some assets))
    fail.

(** The inner loop of [deleteAssetsIfTheyExist] over [this.files]. *)
Definition shouldDelete (c : Connection) (shouldDeleteAllExisting : bool)
           (asset : Asset) : bool :=
  if negb shouldDeleteAllExisting
  then fold_left
         (fun acc oneFile =>
            if String.eqb (asset_name asset) (basename oneFile)
            then true else acc)
         (files c) shouldDeleteAllExisting
  else shouldDeleteAllExisting.

(** The outer loop, [result] being the flag it returns. *)
Fixpoint delete_loop (c : Connection) (shouldDeleteAllExisting : bool)
         (assets : list Asset) (result : bool) : M bool :=
  match assets with
  | [] => ret result
  | asset :: rest =>
      if shouldDelete c shouldDeleteAllExisting asset
      then rest_deleteReleaseAsset (asset_id asset) ;;
           delete_loop c shouldDeleteAllExisting rest true
      else delete_loop c shouldDeleteAllExisting rest result
  end.

(** Iterating over [undefined] throws a [TypeError]. *)
Definition deleteAssetsIfTheyExist (c : Connection)
           (shouldDeleteAllExisting : bool) : M bool :=
  try_catch
    (assets <- getReleaseAssets c ;;
     match assets with
     | None => throw
     | Some l => delete_loop c shouldDeleteAllExisting l false
     end)
    fail.

Definition getReleases : M (list (option string)) :=
  try_catch
    (releasesObject <- rest_listReleases ;; ret (map rel_name releasesObject))
    fail.

(** [releases.includes(this.release)]. *)
Definition doesReleaseExist (c : Connection) : M bool :=
  try_catch
    (releases <- getReleases ;;
     ret (existsb (fun n => name_is n (release c)) releases))
    fail.

Definition getRepos : M (list Release) :=
  try_catch rest_listReleases fail.

Definition getReleaseUploadURL (c : Connection) : M string :=
  repos <- getRepos ;;
  match find (fun r => name_is (rel_name r) (release c)) repos with
  | Some r => ret (rel_upload_url r)
  | None => fail
  end.

(** [getTag]; [None] is its [false]. *)
Definition getTag (c : Connection) : M (option Tag) :=
  try_catch
    (tags <- rest_listTags ;;
     ret (find (fun t => String.eqb (tag_name t) (tag c)) tags))
    fail.

Definition updateTag (p : Process) (c : Connection) : M unit :=
  try_catch (rest_updateRef ("tags/" ++ tag c) (GITHUB_SHA p)) fail.

Definition defaultAssetContentType : string := "application/octet-stream".

Fixpoint upload_loop (c : Connection) (id : Z) (l : list string) : M unit :=
  match l with
  | [] => ret tt
  | oneFile :: rest =>
      let contentType :=
        match lookup oneFile with
        | Some t => t
        | None => defaultAssetContentType
        end in
      contentLength <- match statSync_size oneFile with
                       | Some n => ret n
                       | None => throw
                       end ;;
      url <- getReleaseUploadURL c ;;
      data <- match readFileSync oneFile with
              | Some d => ret d
              | None => throw
              end ;;
      rest_uploadReleaseAsset id url (basename oneFile) contentType
                              contentLength data ;;
      upload_loop c id rest
  end.

Definition uploadAssets (c : Connection) (id : Z) : M unit :=
  try_catch (upload_loop c id (files c)) fail.

(** [run], in the three parts its body falls into. *)
Definition run_tag (p : Process) (c : Connection) : M (option Tag) :=
  t <- getTag c ;;
  match t with
  | None => createTag p c ;; getTag c
  | Some _ => ret t
  end.

Definition run_release (c : Connection) : M Z :=
  exists_ <- doesReleaseExist c ;;
  (if negb exists_ then createRelease c else ret tt) ;;
  getReleaseID c.

Definition run_publish (p : Process) (c : Connection) (id : Z) : M unit :=
  if 0 <=? id
  then
    updateRelease c id ;;
    deleteAssetsIfTheyExist c (isTruthyString (getInput p "replace")) ;;
    uploadAssets c id ;;
    if negb (isFalsyString (getInput p "updateTag"))
    then updateTag p c
    else ret tt
  else ret tt.

Definition run (p : Process) (c : Connection) : M unit :=
  run_tag p c ;;
  id <- run_release c ;;
  run_publish p c id.

(** [setFiles]: the loop over the input tokens, [acc] being [this.files]. *)
Fixpoint push_files (p : Process) (inputFiles acc : list string)
  : M (list string) :=
  match inputFiles with
  | [] => ret acc
  | oneFile :: rest =>
      tryPath <- (if negb (existsSync oneFile) || negb (isAbsolute oneFile)
                  then
                    let tryPath := resolve (GITHUB_WORKSPACE p) oneFile in
                    if negb (existsSync tryPath) then fail else ret tryPath
                  else ret oneFile) ;;
      (if negb (existsSync tryPath) then fail else ret tt) ;;
      push_files p rest (acc ++ [backslash_to_slash tryPath])
  end.

Definition setFiles (p : Process) (c : Connection) : M Connection :=
  inputFileString <- required_input p "files" ;;
  fs <- push_files p (split_delims inputFileString) (files c) ;;
  ret (with_files c fs).

(** [setBody] up to its first [await]: the input is stored, and when it is
    empty the commit is requested; what follows the [await] runs in
    [settle]. *)
Definition setBody (p : Process) (c : Connection) : M unit :=
  fun w =>
    let b := getInput p "body" in
    if negb (String.eqb b "")
    then Done tt (mkWorld (remote w) (log w) (faults w) b (commit_fetch w)
                          (latency w))
    else
      let (rejected, rest) := next_fault w in
      let answer :=
        if rejected then None
        else option_map fst (Platform.getCommit (sha c) (remote w)) in
      Done tt (mkWorld (remote w) (log w ++ [GetCommit (sha c)]) rest b
                       (Some (latency w, answer)) (latency w)).

(** The constructor. *)
Definition constructor (p : Process) : M Connection :=
  required_input p "token" ;;
  let c := from_runner p in
  let c := setRelease p c in
  let c := setDraft p c in
  let c := setPrerelease p c in
  c <- setFiles p c ;;
  let c := setMessage p c in
  setBody p c ;;
  ret c.

(** The process stays alive until [setBody]'s request has been answered. *)
Definition drain : M unit :=
  fun w =>
    match commit_fetch w with
    | None => Done tt w
    | Some (_, Some m) =>
        Done tt (mkWorld (remote w) (log w) (faults w) m None (latency w))
    | Some (_, None) => Exited 2 w
    end.

(** The script: [new Connection()], then [connection.run()].  An
    exception nobody catches ends the process with status 1. *)
Definition main (p : Process) : M unit :=
  try_catch (c <- constructor p ;; run p c ;; drain) (fun w => Exited 1 w).

End Methods.

(** A fresh process in front of a remote. *)
Definition boot (r : Remote) (fs : list bool) (lat : nat) : World :=
  mkWorld r [] fs "" None lat.

Definition mutations (l : list Call) : list Call := filter is_mutation l.

(* ------------------------------------------------------------------ *)
(** ** Concrete scenarios                                               *)
(* ------------------------------------------------------------------ *)

Module Scenario.

Fixpoint last_segment (s cur : string) : string :=
  match s with
  | EmptyString => cur
  | String a s' =>
      if Ascii.eqb a "/"%char then last_segment s' EmptyString
      else last_segment s' (cur ++ String a EmptyString)
  end.

Definition starts_with_slash (s : string) : bool :=
  match strip_prefix "/" s with
  | Some _ => true
  | None => false
  end.

Definition on_disk : list string := ["/ws/a.zip"; "/ws/notes.txt"].

(** A small POSIX machine and a platform that names objects after their
    tag. *)
#[local] Instance node : Collaborators := {|
  basename := fun s => last_segment s EmptyString;
  existsSync := fun s => existsb (String.eqb s) on_disk;
  isAbsolute := starts_with_slash;
  resolve := fun ws f => if starts_with_slash f then f else ws ++ "/" ++ f;
  lookup := fun s => if occurs ".zip" s then Some "application/zip" else None;
  statSync_size := fun s =>
    if existsb (String.eqb s) on_disk then Some 2 else None;
  readFileSync := fun s =>
    if existsb (String.eqb s) on_disk then Some "PK" else None;
  tag_object_sha := fun o => "object-of-" ++ to_tag o;
  upload_url_of := fun _ => "https://uploads.example/assets"
|}.

Definition inputs (l : list (string * string)) (name : string) : string :=
  match Platform.assoc name l with
  | Some v => v
  | None => ""
  end.

Definition process_of (l : list (string * string)) (r : string) : Process :=
  {| getInput := inputs l; GITHUB_REF := r; GITHUB_SHA := "c0ffee";
     GITHUB_WORKSPACE := "/ws"; clock := "2024-01-01T00:00:00.000Z" |}.

Definition tagged_build : Process :=
  process_of [("token", "t0ken"); ("files", "a.zip"); ("body", "notes")]
             "refs/tags/v1.0".

Definition empty_repo : Remote :=
  {| refs := []; tag_objects := []; commits := [("c0ffee", "first commit")];
     releases := []; next_id := 1 |}.

(** A release [v1.0] holding [a.zip] and [b.zip], its tag on another
    commit. *)
Definition two_assets : Remote :=
  {| refs := [("refs/heads/main", "c0ffee"); ("refs/tags/v1.0", "0ldc0de")];
     tag_objects := [];
     commits := [("c0ffee", "first commit")];
     releases :=
       [ {| rel_id := 7; rel_name := Some "v1.0"; rel_tag_name := "v1.0";
            rel_body := "old"; rel_draft := false; rel_prerelease := false;
            rel_upload_url := "https://uploads.example/assets";
            rel_assets := [mkAsset 8 "a.zip"; mkAsset 9 "b.zip"] |} ];
     next_id := 10 |}.

Definition connected (p : Process) : Connection :=
  {| ref := GITHUB_REF p; release := "v1.0"; sha := GITHUB_SHA p;
     tag := "v1.0"; message := "v1.0 (automatically created)";
     draft := false; prerelease := true; files := ["/ws/a.zip"] |}.

(** A first run in front of the empty repository, and a second process in
    front of what the first one left. *)
Definition first_world : World := mkWorld empty_repo [] [] "notes" None 0.

Definition second_world : World :=
  mkWorld (remote (world_of (run tagged_build (connected tagged_build)
                                 first_world)))
          [] [] "notes" None 0.



Definition v1_release : Release :=
  {| rel_id := 7; rel_name := Some "v1.0"; rel_tag_name := "v1.0";
     rel_body := "old"; rel_draft := false; rel_prerelease := false;
     rel_upload_url := "https://uploads.example/assets";
     rel_assets := [mkAsset 8 "a.zip"; mkAsset 9 "b.zip"] |}.


(** A branch whose name has [tags/] inside. *)
Definition feature_branch : Process :=
  process_of [("token", "t0ken"); ("files", "a.zip"); ("body", "notes")]
             "refs/heads/feature/tags/x".

(** A build that supplies a tag message. *)
Definition message_supplied : Process :=
  process_of [("token", "t0ken"); ("files", "a.zip"); ("body", "notes");
              ("message", "Release 1")]
             "refs/tags/v1.0".


(** A build with the tag update switched off. *)
Definition update_off : Process :=
  process_of [("token", "t0ken"); ("files", "a.zip"); ("body", "notes");
              ("updateTag", "false")]
             "refs/tags/v1.0".

(** A process in front of [two_assets], nothing failing. *)
Definition calm_world : World := mkWorld two_assets [] [] "notes" None 0.


(** A build that replaces every asset. *)
Definition replace_all : Process :=
  process_of [("token", "t0ken"); ("files", "a.zip"); ("body", "notes");
              ("replace", "true")]
             "refs/tags/v1.0".


(** A release [v1.0] that holds no asset yet. *)
Definition bare_release : Remote :=
  {| refs := [("refs/tags/v1.0", "0ldc0de")];
     tag_objects := [];
     commits := [("c0ffee", "first commit")];
     releases :=
       [ {| rel_id := 7; rel_name := Some "v1.0"; rel_tag_name := "v1.0";
            rel_body := "old"; rel_draft := false; rel_prerelease := false;
            rel_upload_url := "https://uploads.example/assets";
            rel_assets := [] |} ];
     next_id := 8 |}.

Definition bare_world : World := mkWorld bare_release [] [] "notes" None 0.

(** The same release listed under a negative identifier. *)
Definition negative_release : Release :=
  {| rel_id := -1; rel_name := Some "v1.0"; rel_tag_name := "v1.0";
     rel_body := "old"; rel_draft := false; rel_prerelease := false;
     rel_upload_url := "https://uploads.example/assets";
     rel_assets := [] |}.

Definition negative_world : World :=
  mkWorld {| refs := [("refs/tags/v1.0", "0ldc0de")]; tag_objects := [];
             commits := [("c0ffee", "first commit")];
             releases := [negative_release]; next_id := 8 |}
          [] [] "notes" None 0.







End Scenario.

(* ------------------------------------------------------------------ *)
(** ** Vocabulary of the statements                                     *)
(* ------------------------------------------------------------------ *)

(** Nothing ahead fails: the transport rejects no call and the commit
    request, if one is running, has an answer. *)
Definition quiet (w : World) : Prop :=
  forallb negb (faults w) = true
  /\ forall n, commit_fetch w <> Some (n, None).

(** The world once call [c] has been sent and has left the remote as [r']. *)
Definition after (w : World) (c : Call) (r' : Remote) : World :=
  match settle (mkWorld r' (log w ++ [c]) (snd (next_fault w)) (body w)
                        (commit_fetch w) (latency w)) with
  | inl w' => w'
  | inr w' => w'
  end.

(** A release without its assets. *)
Definition card (x : Release) : Release := Platform.with_assets x [].

Definition cards (r : Remote) : list Release := map card (releases r).

Definition named (s : string) (x : Release) : bool := name_is (rel_name x) s.

Definition releases_named (s : string) (r : Remote) : list Release :=
  filter (named s) (releases r).

Definition is_create_release (c : Call) : bool :=
  match c with
  | CreateRelease _ _ _ _ _ => true
  | _ => false
  end.

Definition is_update_ref (c : Call) : bool :=
  match c with
  | UpdateRef _ _ => true
  | _ => false
  end.

(** Release identifiers are pairwise distinct and below the platform's
    counter. *)
Definition fresh_ids (r : Remote) : Prop :=
  NoDup (map rel_id (releases r))
  /\ Forall (fun x => rel_id x < next_id r) (releases r).

(** The platform hands out no negative identifier. *)
Definition ids_nonneg (r : Remote) : Prop :=
  Forall (fun x => 0 <= rel_id x) (releases r) /\ 0 <= next_id r.

(** [w'] follows [w] by calls that create no release and leave every
    release as it is, assets apart. *)
Definition steady (w w' : World) : Prop :=
  cards (remote w') = cards (remote w)
  /\ next_id (remote w) <= next_id (remote w')
  /\ (commit_fetch w = None -> commit_fetch w' = None /\ body w' = body w)
  /\ exists l, log w' = (log w ++ l)%list
               /\ Forall (fun c => is_create_release c = false) l.

Definition keeps {A : Type} (m : M A) : Prop :=
  forall w a w', m w = Done a w' -> steady w w'.

(** Whatever the outcome, the calls [m] sends from [w] all satisfy [P]. *)
Definition sends {A : Type} (P : Call -> Prop) (m : M A) (w : World) : Prop :=
  exists l, log (world_of (m w)) = (log w ++ l)%list /\ Forall P l.

Definition emits {A : Type} (P : Call -> Prop) (m : M A) : Prop :=
  forall w, sends P m w.

(** What [updateRelease] writes on a release. *)
Definition updated (c : Connection) (b : string) (x : Release) : Release :=
  {| rel_id := rel_id x; rel_name := Some (release c);
     rel_tag_name := rel_tag_name x; rel_body := b; rel_draft := draft c;
     rel_prerelease := prerelease c; rel_upload_url := rel_upload_url x;
     rel_assets := rel_assets x |}.

(** The release [createRelease] asks for, as the platform stores it. *)
Definition created {K : Collaborators} (c : Connection) (b : string) (id : Z)
  : Release :=
  {| rel_id := id; rel_name := Some (release c); rel_tag_name := tag c;
     rel_body := b; rel_draft := draft c; rel_prerelease := prerelease c;
     rel_upload_url := upload_url_of id; rel_assets := [] |}.

(** The assets [deleteAssetsIfTheyExist] marks, as the specification words
    it. *)
Definition marked {K : Collaborators} (c : Connection) (replaceAll : bool)
           (a : Asset) : bool :=
  replaceAll
  || existsb (fun f => String.eqb (asset_name a) (basename f)) (files c).

(** [serve] neither adds nor edits a release, assets apart. *)
Definition gentle {A : Type} (serve : Remote -> option (A * Remote)) : Prop :=
  forall r a r', serve r = Some (a, r') ->
                 cards r' = cards r /\ next_id r <= next_id r'.

(** [updateRelease] addresses one identifier. *)
Definition touch (c : Connection) (b : string) (id : Z) (x : Release)
  : Release :=
  if rel_id x =? id then updated c b x else x.


(** The entry of [listTags] that [getTag] returns, if there is one. *)
Definition listed_tag {K : Collaborators} (c : Connection) (r : Remote)
  : option Tag :=
  find (fun t => String.eqb (tag_name t) (tag c))
       (Platform.tags_of r (refs r)).

(** The tag object [createTag] asks for. *)
Definition tag_object_of (p : Process) (c : Connection) : TagObject :=
  {| to_tag := tag c; to_message := message c; to_object := sha c;
     to_type := "commit"; to_tagger := new_Tagger p |}.


(** The remote once asset [aid] is gone. *)
Definition without_asset (r : Remote) (aid : Z) : Remote :=
  mkRemote (refs r) (tag_objects r) (commits r)
           (map (fun x => Platform.with_assets x
                            (filter (fun a => negb (asset_id a =? aid))
                                    (rel_assets x)))
                (releases r))
           (next_id r).

(** The assets of the release that [id] addresses. *)
Definition assets_of (id : Z) (r : Remote) : option (list Asset) :=
  option_map rel_assets (find (fun x => rel_id x =? id) (releases r)).

Definition deletion_of (a : Asset) : Call := DeleteReleaseAsset (asset_id a).




(** The assets that uploading [l] adds, the platform counting from [n]. *)
Fixpoint uploaded {K : Collaborators} (n : Z) (l : list string) : list Asset :=
  match l with
  | [] => []
  | f :: l' => mkAsset n (basename f) :: uploaded (n + 1) l'
  end.

(** What a run asks of the machine and of the platform to go through: sound
    identifiers, on the release of the name if there is one, assets with
    distinct identifiers that the platform has handed out, files that can be
    read, no two of them with the same basename. *)
Definition ready {K : Collaborators} (c : Connection) (r : Remote) : Prop :=
  ids_nonneg r /\ fresh_ids r
  /\ (forall x, find (named (release c)) (releases r) = Some x ->
                NoDup (map asset_id (rel_assets x))
                /\ Forall (fun a => asset_id a < next_id r) (rel_assets x))
  /\ Forall (fun f => statSync_size f <> None /\ readFileSync f <> None)
            (files c)
  /\ NoDup (map basename (files c)).


(** No character of [s] belongs to the separator class. *)
Fixpoint free_of_delims (s : string) : bool :=
  match s with
  | EmptyString => true
  | String a s' => negb (is_delim a) && free_of_delims s'
  end.

(** Every piece of [l] but the last one is non-empty. *)
Fixpoint all_but_last_nonempty (l : list string) : Prop :=
  match l with
  | [] => True
  | x :: l' =>
      match l' with
      | [] => True
      | _ :: _ => x <> "" /\ all_but_last_nonempty l'
      end
  end.

(** Does character [a] occur in [s]? *)
Fixpoint has_char (a : ascii) (s : string) : bool :=
  match s with
  | EmptyString => false
  | String b s' => Ascii.eqb b a || has_char a s'
  end.

(** The path [setFiles] keeps for one token: the token itself when it
    exists and is absolute, else the token resolved against the workspace
    when that exists. *)
Definition located {K : Collaborators} (p : Process) (f : string)
  : option string :=
  if existsSync f && isAbsolute f then Some f
  else
    let t := resolve (GITHUB_WORKSPACE p) f in
    if existsSync t then Some t else None.

Fixpoint locate_all {K : Collaborators} (p : Process) (l : list string)
  : option (list string) :=
  match l with
  | [] => Some []
  | f :: l' =>
      match located p f, locate_all p l' with
      | Some t, Some ts => Some (t :: ts)
      | _, _ => None
      end
  end.

(** The connection the constructor has built once [setFiles] has kept the
    paths [ts]. *)
Definition configured (p : Process) (ts : list string) : Connection :=
  setMessage p
    (with_files (setPrerelease p (setDraft p (setRelease p (from_runner p))))
                (map backslash_to_slash ts)).

(** The content type [uploadAssets] sends for a file. *)
Definition content_type_of {K : Collaborators} (f : string) : string :=
  match lookup f with
  | Some t => t
  | None => defaultAssetContentType
  end.

(** Call [call] uploads file [f] to release [id]: under its basename, with
    its size and content, and the content type looked up for it. *)
Definition uploads_file {K : Collaborators} (id : Z) (f : string)
           (call : Call) : Prop :=
  exists url n d,
    statSync_size f = Some n /\ readFileSync f = Some d
    /\ call = UploadReleaseAsset id url (basename f) (content_type_of f) n d.



(** [T] relates the world before [m] to the world it leaves, whatever the
    outcome. *)
Definition always {A : Type} (T : World -> World -> Prop) (m : M A) : Prop :=
  forall w, T w (world_of (m w)).

(** [G] relates the remote before an accepted call to the remote after. *)
Definition respects {A : Type} (G : Remote -> Remote -> Prop)
           (serve : Remote -> option (A * Remote)) : Prop :=
  forall r a r', serve r = Some (a, r') -> G r r'.

Definition on_remote (G : Remote -> Remote -> Prop) (w w' : World) : Prop :=
  G (remote w) (remote w').

Definition unchanged (r r' : Remote) : Prop := r' = r.

(** No ref but the tag's own has moved, and no commit has. *)
Definition only_tag_ref_moves (c : Connection) (r r' : Remote) : Prop :=
  (forall k, k <> "refs/tags/" ++ tag c ->
             Platform.assoc k (refs r') = Platform.assoc k (refs r))
  /\ commits r' = commits r.

(** What identifies a release: its identifier, the tag it is attached to
    and its upload address. *)
Definition identity (x : Release) : Z * string * string :=
  (rel_id x, rel_tag_name x, rel_upload_url x).

(** Every release of [r] is still in [r'], where it was, attached to the
    same tag; releases may have been put in front. *)
Definition releases_survive (r r' : Remote) : Prop :=
  (exists news, map identity (releases r')
                = (news ++ map identity (releases r))%list)
  /\ next_id r <= next_id r'.



Definition is_listing (c : Call) : Prop := is_mutation c = false.

(** [m] leaves the remote as it is and sends nothing but listings,
    whatever its outcome. *)
Definition reads_only {A : Type} (m : M A) : Prop :=
  forall w, remote (world_of (m w)) = remote w /\ sends is_listing m w.

(** The mutating calls of the tag stage and of the release stage. *)
Definition is_early (c : Call) : Prop :=
  match c with
  | CreateTag _ | CreateRef _ _ | CreateRelease _ _ _ _ _ => True
  | _ => False
  end.

Definition early_or_listing (c : Call) : Prop :=
  is_mutation c = true -> is_early c.

(** The call that moves the tag, when the [updateTag] input allows it. *)
Definition repoint (p : Process) (c : Connection) : list Call :=
  if negb (isFalsyString (getInput p "updateTag"))
  then [UpdateRef ("tags/" ++ tag c) (GITHUB_SHA p)]
  else [].

(* ================================================================== *)
(** * Properties                                                        *)
(* ================================================================== *)

(** ** Strings *)

Lemma strip_prefix_app (p s : string) : strip_prefix p (p ++ s) = Some s.
Proof.
  induction p as [|a p IH]; simpl.
  - destruct s; reflexivity.
  - now rewrite Ascii.eqb_refl.
Qed.

Lemma strip_prefix_Some (p s rest : string) :
  strip_prefix p s = Some rest -> s = p ++ rest.
Proof.
  revert s; induction p as [|a p IH]; intros s H.
  - destruct s; simpl in H; now inversion H.
  - destruct s as [|b s]; simpl in H; [discriminate|].
    destruct (Ascii.eqb a b) eqn:E; [|discriminate].
    apply Ascii.eqb_eq in E; subst b.
    simpl; f_equal; now apply IH.
Qed.

Lemma replace_first_absent (p s : string) :
  occurs p s = false -> replace_first p s = s.
Proof.
  induction s as [|a s IH]; simpl.
  - destruct (strip_prefix p ""); congruence.
  - destruct (strip_prefix p (String a s)); [discriminate|].
    intros H; now rewrite IH.
Qed.

Lemma replace_first_leading (p s : string) : replace_first p (p ++ s) = s.
Proof.
  destruct (p ++ s) eqn:E; simpl; rewrite <- E, strip_prefix_app; reflexivity.
Qed.

(** ** The flags and names the constructor settles *)

(** C9.  The two flags are parsed asymmetrically: prerelease is true unless
    its input is exactly [false] or [no], so an empty input means
    prerelease; draft is true only when its input is exactly [true] or
    [yes], so an empty input means not a draft. *)
Theorem flags_parse_asymmetrically (p : Process) (c : Connection) :
  (prerelease (setPrerelease p c) = true <->
     getInput p "prerelease" <> "false" /\ getInput p "prerelease" <> "no")
  /\ (draft (setDraft p c) = true <->
        getInput p "draft" = "true" \/ getInput p "draft" = "yes")
  /\ (getInput p "prerelease" = "" -> prerelease (setPrerelease p c) = true)
  /\ (getInput p "draft" = "" -> draft (setDraft p c) = false).
Proof.
  unfold setPrerelease, setDraft, isFalsyString, isTruthyString; simpl.
  split; [|split; [|split]].
  - rewrite negb_true_iff, orb_false_iff, !String.eqb_neq; tauto.
  - rewrite orb_true_iff, !String.eqb_eq; tauto.
  - intros H; rewrite H; reflexivity.
  - intros H; rewrite H; reflexivity.
Qed.

Lemma flags_parse_asymmetrically_witness :
  prerelease (setPrerelease Scenario.tagged_build initial) = true
  /\ draft (setDraft Scenario.tagged_build initial) = false.
Proof.
  destruct (flags_parse_asymmetrically Scenario.tagged_build initial)
    as (_ & _ & Hp & Hd).
  split; [apply Hp | apply Hd]; reflexivity.
Defined.

(** Where the ref carries its namespace once, at the front, [setRelease]
    derives the name the specification describes. *)
Lemma setRelease_anchored (p : Process) (c : Connection) (rest : string) :
  getInput p "release" = "" ->
  occurs "refs/" rest = false ->
  occurs "heads/" rest = false ->
  occurs "tags/" rest = false ->
  (ref c = "refs/heads/" ++ rest \/ ref c = "refs/tags/" ++ rest) ->
  release (setRelease p c) = slash_to_dash rest
  /\ release (setRelease p c) = Spec.derive_name (ref c).
Proof.
  intros Hin Hr Hh Ht Href.
  assert (E : release (setRelease p c)
              = slash_to_dash
                  (replace_first "tags/"
                     (replace_first "heads/" (replace_first "refs/" (ref c))))).
  { unfold setRelease; simpl; rewrite Hin; simpl.
    destruct (String.eqb _ ""); reflexivity. }
  rewrite E.
  destruct Href as [-> | ->].
  - change ("refs/heads/" ++ rest) with ("refs/" ++ ("heads/" ++ rest)).
    rewrite replace_first_leading, replace_first_leading.
    rewrite (replace_first_absent _ _ Ht).
    split; [reflexivity|].
    unfold Spec.derive_name, Spec.strip_leading, Spec.strip_heads_or_tags.
    rewrite strip_prefix_app, strip_prefix_app; reflexivity.
  - change ("refs/tags/" ++ rest) with ("refs/" ++ ("tags/" ++ rest)).
    rewrite replace_first_leading.
    assert (A : replace_first "heads/" ("tags/" ++ rest) = "tags/" ++ rest).
    { simpl. now rewrite (replace_first_absent _ _ Hh). }
    rewrite A, replace_first_leading.
    split; [reflexivity|].
    unfold Spec.derive_name, Spec.strip_leading, Spec.strip_heads_or_tags.
    rewrite strip_prefix_app.
    change (strip_prefix "heads/" ("tags/" ++ rest)) with (@None string).
    unfold Spec.strip_leading; now rewrite strip_prefix_app.
Qed.

(** ** The names and the message the constructor settles *)

Lemma setRelease_tag_default p c :
  getInput p "tag" = "" -> tag (setRelease p c) = release (setRelease p c).
Proof.
  intros H; unfold setRelease; cbn [tag release with_tag with_release].
  rewrite H; simpl.
  destruct (String.eqb (getInput p "release") ""); reflexivity.
Qed.

Lemma setRelease_examples p c :
  getInput p "release" = "" ->
  (ref c = "refs/heads/feature/x" -> release (setRelease p c) = "feature-x")
  /\ (ref c = "refs/tags/v2.0" -> release (setRelease p c) = "v2.0").
Proof.
  intros H; split; intros R.
  - apply (@setRelease_anchored p c "feature/x" H); auto.
  - apply (@setRelease_anchored p c "v2.0" H); auto.
Qed.

Lemma setMessage_empty p c :
  getInput p "message" = "" ->
  message (setMessage p c) = release c ++ " (automatically created)".
Proof. intros H; unfold setMessage; now rewrite H. Qed.

(** A message that is supplied is read and not stored. *)
Lemma setMessage_supplied p c :
  getInput p "message" <> "" -> message (setMessage p c) = message c.
Proof.
  intros H; unfold setMessage.
  apply String.eqb_neq in H; now rewrite H.
Qed.

(** ** The process monad *)

Lemma bind_Done {A B : Type} (m : M A) (f : A -> M B) w b w' :
  bind m f w = Done b w' ->
  exists a w1, m w = Done a w1 /\ f a w1 = Done b w'.
Proof.
  unfold bind; destruct (m w) as [a w1| |]; intros H; try discriminate; eauto.
Qed.

Lemma try_fail_Done {A : Type} (m : M A) w a w' :
  try_catch m fail w = Done a w' -> m w = Done a w'.
Proof. unfold try_catch, fail; destruct (m w); congruence. Qed.

Lemma settle_inl w w' :
  settle w = inl w' ->
  remote w' = remote w /\ log w' = log w /\ faults w' = faults w
  /\ (commit_fetch w = None -> commit_fetch w' = None /\ body w' = body w).
Proof.
  unfold settle; destruct (commit_fetch w) as [[[|n] [m|]]|] eqn:E;
    intros H; inversion H; subst; simpl; repeat split; auto; discriminate.
Qed.

Lemma request_Done {A : Type} c (serve : Remote -> option (A * Remote)) w a w' :
  request c serve w = Done a w' ->
  exists r', serve (remote w) = Some (a, r') /\ remote w' = r'
             /\ log w' = (log w ++ [c])%list
             /\ (commit_fetch w = None ->
                 commit_fetch w' = None /\ body w' = body w).
Proof.
  unfold request; destruct (next_fault w) as [rej rest].
  destruct rej.
  - destruct (settle _); discriminate.
  - destruct (serve (remote w)) as [[a0 r0]|] eqn:E.
    + destruct (settle _) as [w0|w0] eqn:S; [|discriminate].
      intros H; inversion H; subst.
      apply settle_inl in S; simpl in S.
      destruct S as (S1 & S2 & _ & S4).
      exists r0; repeat split; auto; now apply S4.
    + destruct (settle _); discriminate.
Qed.

Lemma steady_refl w : steady w w.
Proof.
  repeat split; auto; try lia.
  exists []; split; [now rewrite app_nil_r | constructor].
Qed.

Lemma steady_trans w1 w2 w3 : steady w1 w2 -> steady w2 w3 -> steady w1 w3.
Proof.
  intros (A1 & A2 & A3 & l1 & A4 & A5) (B1 & B2 & B3 & l2 & B4 & B5).
  split; [congruence|]. split; [lia|]. split.
  - intros H; destruct (A3 H) as [H1 H2]; destruct (B3 H1) as [H3 H4].
    split; congruence.
  - exists (l1 ++ l2)%list; split.
    + now rewrite B4, A4, app_assoc.
    + apply Forall_app; auto.
Qed.

Lemma keeps_ret {A : Type} (a : A) : keeps (ret a).
Proof. intros w a' w' H; inversion H; subst; apply steady_refl. Qed.

Lemma keeps_fail {A : Type} : keeps (@fail A).
Proof. intros w a' w' H; discriminate. Qed.

Lemma keeps_throw {A : Type} : keeps (@throw A).
Proof. intros w a' w' H; discriminate. Qed.

Lemma keeps_bind {A B : Type} (m : M A) (f : A -> M B) :
  keeps m -> (forall a, keeps (f a)) -> keeps (bind m f).
Proof.
  intros Hm Hf w b w' H.
  apply bind_Done in H as (a & w1 & H1 & H2).
  eapply steady_trans; [eapply Hm | eapply Hf]; eauto.
Qed.

Lemma keeps_try_fail {A : Type} (m : M A) : keeps m -> keeps (try_catch m fail).
Proof. intros Hm w a w' H; apply try_fail_Done in H; eauto. Qed.

(** A call that neither creates nor edits a release. *)
Lemma keeps_request {A : Type} c (serve : Remote -> option (A * Remote)) :
  is_create_release c = false ->
  (forall r a r', serve r = Some (a, r') ->
                  cards r' = cards r /\ next_id r <= next_id r') ->
  keeps (request c serve).
Proof.
  intros Hc Hs w a w' H.
  apply request_Done in H as (r' & H1 & H2 & H3 & H4).
  destruct (Hs _ _ _ H1) as [C1 C2]; subst r'.
  split; [assumption|]. split; [assumption|]. split; [assumption|].
  exists [c]; split; auto.
Qed.


(** ** Calls that leave the releases alone *)

Section Reconciliation.
Context {K : Collaborators}.

Lemma gentle_listTags : gentle Platform.listTags.
Proof. intros r a r' H; inversion H; subst; split; [reflexivity|lia]. Qed.

Lemma gentle_createTag o : gentle (Platform.createTag o).
Proof. intros r a r' H; inversion H; subst; split; [reflexivity|simpl; lia]. Qed.

Lemma gentle_createRef n t : gentle (Platform.createRef n t).
Proof.
  intros r a r' H; unfold Platform.createRef in H.
  destruct (Platform.assoc n (refs r)); inversion H; subst.
  split; [reflexivity|simpl; lia].
Qed.

Lemma gentle_updateRef n t : gentle (Platform.updateRef n t).
Proof.
  intros r a r' H; unfold Platform.updateRef in H.
  destruct (Platform.assoc _ (refs r)); inversion H; subst.
  split; [reflexivity|simpl; lia].
Qed.

Lemma gentle_listReleases : gentle Platform.listReleases.
Proof. intros r a r' H; inversion H; subst; split; [reflexivity|lia]. Qed.

Lemma gentle_listReleaseAssets id : gentle (Platform.listReleaseAssets id).
Proof.
  intros r a r' H; unfold Platform.listReleaseAssets in H.
  destruct (find _ _); inversion H; subst; split; [reflexivity|lia].
Qed.

Lemma gentle_deleteReleaseAsset aid : gentle (Platform.deleteReleaseAsset aid).
Proof.
  intros r a r' H; unfold Platform.deleteReleaseAsset in H.
  destruct (Platform.has_asset aid r); inversion H; subst.
  split; [|simpl; lia].
  unfold cards; simpl; rewrite map_map; apply map_ext; intros x; reflexivity.
Qed.

Lemma gentle_uploadReleaseAsset id n : gentle (Platform.uploadReleaseAsset id n).
Proof.
  intros r a r' H; unfold Platform.uploadReleaseAsset in H.
  destruct (find _ _); [|discriminate].
  destruct (existsb _ _); inversion H; subst.
  split; [|simpl; lia].
  unfold cards; simpl; rewrite map_map; apply map_ext; intros x.
  destruct (rel_id x =? id); reflexivity.
Qed.

Ltac keeps_step :=
  first
    [ apply keeps_ret | apply keeps_fail | apply keeps_throw
    | apply keeps_try_fail
    | apply keeps_bind; [|intros ?]
    | apply keeps_request;
      [ reflexivity
      | first [ apply gentle_listTags | apply gentle_createTag
              | apply gentle_createRef | apply gentle_updateRef
              | apply gentle_listReleases | apply gentle_listReleaseAssets
              | apply gentle_deleteReleaseAsset
              | apply gentle_uploadReleaseAsset ] ]
    | match goal with
      | |- keeps (match ?x with _ => _ end) => destruct x
      end ].

Ltac keeps_auto := repeat keeps_step.

Lemma keeps_getTag c : keeps (getTag c).
Proof. unfold getTag, rest_listTags; keeps_auto. Qed.

Lemma keeps_createTag p c : keeps (createTag p c).
Proof.
  unfold createTag, createLightweightTag, rest_createTag, rest_createRef.
  keeps_auto.
Qed.

Lemma keeps_run_tag p c : keeps (run_tag p c).
Proof.
  unfold run_tag; apply keeps_bind; [apply keeps_getTag|intros [t|]].
  - apply keeps_ret.
  - apply keeps_bind; [apply keeps_createTag|intros _; apply keeps_getTag].
Qed.

Lemma keeps_doesReleaseExist c : keeps (doesReleaseExist c).
Proof.
  unfold doesReleaseExist, getReleases, rest_listReleases; keeps_auto.
Qed.

Lemma keeps_getReleaseID c : keeps (getReleaseID c).
Proof. unfold getReleaseID, rest_listReleases; keeps_auto. Qed.

Lemma keeps_getReleaseAssets c : keeps (getReleaseAssets c).
Proof.
  unfold getReleaseAssets, rest_listReleaseAssets.
  apply keeps_try_fail, keeps_bind; [apply keeps_getReleaseID|intros id].
  keeps_auto.
Qed.

Lemma keeps_delete_loop c flag l res : keeps (delete_loop c flag l res).
Proof.
  revert res; induction l as [|a l IH]; intros res; simpl.
  - apply keeps_ret.
  - destruct (shouldDelete c flag a); [|apply IH].
    apply keeps_bind; [|intros _; apply IH].
    unfold rest_deleteReleaseAsset; keeps_auto.
Qed.

Lemma keeps_deleteAssetsIfTheyExist c flag :
  keeps (deleteAssetsIfTheyExist c flag).
Proof.
  unfold deleteAssetsIfTheyExist.
  apply keeps_try_fail, keeps_bind; [apply keeps_getReleaseAssets|].
  intros [l|]; [apply keeps_delete_loop|apply keeps_throw].
Qed.

Lemma keeps_getReleaseUploadURL c : keeps (getReleaseUploadURL c).
Proof.
  unfold getReleaseUploadURL, getRepos, rest_listReleases; keeps_auto.
Qed.

Lemma keeps_upload_loop c id l : keeps (upload_loop c id l).
Proof.
  induction l as [|f l IH]; simpl.
  - apply keeps_ret.
  - apply keeps_bind; [keeps_auto|intros n].
    apply keeps_bind; [apply keeps_getReleaseUploadURL|intros url].
    apply keeps_bind; [keeps_auto|intros d].
    apply keeps_bind; [|intros _; apply IH].
    unfold rest_uploadReleaseAsset; keeps_auto.
Qed.

Lemma keeps_uploadAssets c id : keeps (uploadAssets c id).
Proof. apply keeps_try_fail, keeps_upload_loop. Qed.

Lemma keeps_updateTag p c : keeps (updateTag p c).
Proof. unfold updateTag, rest_updateRef; keeps_auto. Qed.

(** ** The release stage *)

Lemma some_eq {A : Type} (a b : A) : Some a = Some b -> a = b.
Proof. congruence. Qed.

Lemma ret_Done {A : Type} (a b : A) w w' : ret a w = Done b w' -> a = b /\ w = w'.
Proof. intros H; inversion H; auto. Qed.

Lemma existsb_names s l :
  existsb (fun n => name_is n s) (map rel_name l) = existsb (named s) l.
Proof. induction l; simpl; [reflexivity|now rewrite IHl]. Qed.

Lemma listReleases_Done w l w' :
  rest_listReleases w = Done l w' ->
  l = releases (remote w) /\ remote w' = remote w /\ steady w w'.
Proof.
  intros H; pose proof H as H0.
  apply request_Done in H as (r' & H1 & H2 & _).
  inversion H1; subst.
  split; [reflexivity|]. split; [congruence|].
  eapply (@keeps_request _ ListReleases); eauto using gentle_listReleases.
Qed.

Lemma getReleaseID_Done c w id w' :
  getReleaseID c w = Done id w' ->
  remote w' = remote w /\ steady w w'
  /\ exists r, find (named (release c)) (releases (remote w)) = Some r
               /\ rel_id r = id.
Proof.
  intros H; pose proof (keeps_getReleaseID _ _ H) as St.
  unfold getReleaseID in H.
  apply bind_Done in H as (found & w1 & H1 & H2).
  apply try_fail_Done, bind_Done in H1 as (l & w2 & H3 & H4).
  apply listReleases_Done in H3 as (-> & R & _).
  apply ret_Done in H4 as [<- <-].
  fold (named (release c)) in H2.
  destruct (find (named (release c)) (releases (remote w))) as [r|] eqn:F;
    simpl in H2; [|discriminate].
  apply ret_Done in H2 as [<- <-].
  split; [assumption|]. split; [assumption|]. eauto.
Qed.

Lemma doesReleaseExist_Done c w b w' :
  doesReleaseExist c w = Done b w' ->
  remote w' = remote w /\ steady w w'
  /\ b = existsb (named (release c)) (releases (remote w)).
Proof.
  intros H; pose proof (keeps_doesReleaseExist _ _ H) as St.
  unfold doesReleaseExist, getReleases in H.
  apply try_fail_Done, bind_Done in H as (names & w1 & H1 & H2).
  apply try_fail_Done, bind_Done in H1 as (l & w2 & H3 & H4).
  apply listReleases_Done in H3 as (-> & R & _).
  apply ret_Done in H4 as [<- <-].
  apply ret_Done in H2 as [<- <-].
  rewrite existsb_names.
  split; [assumption|]. split; [assumption|]. reflexivity.
Qed.

Lemma createRelease_Done c w a w' :
  createRelease c w = Done a w' ->
  releases (remote w')
  = created c (body w) (next_id (remote w)) :: releases (remote w)
  /\ next_id (remote w') = next_id (remote w) + 1
  /\ (commit_fetch w = None -> commit_fetch w' = None /\ body w' = body w).
Proof.
  intros H; unfold createRelease in H.
  apply try_fail_Done in H.
  apply request_Done in H as (r' & H1 & H2 & _ & H4).
  rewrite H2; injection H1 as H1; subst r'; simpl; auto.
Qed.

Lemma updateRelease_Done c id w a w' :
  updateRelease c id w = Done a w' ->
  releases (remote w')
  = map (fun x => if rel_id x =? id then updated c (body w) x else x)
        (releases (remote w))
  /\ next_id (remote w') = next_id (remote w)
  /\ (commit_fetch w = None -> commit_fetch w' = None /\ body w' = body w)
  /\ log w' = (log w ++ [UpdateRelease id (release c) (body w) (draft c)
                                       (prerelease c)])%list.
Proof.
  intros H; unfold updateRelease in H.
  apply try_fail_Done in H.
  apply request_Done in H as (r' & H1 & H2 & H3 & H4).
  unfold Platform.updateRelease in H1.
  destruct (Platform.has_release id (remote w)); [|discriminate].
  rewrite H2; injection H1 as H1; subst r'; simpl; auto.
Qed.

(** ** Releases seen without their assets *)

Lemma cards_ids r : map rel_id (cards r) = map rel_id (releases r).
Proof. unfold cards; rewrite map_map; reflexivity. Qed.

Lemma filter_named_card s l :
  length (filter (named s) (map card l)) = length (filter (named s) l).
Proof.
  induction l as [|x l IH]; simpl; [reflexivity|].
  change (named s (card x)) with (named s x).
  destruct (named s x); simpl; now rewrite IH.
Qed.

Lemma find_named_card s l :
  find (named s) (map card l) = option_map card (find (named s) l).
Proof.
  induction l as [|x l IH]; simpl; [reflexivity|].
  change (named s (card x)) with (named s x).
  destruct (named s x); auto.
Qed.

Lemma named_updated c b x : named (release c) (updated c b x) = true.
Proof. unfold named; simpl; apply String.eqb_refl. Qed.

Lemma named_created c b id : named (release c) (created c b id) = true.
Proof. unfold named; simpl; apply String.eqb_refl. Qed.

Lemma touch_id c b id x : rel_id (touch c b id x) = rel_id x.
Proof. unfold touch; destruct (rel_id x =? id); reflexivity. Qed.

Lemma touch_absent c b id l :
  ~ In id (map rel_id l) -> map (touch c b id) l = l.
Proof.
  induction l as [|x l IH]; simpl; intros H; [reflexivity|].
  unfold touch at 1.
  destruct (Z.eqb_spec (rel_id x) id) as [E|E]; [tauto|].
  f_equal; apply IH; tauto.
Qed.

Lemma find_named_In s l r :
  find (named s) l = Some r -> In r l /\ named s r = true.
Proof. apply find_some. Qed.

(** With distinct identifiers the update reaches the first release of the
    name and no other. *)
Lemma touch_first c b id l r :
  NoDup (map rel_id l) ->
  find (named (release c)) l = Some r -> rel_id r = id ->
  map rel_id (map (touch c b id) l) = map rel_id l
  /\ length (filter (named (release c)) (map (touch c b id) l))
     = length (filter (named (release c)) l)
  /\ find (named (release c)) (map (touch c b id) l) = Some (updated c b r).
Proof.
  intros N F E; split.
  { rewrite map_map; apply map_ext; intros; apply touch_id. }
  revert N F; induction l as [|x l IH]; simpl; intros N F; [discriminate|].
  inversion N as [|? ? Nx Nl]; subst.
  destruct (named (release c) x) eqn:Hx.
  - injection F as ->.
    rewrite touch_absent by assumption.
    unfold touch; rewrite Z.eqb_refl, named_updated; simpl; auto.
  - assert (Hr : In (rel_id r) (map rel_id l)).
    { apply in_map; now apply find_named_In in F. }
    assert (Hne : rel_id x <> rel_id r) by (intros Q; now rewrite Q in Nx).
    assert (T : touch c b (rel_id r) x = x).
    { unfold touch.
      destruct (Z.eqb_spec (rel_id x) (rel_id r)) as [Q|_]; tauto. }
    rewrite !T, Hx; now apply IH.
Qed.

Lemma cards_touch c b id l :
  map card (map (fun x => if rel_id x =? id then updated c b x else x) l)
  = map (touch c b id) (map card l).
Proof.
  rewrite !map_map; apply map_ext; intros x; unfold touch.
  change (rel_id (card x)) with (rel_id x).
  destruct (rel_id x =? id); reflexivity.
Qed.

Lemma existsb_filter_nil {A : Type} (f : A -> bool) l :
  existsb f l = false <-> filter f l = [].
Proof.
  induction l as [|x l IH]; simpl; [tauto|].
  destruct (f x); simpl; [split; discriminate|exact IH].
Qed.

(** ** Identifiers along a run *)

Lemma fresh_ids_iff r :
  fresh_ids r <->
  NoDup (map rel_id (releases r))
  /\ Forall (fun i => i < next_id r) (map rel_id (releases r)).
Proof. unfold fresh_ids; now rewrite Forall_map. Qed.

Lemma ids_nonneg_iff r :
  ids_nonneg r <->
  Forall (fun i => 0 <= i) (map rel_id (releases r)) /\ 0 <= next_id r.
Proof. unfold ids_nonneg; now rewrite Forall_map. Qed.

Lemma steady_ids w w' :
  steady w w' ->
  map rel_id (releases (remote w')) = map rel_id (releases (remote w))
  /\ next_id (remote w) <= next_id (remote w').
Proof.
  intros (C & N & _); split; [|exact N].
  now rewrite <- !cards_ids, C.
Qed.

Lemma steady_fresh_ids w w' :
  steady w w' -> fresh_ids (remote w) -> fresh_ids (remote w').
Proof.
  intros S F; apply steady_ids in S as [I N].
  apply fresh_ids_iff in F as [F1 F2]; apply fresh_ids_iff.
  rewrite I; split; [assumption|].
  eapply Forall_impl; [|exact F2]; simpl; intros; lia.
Qed.

Lemma steady_ids_nonneg w w' :
  steady w w' -> ids_nonneg (remote w) -> ids_nonneg (remote w').
Proof.
  intros S F; apply steady_ids in S as [I N].
  apply ids_nonneg_iff in F as [F1 F2]; apply ids_nonneg_iff.
  rewrite I; split; [assumption|lia].
Qed.

Lemma steady_named s w w' :
  steady w w' ->
  length (releases_named s (remote w')) = length (releases_named s (remote w)).
Proof.
  intros (C & _); unfold releases_named.
  rewrite <- (filter_named_card s (releases (remote w'))).
  rewrite <- (filter_named_card s (releases (remote w))).
  unfold cards in C; now rewrite C.
Qed.

(** ** The stages of [run] when they return *)

Lemma run_release_Done c w id w' :
  run_release c w = Done id w' ->
  exists r,
    find (named (release c)) (releases (remote w')) = Some r /\ rel_id r = id
    /\ (commit_fetch w = None -> commit_fetch w' = None /\ body w' = body w)
    /\ ((releases_named (release c) (remote w) <> []
         /\ remote w' = remote w /\ steady w w')
        \/ (releases_named (release c) (remote w) = []
            /\ exists b,
                releases (remote w')
                = created c b (next_id (remote w)) :: releases (remote w)
                /\ next_id (remote w') = next_id (remote w) + 1)).
Proof.
  intros H; unfold run_release in H.
  apply bind_Done in H as (b & w1 & H1 & H2).
  apply doesReleaseExist_Done in H1 as (R1 & S1 & ->).
  apply bind_Done in H2 as (u & w2 & H2 & H3).
  apply getReleaseID_Done in H3 as (R3 & S3 & r & F & E).
  exists r; rewrite R3.
  destruct (existsb (named (release c)) (releases (remote w))) eqn:X;
    simpl in H2.
  - apply ret_Done in H2 as [_ <-].
    split; [assumption|]. split; [assumption|]. split.
    + intros Q; destruct S1 as (_ & _ & B1 & _), S3 as (_ & _ & B3 & _).
      destruct (B1 Q) as [Q1 Q2]; destruct (B3 Q1); split; congruence.
    + left; split; [|split; [congruence|eapply steady_trans; eauto]].
      unfold releases_named; intros Q.
      apply existsb_filter_nil in Q; congruence.
  - apply createRelease_Done in H2 as (C1 & C2 & C3).
    split; [assumption|]. split; [assumption|]. split.
    + intros Q; destruct S1 as (_ & _ & B1 & _), S3 as (_ & _ & B3 & _).
      destruct (B1 Q) as [Q1 Q2]; destruct (C3 Q1) as [Q3 Q4].
      destruct (B3 Q3); split; congruence.
    + right; split; [now apply existsb_filter_nil|].
      exists (body w1); rewrite <- R1; auto.
Qed.

Lemma run_publish_Done p c id w a w' :
  0 <= id -> run_publish p c id w = Done a w' ->
  cards (remote w') = map (touch c (body w) id) (cards (remote w))
  /\ next_id (remote w) <= next_id (remote w')
  /\ (commit_fetch w = None -> commit_fetch w' = None /\ body w' = body w)
  /\ exists l, log w' = (log w ++ l)%list
               /\ Forall (fun c => is_create_release c = false) l
               /\ In (UpdateRelease id (release c) (body w) (draft c)
                                    (prerelease c)) l.
Proof.
  intros Hid H; unfold run_publish in H.
  destruct (Z.leb_spec 0 id); [|lia].
  apply bind_Done in H as (u & w1 & H1 & H2).
  apply updateRelease_Done in H1 as (R1 & N1 & B1 & L1).
  assert (Kp : steady w1 w').
  { revert H2; apply keeps_bind;
      [apply keeps_deleteAssetsIfTheyExist|intros _].
    apply keeps_bind; [apply keeps_uploadAssets|intros _].
    destruct (negb _); [apply keeps_updateTag|apply keeps_ret]. }
  destruct Kp as (C & N & B & l & L & Fl).
  split; [|split; [lia|split]].
  - rewrite C; unfold cards; rewrite R1; apply cards_touch.
  - intros Q; destruct (B1 Q) as [Q1 Q2]; destruct (B Q1); split; congruence.
  - eexists (_ :: l); split; [|split].
    + rewrite L, L1, <- app_assoc; reflexivity.
    + constructor; auto.
    + now left.
Qed.

Lemma ids_transfer r r' :
  map rel_id (releases r') = map rel_id (releases r) ->
  next_id r <= next_id r' ->
  (ids_nonneg r -> ids_nonneg r') /\ (fresh_ids r -> fresh_ids r').
Proof.
  intros I N; split; intros F.
  - apply ids_nonneg_iff in F as [F1 F2]; apply ids_nonneg_iff.
    rewrite I; split; [assumption|lia].
  - apply fresh_ids_iff in F as [F1 F2]; apply fresh_ids_iff.
    rewrite I; split; [assumption|].
    eapply Forall_impl; [|exact F2]; simpl; intros; lia.
Qed.

Lemma created_ids c b r r' :
  releases r' = created c b (next_id r) :: releases r ->
  next_id r' = next_id r + 1 ->
  (ids_nonneg r -> ids_nonneg r') /\ (fresh_ids r -> fresh_ids r').
Proof.
  intros L N; split; intros F.
  - destruct F as [F1 F2]; split; [|lia].
    rewrite L; constructor; [simpl; lia|assumption].
  - apply fresh_ids_iff in F as [F1 F2]; apply fresh_ids_iff.
    rewrite L, N; simpl; split.
    + constructor; [|assumption].
      intros Q; rewrite Forall_forall in F2; apply F2 in Q; lia.
    + constructor; [lia|].
      eapply Forall_impl; [|exact F2]; simpl; intros; lia.
Qed.

(** What a run that returns has done to the releases. *)
Lemma run_summary p c w w' :
  ids_nonneg (remote w) -> fresh_ids (remote w) ->
  run p c w = Done tt w' ->
  ids_nonneg (remote w') /\ fresh_ids (remote w')
  /\ length (releases_named (release c) (remote w'))
     = Nat.max 1 (length (releases_named (release c) (remote w)))
  /\ (exists r,
        find (named (release c)) (releases (remote w')) = Some r
        /\ rel_draft r = draft c /\ rel_prerelease r = prerelease c
        /\ (commit_fetch w = None -> rel_body r = body w))
  /\ (releases_named (release c) (remote w) <> [] ->
      exists l, log w' = (log w ++ l)%list
                /\ Forall (fun c => is_create_release c = false) l
                /\ exists id b, In (UpdateRelease id (release c) b (draft c)
                                                  (prerelease c)) l).
Proof.
  intros Hn Hf H; unfold run in H.
  apply bind_Done in H as (t & wa & Ha & H).
  apply bind_Done in H as (id & wb & Hb & Hc).
  pose proof (keeps_run_tag p c _ Ha) as Sa.
  apply run_release_Done in Hb as (r & F & E & Bb & Cases).
  pose proof (steady_ids_nonneg Sa Hn) as Hna.
  pose proof (steady_fresh_ids Sa Hf) as Hfa.
  pose proof (steady_named (release c) Sa) as La.
  assert (Wb : ids_nonneg (remote wb) /\ fresh_ids (remote wb)
               /\ length (releases_named (release c) (remote wb))
                  = Nat.max 1 (length (releases_named (release c) (remote w)))).
  { destruct Cases as [(Ne & R & _)|(Nil & b & L & N)].
    - rewrite R; split; [assumption|]. split; [assumption|].
      rewrite La in *.
      destruct (releases_named (release c) (remote wa)); [tauto|].
      rewrite <- La; simpl; lia.
    - destruct (@created_ids c b _ _ L N) as [I1 I2].
      split; [auto|]. split; [auto|].
      unfold releases_named in *; rewrite L; simpl.
      rewrite named_created, Nil; simpl.
      rewrite <- La, Nil; reflexivity. }
  destruct Wb as (Hnb & Hfb & Lb).
  assert (Hid : 0 <= id).
  { subst id; destruct Hnb as [Q _]; rewrite Forall_forall in Q.
    apply Q; now apply find_named_In in F. }
  eapply run_publish_Done in Hc as (C & N & B & l & L & Fl & Up);
    [|exact Hid].
  assert (Fc : find (named (release c)) (cards (remote wb)) = Some (card r)).
  { unfold cards; now rewrite find_named_card, F. }
  assert (Nc : NoDup (map rel_id (cards (remote wb)))).
  { rewrite cards_ids; apply Hfb. }
  destruct (@touch_first c (body wb) _ _ _ Nc Fc E) as (T1 & T2 & T3).
  rewrite <- C in T1, T2, T3.
  rewrite !cards_ids in T1.
  destruct (@ids_transfer _ _ T1 N) as [I1 I2].
  split; [auto|]. split; [auto|]. split; [|split].
  - unfold releases_named at 1.
    rewrite <- filter_named_card; fold (cards (remote w')); rewrite T2.
    unfold cards; rewrite filter_named_card; exact Lb.
  - unfold cards in T3; rewrite find_named_card in T3.
    destruct (find (named (release c)) (releases (remote w'))) as [r'|];
      [|discriminate].
    apply some_eq in T3; exists r'; split; [reflexivity|].
    change (rel_draft r') with (rel_draft (card r')).
    change (rel_prerelease r') with (rel_prerelease (card r')).
    change (rel_body r') with (rel_body (card r')).
    rewrite T3; simpl; split; [reflexivity|]. split; [reflexivity|].
    intros Q; destruct Sa as (_ & _ & Ba & _).
    destruct (Ba Q) as [Q1 Q2]; destruct (Bb Q1) as [_ Q3]; congruence.
  - intros Ne; destruct Cases as [(_ & _ & Sb)|(Nil & _)].
    + destruct (steady_trans Sa Sb) as (_ & _ & _ & l0 & L0 & Fl0).
      exists (l0 ++ l)%list; split; [|split].
      * now rewrite L, L0, app_assoc.
      * apply Forall_app; auto.
      * exists id, (body wb); apply in_or_app; now right.
    + rewrite Nil in La; simpl in La.
      destruct (releases_named (release c) (remote w)); [tauto|discriminate].
Qed.


(** ** Calls in a quiet world *)

Lemma settle_inr w w' :
  settle w = inr w' -> w' = w /\ commit_fetch w = Some (O, None).
Proof.
  unfold settle; destruct (commit_fetch w) as [[[|n] [m|]]|];
    intros H; inversion H; auto.
Qed.

Lemma next_fault_quiet w :
  quiet w ->
  fst (next_fault w) = false /\ forallb negb (snd (next_fault w)) = true.
Proof.
  intros [Q _]; unfold next_fault; destruct (faults w) as [|f fs]; simpl in *.
  - auto.
  - apply andb_true_iff in Q as [Q1 Q2]; destruct f; [discriminate|auto].
Qed.

Lemma request_quiet {A : Type} c (serve : Remote -> option (A * Remote)) w :
  quiet w ->
  request c serve w
  = match serve (remote w) with
    | Some (a, r') => Done a (after w c r')
    | None => Thrown (after w c (remote w))
    end.
Proof.
  intros Q; pose proof (next_fault_quiet Q) as [F _].
  unfold request, after; destruct (next_fault w) as [rej rest].
  simpl in F; subst rej; simpl.
  destruct (serve (remote w)) as [[a r']|];
    (destruct (settle _) as [w0|w0] eqn:S; [reflexivity|]);
    apply settle_inr in S as [_ S]; simpl in S; destruct Q as [_ Q];
    now apply Q in S.
Qed.

Lemma after_remote w c r' : remote (after w c r') = r'.
Proof.
  unfold after; destruct (settle _) as [w0|w0] eqn:S.
  - apply settle_inl in S as (S & _); exact S.
  - apply settle_inr in S as (-> & _); reflexivity.
Qed.

Lemma after_log w c r' : log (after w c r') = (log w ++ [c])%list.
Proof.
  unfold after; destruct (settle _) as [w0|w0] eqn:S.
  - apply settle_inl in S as (_ & S & _); exact S.
  - apply settle_inr in S as (-> & _); reflexivity.
Qed.

Lemma after_quiet w c r' : quiet w -> quiet (after w c r').
Proof.
  intros Q; pose proof (next_fault_quiet Q) as [_ F]; destruct Q as [_ Q].
  unfold after, settle; simpl.
  destruct (commit_fetch w) as [[[|n] [m|]]|] eqn:E; simpl;
    try (exfalso; eapply Q; reflexivity);
    split; simpl; try exact F; intros k; discriminate.
Qed.

#[local] Hint Resolve after_quiet : core.

(** ** The tag stage *)

Lemma tags_of_names r r' l :
  map tag_name (Platform.tags_of r l) = map tag_name (Platform.tags_of r' l).
Proof.
  induction l as [|[n t] l IH]; [reflexivity|].
  cbn [Platform.tags_of].
  destruct (strip_prefix "refs/tags/" n); [|exact IH].
  cbn [map tag_name]; now f_equal.
Qed.

Lemma tags_of_app r l1 l2 :
  Platform.tags_of r (l1 ++ l2)
  = (Platform.tags_of r l1 ++ Platform.tags_of r l2)%list.
Proof.
  induction l1 as [|[n t] l1 IH]; [reflexivity|].
  cbn [Platform.tags_of app].
  destruct (strip_prefix "refs/tags/" n); [|exact IH].
  cbn [app]; now f_equal.
Qed.

Lemma find_tag_none s l :
  find (fun t => String.eqb (tag_name t) s) l = None <->
  ~ In s (map tag_name l).
Proof.
  induction l as [|t l IH]; simpl; [tauto|].
  destruct (String.eqb_spec (tag_name t) s) as [E|E].
  - split; [discriminate|intros H; exfalso; auto].
  - rewrite IH; tauto.
Qed.

Lemma find_app_none {A : Type} (f : A -> bool) l1 l2 :
  find f l1 = None -> find f (l1 ++ l2) = find f l2.
Proof.
  induction l1 as [|x l1 IH]; simpl; [reflexivity|].
  destruct (f x); [discriminate|exact IH].
Qed.

Lemma tag_ref_absent r s l :
  ~ In s (map tag_name (Platform.tags_of r l)) ->
  Platform.assoc ("refs/tags/" ++ s) l = None.
Proof.
  induction l as [|[n t] l IH]; intros H; [reflexivity|].
  cbn [Platform.assoc Platform.tags_of] in *.
  destruct (String.eqb_spec n ("refs/tags/" ++ s)) as [E|E].
  - exfalso; subst n; rewrite strip_prefix_app in H; apply H; now left.
  - destruct (strip_prefix "refs/tags/" n); apply IH; simpl in H; tauto.
Qed.

Lemma getTag_quiet c w :
  quiet w ->
  getTag c w = Done (listed_tag c (remote w)) (after w ListTags (remote w)).
Proof.
  intros Q; unfold getTag, try_catch, bind, rest_listTags.
  rewrite (request_quiet _ _ Q); reflexivity.
Qed.

Lemma createTag_quiet p c w :
  quiet w ->
  Platform.assoc ("refs/tags/" ++ tag c) (refs (remote w)) = None ->
  let o := tag_object_of p c in
  let h := tag_object_sha o in
  let r1 := mkRemote (refs (remote w)) ((h, o) :: tag_objects (remote w))
                     (commits (remote w)) (releases (remote w))
                     (next_id (remote w)) in
  let r2 := mkRemote (refs (remote w) ++ [("refs/tags/" ++ tag c, h)])
                     ((h, o) :: tag_objects (remote w))
                     (commits (remote w)) (releases (remote w))
                     (next_id (remote w)) in
  createTag p c w
  = Done tt (after (after w (CreateTag o) r1)
                   (CreateRef ("refs/tags/" ++ tag c) h) r2).
Proof.
  intros Q Abs o h r1 r2.
  unfold createTag, try_catch, bind, createLightweightTag, rest_createTag,
    rest_createRef.
  rewrite (request_quiet _ _ Q); simpl.
  fold (tag_object_of p c); fold o; fold h; fold r1.
  rewrite request_quiet by auto.
  rewrite after_remote; unfold Platform.createRef; simpl in Abs |- *.
  now rewrite Abs.
Qed.

Lemma getTag_outcome c w :
  log (world_of (getTag c w)) = (log w ++ [ListTags])%list
  /\ remote (world_of (getTag c w)) = remote w
  /\ forall a w', getTag c w = Done a w' -> a = listed_tag c (remote w).
Proof.
  unfold getTag, try_catch, bind, rest_listTags, request, fail, ret.
  destruct (next_fault w) as [[|] rest]; simpl;
    destruct (settle _) as [w0|w0] eqn:S; simpl;
    try (apply settle_inl in S as (S1 & S2 & _));
    try (apply settle_inr in S as (-> & _)); simpl in *;
    repeat split; auto; try discriminate.
  intros a w' H; now inversion H.
Qed.

Lemma listed_after_createTag p c r :
  listed_tag c r = None ->
  let o := tag_object_of p c in
  let h := tag_object_sha o in
  listed_tag c (mkRemote (refs r ++ [("refs/tags/" ++ tag c, h)])
                         ((h, o) :: tag_objects r) (commits r) (releases r)
                         (next_id r))
  = Some (mkTag (tag c) (sha c)).
Proof.
  intros N o h; unfold listed_tag in *; cbn [refs].
  rewrite tags_of_app, find_app_none.
  - cbn [Platform.tags_of]; rewrite strip_prefix_app.
    unfold Platform.peel; cbn [tag_objects Platform.assoc].
    rewrite String.eqb_refl; cbn [find tag_name].
    now rewrite String.eqb_refl.
  - apply find_tag_none; apply find_tag_none in N.
    now rewrite (tags_of_names _ r).
Qed.

Lemma run_tag_found p c w t :
  quiet w -> listed_tag c (remote w) = Some t ->
  run_tag p c w = Done (Some t) (after w ListTags (remote w)).
Proof.
  intros Q L; unfold run_tag, bind; now rewrite (getTag_quiet c Q), L.
Qed.

Lemma run_tag_created p c w :
  quiet w -> listed_tag c (remote w) = None ->
  let o := tag_object_of p c in
  let h := tag_object_sha o in
  exists w',
    run_tag p c w = Done (Some (mkTag (tag c) (sha c))) w'
    /\ quiet w'
    /\ log w' = (log w ++ [ListTags; CreateTag o;
                           CreateRef ("refs/tags/" ++ tag c)%string h;
                           ListTags])%list
    /\ remote w'
       = mkRemote (refs (remote w) ++ [(("refs/tags/" ++ tag c)%string, h)])
                  ((h, o) :: tag_objects (remote w)) (commits (remote w))
                  (releases (remote w)) (next_id (remote w)).
Proof.
  intros Q L o h.
  assert (Abs : Platform.assoc ("refs/tags/" ++ tag c) (refs (remote w))
                = None).
  { eapply tag_ref_absent; apply find_tag_none; exact L. }
  unfold run_tag, bind.
  rewrite (getTag_quiet c Q), L.
  rewrite createTag_quiet by (auto; rewrite after_remote; exact Abs).
  rewrite getTag_quiet by auto.
  rewrite !after_remote.
  rewrite (listed_after_createTag p c _ L).
  eexists; split; [reflexivity|]. split; [auto|].
  rewrite !after_log, !after_remote, <- !app_assoc; simpl.
  split; reflexivity.
Qed.

(** C2.  When a tag of the resolved name is listed, the tag stage sends the
    listing and nothing else, leaves the remote as it is and returns that
    entry, whatever commit it names.  When none is listed, and no call
    fails, it sends one tag-object creation for the current commit and then
    one creation of [refs/tags/<tag>] carrying the SHA the first call
    returned, and lists the tags again. *)
Theorem tag_stage_creates_once p c w :
  (forall t, listed_tag c (remote w) = Some t ->
     (exists l, log (world_of (run_tag p c w)) = (log w ++ l)%list
                /\ l = [ListTags] /\ mutations l = [])
     /\ remote (world_of (run_tag p c w)) = remote w
     /\ (forall a w', run_tag p c w = Done a w' -> a = Some t)
     /\ (quiet w -> exists w', run_tag p c w = Done (Some t) w'))
  /\ (listed_tag c (remote w) = None -> quiet w ->
      let o := tag_object_of p c in
      let h := tag_object_sha o in
      exists w',
        run_tag p c w = Done (Some (mkTag (tag c) (sha c))) w'
        /\ log w' = (log w ++ [ListTags; CreateTag o;
                               CreateRef ("refs/tags/" ++ tag c)%string h;
                               ListTags])%list
        /\ to_object o = sha c
        /\ refs (remote w')
           = (refs (remote w) ++ [(("refs/tags/" ++ tag c)%string, h)])%list
        /\ tag_objects (remote w') = (h, o) :: tag_objects (remote w)
        /\ releases (remote w') = releases (remote w)).
Proof.
  split.
  - intros t L.
    destruct (getTag_outcome c w) as (G1 & G2 & G3).
    assert (E : run_tag p c w = getTag c w).
    { unfold run_tag, bind; destruct (getTag c w) as [a w1| |] eqn:G;
        try reflexivity.
      rewrite (G3 _ _ eq_refl), L; reflexivity. }
    rewrite E; split; [eauto|]. split; [assumption|]. split.
    + intros a w' H; rewrite (G3 _ _ H); exact L.
    + intros Q; rewrite <- E, (run_tag_found p c Q L); eauto.
  - intros L Q o h.
    destruct (run_tag_created p c Q L) as (w' & E & _ & Lg & R).
    exists w'; rewrite R; repeat split; assumption.
Qed.

(** ** Asset deletion *)

Lemma shouldDelete_marked c flag a : shouldDelete c flag a = marked c flag a.
Proof.
  unfold shouldDelete, marked; destruct flag; simpl; [reflexivity|].
  assert (G : forall l acc,
             fold_left
               (fun (acc : bool) (oneFile : string) =>
                  if String.eqb (asset_name a) (basename oneFile)
                  then true else acc) l acc
             = acc || existsb (fun f => String.eqb (asset_name a) (basename f)) l).
  { induction l as [|f l IH]; intros acc; simpl.
    - now rewrite orb_false_r.
    - rewrite IH; destruct (String.eqb _ _); simpl.
      + now rewrite orb_true_r.
      + reflexivity. }
  apply G.
Qed.

Lemma find_by_id l r :
  NoDup (map rel_id l) -> In r l ->
  find (fun x => rel_id x =? rel_id r) l = Some r.
Proof.
  induction l as [|x l IH]; simpl; intros N I; [tauto|].
  inversion N as [|? ? Nx Nl]; subst.
  destruct I as [->|I]; [now rewrite Z.eqb_refl|].
  destruct (Z.eqb_spec (rel_id x) (rel_id r)) as [E|E]; [|auto].
  exfalso; apply Nx; rewrite E; now apply in_map.
Qed.

Lemma getReleaseID_quiet c w r :
  quiet w ->
  find (named (release c)) (releases (remote w)) = Some r ->
  getReleaseID c w = Done (rel_id r) (after w ListReleases (remote w)).
Proof.
  intros Q F; unfold getReleaseID, bind, try_catch, rest_listReleases.
  rewrite (request_quiet _ _ Q); simpl.
  unfold ret; fold (named (release c)); now rewrite F.
Qed.

Lemma getReleaseAssets_quiet c w r :
  quiet w ->
  find (named (release c)) (releases (remote w)) = Some r ->
  0 <= rel_id r ->
  NoDup (map rel_id (releases (remote w))) ->
  getReleaseAssets c w
  = Done (Some (rel_assets r))
         (after (after w ListReleases (remote w))
                (ListReleaseAssets (rel_id r)) (remote w)).
Proof.
  intros Q F Id N; unfold getReleaseAssets, try_catch, bind.
  rewrite (getReleaseID_quiet c Q F).
  destruct (Z.ltb_spec (rel_id r) 0); [lia|].
  unfold rest_listReleaseAssets; rewrite request_quiet by auto.
  rewrite after_remote; unfold Platform.listReleaseAssets.
  rewrite (@find_by_id _ r N); [reflexivity|].
  now apply find_named_In in F.
Qed.

Lemma has_asset_without r aid bid :
  aid <> bid ->
  Platform.has_asset aid (without_asset r bid) = Platform.has_asset aid r.
Proof.
  intros Ne; unfold Platform.has_asset, without_asset; simpl.
  induction (releases r) as [|x l IH]; simpl; [reflexivity|].
  rewrite IH; f_equal.
  induction (rel_assets x) as [|a la IHa]; simpl; [reflexivity|].
  destruct (Z.eqb_spec (asset_id a) bid) as [E|E]; simpl.
  - rewrite IHa; destruct (Z.eqb_spec (asset_id a) aid); [lia|reflexivity].
  - now rewrite IHa.
Qed.

(** The loop in a quiet world: one deletion per marked asset, in listing
    order. *)
Lemma delete_loop_quiet c flag l :
  forall res w,
    quiet w ->
    NoDup (map asset_id l) ->
    (forall a, In a l -> Platform.has_asset (asset_id a) (remote w) = true) ->
    exists w',
      delete_loop c flag l res w
      = Done (res || existsb (marked c flag) l) w'
      /\ log w' = (log w ++ map deletion_of (filter (marked c flag) l))%list
      /\ remote w'
         = fold_left without_asset
                     (map asset_id (filter (marked c flag) l)) (remote w)
      /\ quiet w'.
Proof.
  induction l as [|a l IH]; intros res w Q N H; simpl.
  - exists w; rewrite orb_false_r, app_nil_r; auto.
  - inversion N as [|? ? Na Nl]; subst.
    rewrite shouldDelete_marked.
    destruct (marked c flag a) eqn:M.
    + unfold bind, rest_deleteReleaseAsset.
      rewrite (request_quiet _ _ Q).
      unfold Platform.deleteReleaseAsset.
      rewrite (H a (or_introl eq_refl)).
      fold (without_asset (remote w) (asset_id a)).
      destruct (IH true (after w (DeleteReleaseAsset (asset_id a))
                               (without_asset (remote w) (asset_id a))))
        as (w' & E & L & R & Q'); auto.
      { intros b Hb; rewrite after_remote, has_asset_without.
        - apply H; now right.
        - intros E; apply Na; rewrite <- E; now apply in_map. }
      exists w'; rewrite E, L, R, after_log, after_remote, orb_true_r.
      simpl; rewrite <- app_assoc; auto.
    + destruct (IH res w Q Nl) as (w' & E & L & R & Q').
      { intros b Hb; apply H; now right. }
      exists w'; rewrite E; auto.
Qed.

Lemma assets_of_without id r aid :
  assets_of id (without_asset r aid)
  = option_map (filter (fun a => negb (asset_id a =? aid))) (assets_of id r).
Proof.
  unfold assets_of, without_asset; simpl.
  induction (releases r) as [|x l IH]; simpl; [reflexivity|].
  destruct (rel_id x =? id); [reflexivity|exact IH].
Qed.

Lemma filter_twice (ids : list Z) aid (l : list Asset) :
  filter (fun a => negb (existsb (Z.eqb (asset_id a)) ids))
         (filter (fun a => negb (asset_id a =? aid)) l)
  = filter (fun a => negb (existsb (Z.eqb (asset_id a)) (aid :: ids))) l.
Proof.
  induction l as [|a l IH]; simpl; [reflexivity|].
  destruct (asset_id a =? aid); simpl; [exact IH|].
  destruct (existsb _ ids); simpl; now rewrite IH.
Qed.

Lemma assets_of_fold id ids :
  forall r,
    assets_of id (fold_left without_asset ids r)
    = option_map
        (filter (fun a => negb (existsb (Z.eqb (asset_id a)) ids)))
        (assets_of id r).
Proof.
  induction ids as [|aid ids IH]; intros r; simpl.
  - destruct (assets_of id r) as [l|]; simpl; [|reflexivity].
    f_equal; induction l as [|a l IHl]; simpl; [reflexivity|now f_equal].
  - rewrite IH, assets_of_without.
    destruct (assets_of id r) as [l|]; simpl; [|reflexivity].
    f_equal; apply filter_twice.
Qed.

Lemma asset_by_id (l : list Asset) a b :
  NoDup (map asset_id l) -> In a l -> In b l -> asset_id a = asset_id b ->
  a = b.
Proof.
  induction l as [|x l IH]; simpl; intros N Ia Ib E; [tauto|].
  inversion N as [|? ? Nx Nl]; subst.
  destruct Ia as [->|Ia], Ib as [->|Ib]; auto.
  - exfalso; apply Nx; rewrite E; now apply in_map.
  - exfalso; apply Nx; rewrite <- E; now apply in_map.
Qed.

Lemma deleted_iff_marked (f : Asset -> bool) (l : list Asset) a :
  NoDup (map asset_id l) -> In a l ->
  (In (deletion_of a) (map deletion_of (filter f l)) <-> f a = true).
Proof.
  intros N I; split.
  - intros H; apply in_map_iff in H as (b & E & Hb).
    apply filter_In in Hb as [Ib Fb].
    injection E as E.
    now rewrite <- (@asset_by_id _ _ _ N Ib I E).
  - intros H; apply in_map, filter_In; auto.
Qed.

Lemma kept_iff_unmarked (f : Asset -> bool) (l : list Asset) :
  NoDup (map asset_id l) ->
  filter (fun a => negb (existsb (Z.eqb (asset_id a))
                                 (map asset_id (filter f l)))) l
  = filter (fun a => negb (f a)) l.
Proof.
  intros N; apply filter_ext_in; intros a I; f_equal.
  destruct (f a) eqn:Fa.
  - apply existsb_exists; exists (asset_id a); split; [|apply Z.eqb_refl].
    apply in_map, filter_In; auto.
  - destruct (existsb _ _) eqn:X; [|reflexivity].
    apply existsb_exists in X as (i & Hi & E).
    apply Z.eqb_eq in E; subst i.
    apply in_map_iff in Hi as (b & E & Hb).
    apply filter_In in Hb as [Ib Fb].
    rewrite (@asset_by_id _ _ _ N Ib I E) in Fb; congruence.
Qed.

Lemma deleteAssets_quiet c flag w r :
  quiet w ->
  find (named (release c)) (releases (remote w)) = Some r ->
  0 <= rel_id r ->
  NoDup (map rel_id (releases (remote w))) ->
  NoDup (map asset_id (rel_assets r)) ->
  exists w',
    deleteAssetsIfTheyExist c flag w
    = Done (existsb (marked c flag) (rel_assets r)) w'
    /\ quiet w'
    /\ log w'
       = (log w ++ ListReleases :: ListReleaseAssets (rel_id r)
            :: map deletion_of (filter (marked c flag) (rel_assets r)))%list
    /\ remote w'
       = fold_left without_asset
                   (map asset_id (filter (marked c flag) (rel_assets r)))
                   (remote w).
Proof.
  intros Q F Id N Na.
  pose proof (find_named_In _ _ F) as [Ir _].
  unfold deleteAssetsIfTheyExist, try_catch, bind.
  rewrite (getReleaseAssets_quiet c Q F Id N).
  destruct (@delete_loop_quiet c flag (rel_assets r) false
              (after (after w ListReleases (remote w))
                     (ListReleaseAssets (rel_id r)) (remote w)))
    as (w' & E & L & R & Q'); auto.
  { intros a Ia; rewrite after_remote.
    unfold Platform.has_asset; apply existsb_exists; exists r; split; auto.
    apply existsb_exists; exists a; split; [auto|apply Z.eqb_refl]. }
  exists w'; rewrite E; split; [reflexivity|]. split; [assumption|]. split.
  - rewrite L, !after_log, <- !app_assoc; reflexivity.
  - now rewrite R, after_remote.
Qed.

Lemma kept_assets c flag w r :
  find (named (release c)) (releases (remote w)) = Some r ->
  NoDup (map rel_id (releases (remote w))) ->
  NoDup (map asset_id (rel_assets r)) ->
  assets_of (rel_id r)
            (fold_left without_asset
                       (map asset_id (filter (marked c flag) (rel_assets r)))
                       (remote w))
  = Some (filter (fun a => negb (marked c flag a)) (rel_assets r)).
Proof.
  intros F N Na; pose proof (find_named_In _ _ F) as [Ir _].
  rewrite assets_of_fold.
  unfold assets_of; rewrite (@find_by_id _ r N Ir); simpl.
  now rewrite kept_iff_unmarked.
Qed.

(** C3.  With no call failing, the assets deleted are the listed assets
    that are marked: every one of them when replace-all is set, otherwise
    those whose name is the basename of an incoming file.  One deletion is
    sent per marked asset, in listing order; the release keeps the unmarked
    assets and nothing else is deleted. *)
Theorem deletion_set c replaceAll w r :
  quiet w ->
  find (named (release c)) (releases (remote w)) = Some r ->
  0 <= rel_id r ->
  NoDup (map rel_id (releases (remote w))) ->
  NoDup (map asset_id (rel_assets r)) ->
  exists w',
    deleteAssetsIfTheyExist c replaceAll w
    = Done (existsb (marked c replaceAll) (rel_assets r)) w'
    /\ log w'
       = (log w ++ ListReleases :: ListReleaseAssets (rel_id r)
            :: map deletion_of (filter (marked c replaceAll) (rel_assets r)))%list
    /\ (forall a, In a (rel_assets r) ->
          (In (deletion_of a)
              (map deletion_of (filter (marked c replaceAll) (rel_assets r)))
           <-> replaceAll = true
               \/ exists f, In f (files c) /\ asset_name a = basename f))
    /\ assets_of (rel_id r) (remote w')
       = Some (filter (fun a => negb (marked c replaceAll a)) (rel_assets r)).
Proof.
  intros Q F Id N Na.
  destruct (deleteAssets_quiet c replaceAll Q F Id N Na)
    as (w' & E & _ & L & R).
  exists w'; split; [exact E|]. split; [exact L|]. split.
  - intros a Ia; rewrite (@deleted_iff_marked _ _ _ Na Ia).
    unfold marked; rewrite orb_true_iff, existsb_exists.
    split; (intros [H|(f & Hf & E')]; [now left|right; exists f; split; auto]).
    + now apply String.eqb_eq.
    + now apply String.eqb_eq.
  - rewrite R; now apply kept_assets.
Qed.

(** ** The calls a method can send *)

Lemma emits_ret {A : Type} P (a : A) : emits P (ret a).
Proof. intros w; exists []; simpl; now rewrite app_nil_r. Qed.

Lemma emits_fail {A : Type} P : emits P (@fail A).
Proof. intros w; exists []; simpl; now rewrite app_nil_r. Qed.

Lemma emits_throw {A : Type} P : emits P (@throw A).
Proof. intros w; exists []; simpl; now rewrite app_nil_r. Qed.

Lemma emits_bind {A B : Type} P (m : M A) (f : A -> M B) :
  emits P m -> (forall a, emits P (f a)) -> emits P (bind m f).
Proof.
  intros Hm Hf w; destruct (Hm w) as (l & L & Fl); unfold sends, bind.
  destruct (m w) as [a w1|w1|code w1]; simpl in L; eauto.
  destruct (Hf a w1) as (l' & L' & Fl').
  exists (l ++ l')%list; split; [|now apply Forall_app].
  now rewrite L', L, app_assoc.
Qed.

Lemma emits_try {A : Type} P (m h : M A) :
  emits P m -> emits P h -> emits P (try_catch m h).
Proof.
  intros Hm Hh w; destruct (Hm w) as (l & L & Fl); unfold sends, try_catch.
  destruct (m w) as [a w1|w1|code w1]; simpl in L; eauto.
  destruct (Hh w1) as (l' & L' & Fl').
  exists (l ++ l')%list; split; [|now apply Forall_app].
  now rewrite L', L, app_assoc.
Qed.

Lemma request_log {A : Type} c (serve : Remote -> option (A * Remote)) w :
  log (world_of (request c serve w)) = (log w ++ [c])%list.
Proof.
  unfold request; destruct (next_fault w) as [rej rest].
  destruct (settle _) as [w0|w0] eqn:S.
  - apply settle_inl in S as (_ & S & _).
    destruct (if rej then None else serve (remote w)) as [[a r']|]; exact S.
  - apply settle_inr in S as (-> & _); reflexivity.
Qed.

Lemma emits_request {A : Type} (P : Call -> Prop) c
      (serve : Remote -> option (A * Remote)) :
  P c -> emits P (request c serve).
Proof. intros Pc w; exists [c]; split; [apply request_log|auto]. Qed.

(** When the calls read a field of the world, as [createRelease] reads
    [body]. *)
Lemma emits_reading {A B : Type} P (field : World -> B) (m : B -> M A) :
  (forall b, emits P (m b)) -> emits P (fun w => m (field w) w).
Proof. intros H w; apply H. Qed.

Ltac emits_step :=
  first
    [ apply emits_ret | apply emits_fail | apply emits_throw
    | apply emits_try
    | apply emits_bind; [|intros ?]
    | apply emits_request; first [reflexivity | exact I | assumption]
    | match goal with
      | |- emits _ (match ?x with _ => _ end) => destruct x
      end ].

Section Emitted.
Variable P : Call -> Prop.
Hypothesis plain_calls :
  forall call,
    is_update_ref call = false -> is_create_release call = false -> P call.

Ltac emits_P :=
  repeat first [ emits_step | apply emits_request, plain_calls; reflexivity ].

Lemma emits_getTag c : emits P (getTag c).
Proof. unfold getTag, rest_listTags; emits_P. Qed.

Lemma emits_createTag p c : emits P (createTag p c).
Proof.
  unfold createTag, createLightweightTag, rest_createTag, rest_createRef.
  emits_P.
Qed.

Lemma emits_run_tag p c : emits P (run_tag p c).
Proof.
  unfold run_tag; apply emits_bind; [apply emits_getTag|intros [t|]].
  - apply emits_ret.
  - apply emits_bind; [apply emits_createTag|intros _; apply emits_getTag].
Qed.

Lemma emits_getReleaseID c : emits P (getReleaseID c).
Proof. unfold getReleaseID, rest_listReleases; emits_P. Qed.

Lemma emits_doesReleaseExist c : emits P (doesReleaseExist c).
Proof. unfold doesReleaseExist, getReleases, rest_listReleases; emits_P. Qed.

Lemma emits_createRelease c :
  (forall t n b d pr, P (CreateRelease t n b d pr)) ->
  emits P (createRelease c).
Proof.
  intros Create; unfold createRelease; apply emits_try; [|apply emits_fail].
  apply (@emits_reading unit string P body
           (fun b => rest_createRelease (tag c) (release c) b (draft c)
                                        (prerelease c))).
  intros b; apply emits_request, Create.
Qed.

Lemma emits_updateRelease c id : emits P (updateRelease c id).
Proof.
  unfold updateRelease; apply emits_try; [|apply emits_fail].
  apply (@emits_reading unit string P body
           (fun b => rest_updateRelease id (release c) b (draft c)
                                        (prerelease c))).
  intros b; unfold rest_updateRelease; emits_P.
Qed.

Lemma emits_run_release c :
  (forall t n b d pr, P (CreateRelease t n b d pr)) ->
  emits P (run_release c).
Proof.
  intros Create; unfold run_release.
  apply emits_bind; [apply emits_doesReleaseExist|intros b].
  apply emits_bind; [|intros _; apply emits_getReleaseID].
  destruct (negb b); [now apply emits_createRelease|apply emits_ret].
Qed.

Lemma emits_delete_loop c flag l res : emits P (delete_loop c flag l res).
Proof.
  revert res; induction l as [|a l IH]; intros res; simpl.
  - apply emits_ret.
  - destruct (shouldDelete c flag a); [|apply IH].
    apply emits_bind; [|intros _; apply IH].
    unfold rest_deleteReleaseAsset; emits_P.
Qed.

Lemma emits_deleteAssetsIfTheyExist c flag :
  emits P (deleteAssetsIfTheyExist c flag).
Proof.
  unfold deleteAssetsIfTheyExist, getReleaseAssets, rest_listReleaseAssets.
  apply emits_try; [|apply emits_fail].
  apply emits_bind.
  - apply emits_try; [|apply emits_fail].
    apply emits_bind; [apply emits_getReleaseID|intros id].
    destruct (id <? 0); emits_P.
  - intros [l|]; [apply emits_delete_loop|apply emits_throw].
Qed.

Lemma emits_upload_loop c id l : emits P (upload_loop c id l).
Proof.
  induction l as [|f l IH]; simpl.
  - apply emits_ret.
  - apply emits_bind; [emits_P|intros n].
    apply emits_bind;
      [unfold getReleaseUploadURL, getRepos, rest_listReleases; emits_P|].
    intros url; apply emits_bind; [emits_P|intros d].
    apply emits_bind; [|intros _; apply IH].
    unfold rest_uploadReleaseAsset; emits_P.
Qed.

Lemma emits_uploadAssets c id : emits P (uploadAssets c id).
Proof. apply emits_try; [apply emits_upload_loop|apply emits_fail]. Qed.

Lemma emits_updateTag p c :
  (forall n t, P (UpdateRef n t)) -> emits P (updateTag p c).
Proof.
  intros Update; unfold updateTag, rest_updateRef.
  apply emits_try; [|apply emits_fail].
  apply emits_request, Update.
Qed.

Lemma emits_run_publish p c id :
  (forall n t, P (UpdateRef n t)) -> emits P (run_publish p c id).
Proof.
  intros Update; unfold run_publish.
  destruct (0 <=? id); [|apply emits_ret].
  apply emits_bind; [apply emits_updateRelease|intros _].
  apply emits_bind; [apply emits_deleteAssetsIfTheyExist|intros _].
  apply emits_bind; [apply emits_uploadAssets|intros _].
  destruct (negb _); [now apply emits_updateTag|apply emits_ret].
Qed.

End Emitted.

(** ** Release convergence *)

Lemma sends_bind {A B : Type} P (m : M A) (f : A -> M B) w :
  sends P m w ->
  (forall a w1, m w = Done a w1 -> sends P (f a) w1) ->
  sends P (bind m f) w.
Proof.
  intros (l & L & Fl) Hf; unfold sends, bind.
  destruct (m w) as [a w1|w1|code w1]; simpl in L; eauto.
  destruct (Hf a w1 eq_refl) as (l' & L' & Fl').
  exists (l ++ l')%list; split; [|now apply Forall_app].
  now rewrite L', L, app_assoc.
Qed.

(** In front of a release of the name, no run asks for another one,
    whatever its outcome. *)
Lemma run_creates_no_second_release p c w :
  releases_named (release c) (remote w) <> [] ->
  sends (fun call => is_create_release call = false) (run p c) w.
Proof.
  intros Ne.
  assert (B : forall call, is_update_ref call = false ->
                           is_create_release call = false ->
                           is_create_release call = false) by auto.
  unfold run; apply sends_bind; [now apply emits_run_tag|].
  intros t wa Ha; pose proof (keeps_run_tag p c _ Ha) as Sa.
  apply sends_bind.
  - unfold run_release; apply sends_bind; [now apply emits_doesReleaseExist|].
    intros b wd Hd; apply doesReleaseExist_Done in Hd as (_ & _ & ->).
    assert (X : existsb (named (release c)) (releases (remote wa)) = true).
    { destruct (existsb _ _) eqn:X; [reflexivity|].
      apply existsb_filter_nil in X.
      pose proof (steady_named (release c) Sa) as La.
      unfold releases_named in La, Ne; rewrite X in La; simpl in La.
      destruct (filter _ _); [tauto|discriminate]. }
    rewrite X; simpl; apply emits_bind; [apply emits_ret|intros _].
    now apply emits_getReleaseID.
  - intros id wb _; now apply emits_run_publish.
Qed.

Lemma emits_Done {A : Type} P (m : M A) w a w' :
  m w = Done a w' -> emits P m ->
  exists l, log w' = (log w ++ l)%list /\ Forall P l.
Proof. intros E H; destruct (H w) as (l & L & Fl); rewrite E in L; eauto. Qed.

Lemma assoc_set_same {A : Type} k (v : A) l :
  Platform.assoc k l <> None ->
  Platform.assoc k (Platform.assoc_set k v l) = Some v.
Proof.
  induction l as [|[k' v'] l IH]; simpl; [tauto|].
  destruct (String.eqb k' k) eqn:E; simpl; rewrite E; auto.
Qed.

(** ** Identifiers reaching the guard of [run] *)

Lemma release_id_nonneg p c w id w' :
  ids_nonneg (remote w) ->
  (run_tag p c ;; run_release c) w = Done id w' ->
  0 <= id /\ ids_nonneg (remote w').
Proof.
  intros Hn H.
  apply bind_Done in H as (t & wa & Ha & Hb).
  pose proof (keeps_run_tag p c _ Ha) as Sa.
  pose proof (steady_ids_nonneg Sa Hn) as Hna.
  apply run_release_Done in Hb as (r & F & E & _ & Cases).
  assert (Hnb : ids_nonneg (remote w')).
  { destruct Cases as [(_ & R & _)|(_ & b & L & N)].
    - now rewrite R.
    - now apply (@created_ids c b _ _ L N). }
  split; [|assumption].
  subst id; destruct Hnb as [Q _]; rewrite Forall_forall in Q.
  apply Q; now apply find_named_In in F.
Qed.

(** ** The tag repoint *)

Lemma updateTag_Done p c w a w' :
  updateTag p c w = Done a w' ->
  log w' = (log w ++ [UpdateRef ("tags/" ++ tag c) (GITHUB_SHA p)])%list
  /\ Platform.assoc ("refs/tags/" ++ tag c) (refs (remote w'))
     = Some (GITHUB_SHA p).
Proof.
  intros H; destruct a; unfold updateTag, rest_updateRef in H.
  apply try_fail_Done, request_Done in H as (r' & S & R & L & _).
  split; [exact L|].
  unfold Platform.updateRef in S.
  change ("refs/" ++ ("tags/" ++ tag c)) with ("refs/tags/" ++ tag c) in S.
  destruct (Platform.assoc ("refs/tags/" ++ tag c) (refs (remote w))) eqn:E;
    [|discriminate].
  injection S as S; rewrite R, <- S; cbn [refs].
  apply (@assoc_set_same _ ("refs/tags/" ++ tag c)).
  rewrite E; discriminate.
Qed.

Lemma updateTag_quiet p c w old :
  quiet w ->
  Platform.assoc ("refs/tags/" ++ tag c) (refs (remote w)) = Some old ->
  exists w',
    updateTag p c w = Done tt w' /\ quiet w'
    /\ log w' = (log w ++ [UpdateRef ("tags/" ++ tag c) (GITHUB_SHA p)])%list
    /\ Platform.assoc ("refs/tags/" ++ tag c) (refs (remote w'))
       = Some (GITHUB_SHA p).
Proof.
  intros Q E.
  assert (D : exists w', updateTag p c w = Done tt w' /\ quiet w').
  { unfold updateTag, try_catch, rest_updateRef.
    rewrite (request_quiet _ _ Q); unfold Platform.updateRef.
    change ("refs/" ++ ("tags/" ++ tag c)) with ("refs/tags/" ++ tag c).
    rewrite E; eauto. }
  destruct D as (w' & D & Q'); exists w'; split; [exact D|].
  split; [exact Q'|]. now apply updateTag_Done in D.
Qed.

(** ** [getReleaseID] *)



(** ** Failing deletions *)





(** ** Missing files *)



(** ** A run that nothing disturbs *)

Lemma existsb_find_some {A : Type} (f : A -> bool) l :
  existsb f l = true -> exists x, find f l = Some x.
Proof.
  induction l as [|x l IH]; simpl; [discriminate|].
  destruct (f x); simpl; eauto.
Qed.

Lemma listed_ref_present r s l :
  In s (map tag_name (Platform.tags_of r l)) ->
  Platform.assoc ("refs/tags/" ++ s) l <> None.
Proof.
  induction l as [|[n t] l IH]; intros H; [destruct H|].
  cbn [Platform.assoc Platform.tags_of] in *.
  destruct (String.eqb_spec n ("refs/tags/" ++ s)) as [E|E]; [discriminate|].
  destruct (strip_prefix "refs/tags/" n) as [short|] eqn:S; [|now apply IH].
  destruct H as [H|H]; [|now apply IH].
  apply strip_prefix_Some in S; simpl in H; subst; tauto.
Qed.

Lemma assoc_app_last {A : Type} k (v : A) l :
  Platform.assoc k (l ++ [(k, v)]) <> None.
Proof.
  induction l as [|[k' v'] l IH]; simpl.
  - rewrite String.eqb_refl; discriminate.
  - destruct (String.eqb k' k); [discriminate|exact IH].
Qed.

Lemma run_tag_returns p c w :
  quiet w ->
  exists t wa,
    run_tag p c w = Done t wa /\ quiet wa
    /\ releases (remote wa) = releases (remote w)
    /\ next_id (remote wa) = next_id (remote w)
    /\ Platform.assoc ("refs/tags/" ++ tag c) (refs (remote wa)) <> None.
Proof.
  intros Q; destruct (listed_tag c (remote w)) as [t|] eqn:L.
  - exists (Some t), (after w ListTags (remote w)).
    rewrite (run_tag_found p c Q L), after_remote.
    split; [reflexivity|]. split; [auto|]. split; [reflexivity|].
    split; [reflexivity|].
    apply (listed_ref_present (remote w)).
    unfold listed_tag in L; apply find_some in L as [I E].
    apply String.eqb_eq in E; rewrite <- E; now apply in_map.
  - destruct (run_tag_created p c Q L) as (w' & E & Q' & _ & R).
    exists (Some (mkTag (tag c) (sha c))), w'; rewrite R; cbn [refs releases next_id].
    split; [exact E|]. split; [exact Q'|]. split; [reflexivity|].
    split; [reflexivity|apply assoc_app_last].
Qed.

Lemma doesReleaseExist_quiet c w :
  quiet w ->
  doesReleaseExist c w
  = Done (existsb (named (release c)) (releases (remote w)))
         (after w ListReleases (remote w)).
Proof.
  intros Q; unfold doesReleaseExist, getReleases, try_catch, bind,
              rest_listReleases.
  rewrite (request_quiet _ _ Q); simpl; unfold ret.
  now rewrite existsb_names.
Qed.

Lemma createRelease_quiet c w :
  quiet w ->
  createRelease c w
  = Done tt
      (after w (CreateRelease (tag c) (release c) (body w) (draft c)
                              (prerelease c))
             (mkRemote (refs (remote w)) (tag_objects (remote w))
                       (commits (remote w))
                       (created c (body w) (next_id (remote w))
                          :: releases (remote w))
                       (next_id (remote w) + 1))).
Proof.
  intros Q; unfold createRelease, try_catch, rest_createRelease.
  now rewrite (request_quiet _ _ Q).
Qed.

Lemma run_release_returns c w :
  quiet w ->
  exists id wb r,
    run_release c w = Done id wb /\ quiet wb
    /\ find (named (release c)) (releases (remote wb)) = Some r
    /\ rel_id r = id
    /\ refs (remote wb) = refs (remote w)
    /\ (remote wb = remote w
        \/ (rel_assets r = []
            /\ exists b,
                releases (remote wb)
                = created c b (next_id (remote w)) :: releases (remote w)
                /\ next_id (remote wb) = next_id (remote w) + 1)).
Proof.
  intros Q; unfold run_release, bind.
  rewrite (doesReleaseExist_quiet c Q).
  destruct (existsb (named (release c)) (releases (remote w))) eqn:X; simpl.
  - apply existsb_find_some in X as (r & F).
    unfold ret; rewrite (@getReleaseID_quiet c _ r);
      [|auto|now rewrite after_remote].
    exists (rel_id r), (after (after w ListReleases (remote w)) ListReleases
                              (remote (after w ListReleases (remote w)))), r.
    rewrite !after_remote; split; [reflexivity|]. split; [auto|]. auto.
  - rewrite createRelease_quiet by auto.
    rewrite after_remote.
    set (new := created c (body (after w ListReleases (remote w)))
                        (next_id (remote w))).
    set (w1 := after (after w ListReleases (remote w)) _ _).
    assert (R1 : remote w1
                 = mkRemote (refs (remote w)) (tag_objects (remote w))
                            (commits (remote w)) (new :: releases (remote w))
                            (next_id (remote w) + 1))
      by (unfold w1; now rewrite after_remote).
    assert (Q1 : quiet w1) by (unfold w1; auto).
    assert (F' : find (named (release c)) (new :: releases (remote w))
                 = Some new).
    { cbn [find]; unfold new; now rewrite named_created. }
    assert (F : find (named (release c)) (releases (remote w1)) = Some new)
      by (now rewrite R1).
    rewrite (getReleaseID_quiet c Q1 F).
    exists (rel_id new), (after w1 ListReleases (remote w1)), new.
    rewrite !after_remote, R1; cbn [refs releases next_id].
    split; [reflexivity|]. split; [auto|]. split; [exact F'|].
    split; [reflexivity|]. split; [reflexivity|].
    right; split; [reflexivity|]. eexists; split; reflexivity.
Qed.

Lemma updateRelease_quiet c id w :
  quiet w ->
  Platform.has_release id (remote w) = true ->
  updateRelease c id w
  = Done tt
      (after w (UpdateRelease id (release c) (body w) (draft c) (prerelease c))
             (Platform.edit_release id (updated c (body w)) (remote w))).
Proof.
  intros Q H; unfold updateRelease, try_catch, rest_updateRelease.
  rewrite (request_quiet _ _ Q); unfold Platform.updateRelease.
  now rewrite H.
Qed.

Lemma getReleaseUploadURL_quiet c w r :
  quiet w ->
  find (named (release c)) (releases (remote w)) = Some r ->
  getReleaseUploadURL c w
  = Done (rel_upload_url r) (after w ListReleases (remote w)).
Proof.
  intros Q F; unfold getReleaseUploadURL, getRepos, bind, try_catch,
                rest_listReleases.
  rewrite (request_quiet _ _ Q); simpl.
  fold (named (release c)); now rewrite F.
Qed.

Lemma find_map_same {A : Type} (f : A -> bool) (g : A -> A) l :
  (forall x, f (g x) = f x) ->
  find f (map g l) = option_map g (find f l).
Proof.
  intros H; induction l as [|x l IH]; simpl; [reflexivity|].
  rewrite H; destruct (f x); [reflexivity|exact IH].
Qed.

Lemma with_assets_same x : Platform.with_assets x (rel_assets x) = x.
Proof. destruct x; reflexivity. Qed.

Lemma filter_none_in {A : Type} (g : A -> Z) (l : list A) :
  filter (fun a => negb (existsb (Z.eqb (g a)) [])) l = l.
Proof. induction l as [|a l IH]; simpl; [reflexivity|now f_equal]. Qed.

(** A release found by a test that does not look at assets is still found
    once assets have been deleted. *)
Lemma found_fold_without (f : Release -> bool) ids :
  (forall y l, f (Platform.with_assets y l) = f y) ->
  forall r x,
    find f (releases r) = Some x ->
    find f (releases (fold_left without_asset ids r))
    = Some (Platform.with_assets x
              (filter (fun a => negb (existsb (Z.eqb (asset_id a)) ids))
                      (rel_assets x))).
Proof.
  intros Hf; induction ids as [|a ids IH]; intros r x F; cbn [fold_left].
  - now rewrite (filter_none_in asset_id), with_assets_same.
  - rewrite (IH (without_asset r a)
                (Platform.with_assets x
                   (filter (fun b => negb (asset_id b =? a)) (rel_assets x)))).
    + cbn [Platform.with_assets rel_assets]; now rewrite filter_twice.
    + unfold without_asset; cbn [releases].
      rewrite find_map_same, F; [reflexivity|intros y; apply Hf].
Qed.

Lemma without_asset_fold_next ids :
  forall r, next_id (fold_left without_asset ids r) = next_id r.
Proof. induction ids as [|a ids IH]; intros r; simpl; [|rewrite IH]; auto. Qed.

(** The uploads go through when the names are free, and the release holds
    the new assets after the ones it had. *)
Lemma upload_loop_quiet c id l :
  forall w x,
    quiet w ->
    Forall (fun f => statSync_size f <> None /\ readFileSync f <> None) l ->
    NoDup (map basename l) ->
    find (named (release c)) (releases (remote w)) = Some x ->
    find (fun y => rel_id y =? id) (releases (remote w)) = Some x ->
    (forall f, In f l -> ~ In (basename f) (map asset_name (rel_assets x))) ->
    exists w',
      upload_loop c id l w = Done tt w' /\ quiet w'
      /\ refs (remote w') = refs (remote w)
      /\ next_id (remote w') = next_id (remote w) + Z.of_nat (length l)
      /\ find (named (release c)) (releases (remote w'))
         = Some (Platform.with_assets x
                   (rel_assets x ++ uploaded (next_id (remote w)) l)).
Proof.
  induction l as [|f l IH]; intros w x Q Ok Nd Fn Fi Free.
  - exists w; cbn [upload_loop uploaded length]; unfold ret.
    rewrite app_nil_r, with_assets_same, Z.add_0_r; auto.
  - inversion Ok as [|? ? [Hs Hr] Ok']; subst.
    inversion Nd as [|? ? Nf Nl]; subst.
    cbn [upload_loop]; unfold bind at 1.
    destruct (statSync_size f) as [n|]; [|tauto].
    cbn [ret]; unfold bind at 1.
    rewrite (getReleaseUploadURL_quiet c Q Fn).
    unfold bind at 1; destruct (readFileSync f) as [d|]; [|tauto].
    cbn [ret]; unfold bind at 1, rest_uploadReleaseAsset.
    rewrite request_quiet by auto.
    rewrite after_remote; unfold Platform.uploadReleaseAsset; rewrite Fi.
    assert (Fr : existsb (fun a => String.eqb (asset_name a) (basename f))
                         (rel_assets x) = false).
    { destruct (existsb _ _) eqn:X; [|reflexivity].
      apply existsb_exists in X as (a & Ia & E).
      apply String.eqb_eq in E.
      exfalso; apply (Free f (or_introl eq_refl)).
      rewrite <- E; now apply in_map. }
    rewrite Fr; cbn [Platform.edit_release refs tag_objects commits releases
                     next_id].
    assert (Gx : (rel_id x =? id) = true) by (now apply find_some in Fi).
    set (new := mkAsset (next_id (remote w)) (basename f)).
    set (g := fun y : Release =>
                if rel_id y =? id
                then Platform.with_assets y (rel_assets y ++ [new]) else y).
    set (x1 := Platform.with_assets x (rel_assets x ++ [new])).
    assert (G1 : g x = x1) by (unfold g; now rewrite Gx).
    match goal with
    | |- context [after ?v ?call ?r'] =>
        match call with
        | UploadReleaseAsset _ _ _ _ _ _ =>
            destruct (IH (after v call r') x1)
              as (w' & E & Q' & R' & N' & F'); auto
        end
    end.
    + rewrite after_remote; cbn [releases]; fold g.
      rewrite find_map_same, Fn; [simpl; now rewrite G1|].
      intros y; unfold g; destruct (rel_id y =? id); reflexivity.
    + rewrite after_remote; cbn [releases]; fold g.
      rewrite find_map_same, Fi; [simpl; now rewrite G1|].
      intros y; unfold g; destruct (rel_id y =? id) eqn:Y; simpl; exact Y.
    + intros h Ih; unfold x1; cbn [Platform.with_assets rel_assets].
      rewrite map_app, in_app_iff; simpl.
      intros [H|[H|[]]].
      * apply (Free h (or_intror Ih) H).
      * apply Nf; rewrite H; now apply in_map.
    + exists w'; rewrite E, R', N', F', !after_remote.
      cbn [refs next_id length uploaded Platform.with_assets rel_assets x1].
      unfold x1; cbn [Platform.with_assets rel_assets].
      rewrite <- app_assoc.
      split; [reflexivity|]. split; [exact Q'|]. split; [reflexivity|].
      split; [rewrite Nat2Z.inj_succ; lia|reflexivity].
Qed.

Lemma updateTag_releases p c w a w' :
  updateTag p c w = Done a w' ->
  releases (remote w') = releases (remote w)
  /\ next_id (remote w') = next_id (remote w).
Proof.
  intros H; destruct a; unfold updateTag, rest_updateRef in H.
  apply try_fail_Done, request_Done in H as (r' & S & R & _).
  unfold Platform.updateRef in S.
  destruct (Platform.assoc _ _); [|discriminate].
  injection S as S; rewrite R, <- S; auto.
Qed.

Lemma uploaded_ids n l :
  NoDup (map asset_id (uploaded n l))
  /\ Forall (fun a => n <= asset_id a < n + Z.of_nat (length l)) (uploaded n l).
Proof.
  revert n; induction l as [|f l IH]; intros n; cbn [uploaded length map].
  - split; constructor.
  - destruct (IH (n + 1)) as [N F]; rewrite Nat2Z.inj_succ; split.
    + constructor; [|exact N].
      intros H; apply in_map_iff in H as (a & E & Ia).
      rewrite Forall_forall in F; apply F in Ia; simpl in E; lia.
    + constructor; [simpl; lia|].
      eapply Forall_impl; [|exact F]; simpl; intros; lia.
Qed.

Lemma filter_ids_NoDup (f : Asset -> bool) l :
  NoDup (map asset_id l) -> NoDup (map asset_id (filter f l)).
Proof.
  induction l as [|a l IH]; simpl; intros N; [constructor|].
  inversion N as [|? ? Na Nl]; subst.
  destruct (f a); simpl; [|auto].
  constructor; [|auto].
  intros H; apply Na; apply in_map_iff in H as (b & E & Ib).
  apply filter_In in Ib as [Ib _]; rewrite <- E; now apply in_map.
Qed.

(** Kept assets and new ones have distinct identifiers, all handed out. *)
Lemma assets_after_run (f : Asset -> bool) la n l :
  NoDup (map asset_id la) ->
  Forall (fun a => asset_id a < n) la ->
  NoDup (map asset_id (filter f la ++ uploaded n l))
  /\ Forall (fun a => asset_id a < n + Z.of_nat (length l))
            (filter f la ++ uploaded n l).
Proof.
  intros N B; destruct (uploaded_ids n l) as [Nu Bu].
  rewrite Forall_forall in B, Bu; split.
  - rewrite map_app; apply NoDup_app; [now apply filter_ids_NoDup|exact Nu|].
    intros i Ik Iu.
    apply in_map_iff in Ik as (a & <- & Ia); apply filter_In in Ia as [Ia _].
    apply in_map_iff in Iu as (b & E & Ib).
    apply B in Ia; apply Bu in Ib; lia.
  - apply Forall_app; split; apply Forall_forall; intros a Ia.
    + apply filter_In in Ia as [Ia _]; apply B in Ia; lia.
    + apply Bu in Ia; lia.
Qed.

Lemma without_asset_fold_refs ids :
  forall r, refs (fold_left without_asset ids r) = refs r.
Proof. induction ids as [|a ids IH]; intros r; simpl; [|rewrite IH]; auto. Qed.

Lemma unmarked_names_free c flag la f :
  In f (files c) ->
  ~ In (basename f)
       (map asset_name (filter (fun a => negb (marked c flag a)) la)).
Proof.
  intros If H; apply in_map_iff in H as (a & E & Ia).
  apply filter_In in Ia as [_ Ma].
  apply negb_true_iff, orb_false_iff in Ma as [_ Ma].
  assert (X : existsb (fun g => String.eqb (asset_name a) (basename g))
                      (files c) = true).
  { apply existsb_exists; exists f; split; [exact If|].
    rewrite E; apply String.eqb_refl. }
  congruence.
Qed.

Lemma run_publish_returns p c w r :
  quiet w ->
  find (named (release c)) (releases (remote w)) = Some r ->
  0 <= rel_id r ->
  NoDup (map rel_id (releases (remote w))) ->
  NoDup (map asset_id (rel_assets r)) ->
  Forall (fun f => statSync_size f <> None /\ readFileSync f <> None)
         (files c) ->
  NoDup (map basename (files c)) ->
  Platform.assoc ("refs/tags/" ++ tag c) (refs (remote w)) <> None ->
  exists w' x,
    run_publish p c (rel_id r) w = Done tt w' /\ quiet w'
    /\ find (named (release c)) (releases (remote w')) = Some x
    /\ rel_assets x
       = (filter (fun a => negb (marked c (isTruthyString
                                            (getInput p "replace")) a))
                 (rel_assets r)
            ++ uploaded (next_id (remote w)) (files c))%list
    /\ next_id (remote w') = next_id (remote w) + Z.of_nat (length (files c)).
Proof.
  intros Q F Id N Na Ok Nd Ref.
  pose proof (find_named_In _ _ F) as [Ir _].
  unfold run_publish; destruct (Z.leb_spec 0 (rel_id r)); [|lia].
  unfold bind at 1.
  rewrite updateRelease_quiet; auto.
  2:{ unfold Platform.has_release; apply existsb_exists; exists r.
      split; [exact Ir|apply Z.eqb_refl]. }
  set (w1 := after w _ _).
  set (flag := isTruthyString (getInput p "replace")).
  set (r1 := updated c (body w) r).
  set (ids := map asset_id (filter (marked c flag) (rel_assets r))).
  assert (Q1 : quiet w1) by (unfold w1; auto).
  assert (R1 : releases (remote w1)
               = map (touch c (body w) (rel_id r)) (releases (remote w)))
    by (unfold w1; rewrite after_remote; reflexivity).
  assert (Rf1 : refs (remote w1) = refs (remote w))
    by (unfold w1; rewrite after_remote; reflexivity).
  assert (Nx1 : next_id (remote w1) = next_id (remote w))
    by (unfold w1; rewrite after_remote; reflexivity).
  destruct (@touch_first c (body w) _ _ _ N F eq_refl) as (T1 & _ & T3).
  rewrite <- R1 in T1, T3; fold r1 in T3.
  assert (N1 : NoDup (map rel_id (releases (remote w1)))) by now rewrite T1.
  assert (I1 : find (fun y => rel_id y =? rel_id r) (releases (remote w1))
               = Some r1).
  { apply (@find_by_id _ r1 N1); now apply find_named_In in T3. }
  unfold bind at 1.
  destruct (@deleteAssets_quiet c flag w1 r1 Q1 T3 Id N1 Na)
    as (w2 & E2 & Q2 & _ & R2).
  rewrite E2; cbn [rel_assets r1 updated] in R2; fold ids in R2.
  set (kept := filter (fun a => negb (marked c flag a)) (rel_assets r)).
  assert (Kp : filter (fun a => negb (existsb (Z.eqb (asset_id a)) ids))
                      (rel_assets r1) = kept)
    by (apply (@kept_iff_unmarked (marked c flag) _ Na)).
  assert (F2 : find (named (release c)) (releases (remote w2))
               = Some (Platform.with_assets r1 kept)).
  { rewrite R2, (found_fold_without (named (release c)) ids) with (x := r1);
      [now rewrite Kp|reflexivity|exact T3]. }
  assert (I2 : find (fun y => rel_id y =? rel_id r) (releases (remote w2))
               = Some (Platform.with_assets r1 kept)).
  { rewrite R2, (found_fold_without (fun y => rel_id y =? rel_id r) ids)
      with (x := r1); [now rewrite Kp|reflexivity|exact I1]. }
  destruct (@upload_loop_quiet c (rel_id r) (files c) w2 _ Q2 Ok Nd F2 I2)
    as (w3 & E3 & Q3 & Rf3 & Nx3 & F3).
  { intros f If; now apply unmarked_names_free. }
  assert (Rf2 : refs (remote w2) = refs (remote w))
    by (rewrite R2, without_asset_fold_refs; exact Rf1).
  assert (Nx2 : next_id (remote w2) = next_id (remote w))
    by (rewrite R2, without_asset_fold_next; exact Nx1).
  rewrite Nx2 in Nx3, F3.
  unfold bind at 1, uploadAssets, try_catch; rewrite E3.
  destruct (negb (isFalsyString (getInput p "updateTag"))).
  - destruct (Platform.assoc ("refs/tags/" ++ tag c) (refs (remote w3)))
      as [old|] eqn:R3; [|rewrite Rf3, Rf2 in R3; tauto].
    destruct (updateTag_quiet p c Q3 R3) as (w4 & E4 & Q4 & _).
    destruct (updateTag_releases _ _ _ E4) as [L4 Nx4].
    unfold bind; rewrite E4.
    exists w4; eexists; rewrite L4, Nx4, F3.
    split; [reflexivity|]. split; [exact Q4|]. split; [reflexivity|].
    split; [reflexivity|exact Nx3].
  - unfold bind, ret.
    exists w3; eexists; rewrite F3.
    split; [reflexivity|]. split; [exact Q3|]. split; [reflexivity|].
    split; [reflexivity|exact Nx3].
Qed.

(** In a quiet world, in front of a ready remote, the run returns, and
    leaves a quiet world and a ready remote. *)
Lemma run_returns p c w :
  quiet w -> ready c (remote w) ->
  exists w', run p c w = Done tt w' /\ quiet w' /\ ready c (remote w').
Proof.
  intros Q (Hn & Hf & Ha & Ok & Nd).
  destruct (run_tag_returns p c Q) as (t & wa & Ea & Qa & Ra & Nxa & Ref).
  destruct (run_release_returns c Qa)
    as (id & wb & r & Eb & Qb & F & <- & Rf & Cases).
  assert (Ia : map rel_id (releases (remote wa))
               = map rel_id (releases (remote w))) by now rewrite Ra.
  destruct (@ids_transfer (remote w) (remote wa) Ia) as [Hna Hfa]; [lia|].
  assert (W : ids_nonneg (remote wb) /\ fresh_ids (remote wb)
              /\ NoDup (map asset_id (rel_assets r))
              /\ Forall (fun a => asset_id a < next_id (remote wb))
                        (rel_assets r)).
  { destruct Cases as [R|(Nil & b & L & Nx)].
    - rewrite R in *; split; [auto|]. split; [auto|].
      rewrite Nxa; apply Ha; now rewrite <- Ra.
    - destruct (@created_ids c b _ _ L Nx) as [I1 I2].
      split; [auto|]. split; [auto|]. rewrite Nil; split; constructor. }
  destruct W as (Hnb & Hfb & Nab & Bab).
  destruct (@run_publish_returns p c wb r Qb F) as (w' & x & Ec & Q' & Fx & Ax & Nx);
    auto.
  { destruct Hnb as [Q0 _]; rewrite Forall_forall in Q0.
    apply Q0; now apply find_named_In in F. }
  { apply Hfb. }
  { now rewrite Rf. }
  assert (E : run p c w = Done tt w').
  { unfold run, bind; rewrite Ea, Eb; exact Ec. }
  exists w'; split; [exact E|]. split; [exact Q'|].
  destruct (@run_summary p c w w' Hn Hf E) as (Hn' & Hf' & _).
  split; [exact Hn'|]. split; [exact Hf'|]. split; [|split; assumption].
  intros y Fy; rewrite Fx in Fy; apply some_eq in Fy; subst y.
  rewrite Ax, Nx; now apply assets_after_run.
Qed.

(** C6.  The ref update is sent only when the update-tag option is on,
    that is when its input is neither [false] nor [no]: with the option off
    no run sends it, whatever happens; with the option on every run that
    returns has sent it last, for [tags/<tag>] and the current commit, and
    the ref then names that commit whatever it named before; and the run
    does return when nothing fails in front of a ready remote. *)
Theorem tag_repoint_gate p c :
  (isFalsyString (getInput p "updateTag") = true ->
   emits (fun call => is_update_ref call = false) (run p c))
  /\ (isFalsyString (getInput p "updateTag") = false ->
      forall w w',
        ids_nonneg (remote w) -> run p c w = Done tt w' ->
        (exists l, log w'
                   = (log w ++ l
                        ++ [UpdateRef ("tags/" ++ tag c)%string (GITHUB_SHA p)])%list)
        /\ Platform.assoc ("refs/tags/" ++ tag c) (refs (remote w'))
           = Some (GITHUB_SHA p))
  /\ (forall w old,
        quiet w ->
        Platform.assoc ("refs/tags/" ++ tag c) (refs (remote w)) = Some old ->
        exists w',
          updateTag p c w = Done tt w'
          /\ Platform.assoc ("refs/tags/" ++ tag c) (refs (remote w'))
             = Some (GITHUB_SHA p))
  /\ (forall w, quiet w -> ready c (remote w) ->
                exists w', run p c w = Done tt w').
Proof.
  split; [|split; [|split]].
  - intros Off; unfold run.
    assert (B : forall call, is_update_ref call = false ->
                             is_create_release call = false ->
                             is_update_ref call = false) by auto.
    apply emits_bind; [now apply emits_run_tag|intros _].
    apply emits_bind; [now apply emits_run_release|intros id].
    unfold run_publish; rewrite Off; simpl.
    destruct (0 <=? id); [|apply emits_ret].
    apply emits_bind; [now apply emits_updateRelease|intros _].
    apply emits_bind; [now apply emits_deleteAssetsIfTheyExist|intros _].
    apply emits_bind; [now apply emits_uploadAssets|intros _].
    apply emits_ret.
  - intros On w w' Hn H; unfold run in H.
    assert (T : forall call : Call, is_update_ref call = false ->
                                    is_create_release call = false -> True)
      by auto.
    assert (G : exists id wb,
               (run_tag p c ;; run_release c) w = Done id wb
               /\ run_publish p c id wb = Done tt w').
    { apply bind_Done in H as (t & wa & Ha & H).
      apply bind_Done in H as (id & wb & Hb & Hc).
      exists id, wb; split; [|exact Hc].
      unfold bind; now rewrite Ha. }
    destruct G as (id & wb & Hb & Hc).
    destruct (@release_id_nonneg p c _ _ _ Hn Hb) as [Hid _].
    eapply (emits_Done (P := fun _ => True)) in Hb as (l0 & L0 & _).
    2:{ apply emits_bind; [now apply emits_run_tag|intros _].
        now apply emits_run_release. }
    unfold run_publish in Hc; rewrite On in Hc; simpl in Hc.
    destruct (Z.leb_spec 0 id); [|lia].
    apply bind_Done in Hc as (u1 & w1 & H1 & Hc).
    apply bind_Done in Hc as (u2 & w2 & H2 & Hc).
    apply bind_Done in Hc as (u3 & w3 & H3 & Hc).
    eapply (emits_Done (P := fun _ => True)) in H1 as (l1 & L1 & _);
      [|now apply emits_updateRelease].
    eapply (emits_Done (P := fun _ => True)) in H2 as (l2 & L2 & _);
      [|now apply emits_deleteAssetsIfTheyExist].
    eapply (emits_Done (P := fun _ => True)) in H3 as (l3 & L3 & _);
      [|now apply emits_uploadAssets].
    apply updateTag_Done in Hc as [L4 R4].
    split; [|exact R4].
    exists (l0 ++ l1 ++ l2 ++ l3)%list.
    rewrite L4, L3, L2, L1, L0, <- !app_assoc; reflexivity.
  - intros w old Q E.
    destruct (updateTag_quiet p c Q E) as (w' & D & _ & _ & R); eauto.
  - intros w Q Rd; destruct (run_returns p Q Rd) as (w' & E & _); eauto.
Qed.

(** C1.  Two runs in a row with the same inputs, the second in front of the
    remote the first one left.  Whatever its outcome, the second run sends
    no release creation: its existence check, an exact comparison of names,
    finds a release of the name.  When it returns it has sent an update,
    the name has exactly one release where it had none before the first run
    (and as many as before otherwise), and the first release of the name
    carries the draft and prerelease flags of the run and the body the
    second run holds.  And both runs do return when nothing fails and the
    first one starts in front of a ready remote. *)
Theorem release_convergence p c w1 :
  (forall w1' w2,
      ids_nonneg (remote w1) -> fresh_ids (remote w1) ->
      run p c w1 = Done tt w1' ->
      remote w2 = remote w1' ->
      sends (fun call => is_create_release call = false) (run p c) w2
      /\ forall w2',
          run p c w2 = Done tt w2' ->
          (exists l, log w2' = (log w2 ++ l)%list
                     /\ exists id b, In (UpdateRelease id (release c) b (draft c)
                                                       (prerelease c)) l)
          /\ length (releases_named (release c) (remote w2'))
             = Nat.max 1 (length (releases_named (release c) (remote w1)))
          /\ (releases_named (release c) (remote w1) = [] ->
              length (releases_named (release c) (remote w2')) = 1%nat)
          /\ exists r,
              find (named (release c)) (releases (remote w2')) = Some r
              /\ rel_draft r = draft c /\ rel_prerelease r = prerelease c
              /\ (commit_fetch w2 = None -> rel_body r = body w2))
  /\ (quiet w1 -> ready c (remote w1) ->
      exists w1',
        run p c w1 = Done tt w1'
        /\ forall w2, remote w2 = remote w1' -> quiet w2 ->
                      exists w2', run p c w2 = Done tt w2').
Proof.
  split.
  - intros w1' w2 Hn Hf R1 Same.
    destruct (@run_summary p c w1 w1' Hn Hf R1) as (Hn1 & Hf1 & L1 & _ & _).
    rewrite <- Same in Hn1, Hf1, L1.
    assert (Ne : releases_named (release c) (remote w2) <> []).
    { intros Q; rewrite Q in L1; cbn [length] in L1; lia. }
    split; [now apply run_creates_no_second_release|].
    intros w2' R2.
    destruct (@run_summary p c w2 w2' Hn1 Hf1 R2) as (_ & _ & L2 & Found & Log).
    rewrite L1 in L2.
    split; [|split; [lia|split; [|exact Found]]].
    + destruct (Log Ne) as (l & L & _ & U); eauto.
    + intros Q; rewrite Q in L2; simpl in L2; lia.
  - intros Q1 Rd1.
    destruct (run_returns p Q1 Rd1) as (w1' & E1 & _ & Rd1').
    exists w1'; split; [exact E1|].
    intros w2 Same Q2; rewrite <- Same in Rd1'.
    destruct (run_returns p Q2 Rd1') as (w2' & E2 & _); eauto.
Qed.

End Reconciliation.

(* ------------------------------------------------------------------ *)
(** ** The constructor: tokens, paths and names                         *)
(* ------------------------------------------------------------------ *)

Lemma append_empty (s : string) : s ++ "" = s.
Proof. induction s as [|a s IH]; simpl; [reflexivity | now rewrite IH]. Qed.

Lemma append_snoc (cur : string) a s :
  (cur ++ String a "") ++ s = cur ++ String a s.
Proof. induction cur as [|b cur IH]; simpl; [reflexivity | now rewrite IH]. Qed.

Lemma free_of_delims_app s t :
  free_of_delims (s ++ t) = free_of_delims s && free_of_delims t.
Proof.
  induction s as [|a s IH]; simpl; [reflexivity|].
  now rewrite IH, andb_assoc.
Qed.

Lemma split_from_free s :
  forall cur sep,
    free_of_delims cur = true ->
    Forall (fun t => free_of_delims t = true) (split_from s cur sep).
Proof.
  induction s as [|a s IH]; intros cur sep Hc; simpl.
  - constructor; [exact Hc | constructor].
  - destruct (is_delim a) eqn:Da.
    + destruct sep.
      * apply IH, Hc.
      * constructor; [exact Hc | apply IH; reflexivity].
    + apply IH. rewrite free_of_delims_app, Hc. simpl. now rewrite Da.
Qed.

Lemma split_from_whole s :
  forall cur, free_of_delims s = true -> split_from s cur false = [cur ++ s].
Proof.
  induction s as [|a s IH]; intros cur H; simpl in *.
  - now rewrite append_empty.
  - apply andb_true_iff in H. destruct H as [Ha Hs].
    apply negb_true_iff in Ha. rewrite Ha, IH by exact Hs.
    now rewrite append_snoc.
Qed.

Lemma split_from_shape s :
  forall cur sep,
    exists h t,
      split_from s cur sep = h :: t
      /\ (cur <> "" -> h <> "")
      /\ (sep = true -> h = "" -> t = [])
      /\ all_but_last_nonempty t.
Proof.
  induction s as [|a s IH]; intros cur sep; simpl.
  - exists cur, []. split; [reflexivity|]. split; [tauto|]. split; [reflexivity|].
    exact I.
  - destruct (is_delim a).
    + destruct sep.
      * apply IH.
      * destruct (IH "" true) as [h [t [E [_ [Hh Ht]]]]].
        exists cur, (h :: t). rewrite E. split; [reflexivity|].
        split; [tauto|]. split; [discriminate|].
        simpl. destruct t as [|x t]; [exact I|].
        split; [|exact Ht].
        intros Eh. specialize (Hh eq_refl Eh). discriminate.
    + destruct (IH (cur ++ String a "") false) as [h [t [E [Hc [_ Ht]]]]].
      assert (Hne : h <> "") by (apply Hc; destruct cur; discriminate).
      exists h, t. split; [exact E|]. split; [tauto|]. split; [|exact Ht].
      intros _ Eh. contradiction.
Qed.

(** X1.  The pieces [setFiles] reads from the [files] input hold no
    separator character; whatever the input, there is at least one piece,
    and only the first and the last piece can be empty (a run of separators
    counts once); an input without separators is one piece, itself. *)
Theorem split_delims_tokens (s : string) :
  Forall (fun t => free_of_delims t = true) (split_delims s)
  /\ (exists h t, split_delims s = h :: t /\ all_but_last_nonempty t)
  /\ (free_of_delims s = true -> split_delims s = [s]).
Proof.
  split; [apply split_from_free; reflexivity|]. split.
  - destruct (split_from_shape s "" false) as [h [t [E [_ [_ Ht]]]]].
    exists h, t. split; [exact E | exact Ht].
  - intros H. unfold split_delims. now rewrite split_from_whole.
Qed.

Section Constructor.
Context {K : Collaborators}.

Lemma push_files_located p l :
  forall acc w,
    push_files p l acc w
    = match locate_all p l with
      | Some ts => Done (acc ++ map backslash_to_slash ts)%list w
      | None => Exited 2 w
      end.
Proof.
  induction l as [|f l IH]; intros acc w.
  - simpl. unfold ret. now rewrite app_nil_r.
  - cbn [push_files locate_all]. unfold bind, located.
    destruct (existsSync f) eqn:Ef, (isAbsolute f) eqn:Af; cbn [negb orb andb].
    + unfold ret. rewrite Ef. cbn [negb]. rewrite IH.
      destruct (locate_all p l); [|reflexivity].
      cbn [map]. now rewrite <- app_assoc.
    + destruct (existsSync (resolve (GITHUB_WORKSPACE p) f)) eqn:Er;
        cbn [negb]; unfold ret, fail; [|reflexivity].
      rewrite Er. cbn [negb]. rewrite IH.
      destruct (locate_all p l); [|reflexivity].
      cbn [map]. now rewrite <- app_assoc.
    + destruct (existsSync (resolve (GITHUB_WORKSPACE p) f)) eqn:Er;
        cbn [negb]; unfold ret, fail; [|reflexivity].
      rewrite Er. cbn [negb]. rewrite IH.
      destruct (locate_all p l); [|reflexivity].
      cbn [map]. now rewrite <- app_assoc.
    + destruct (existsSync (resolve (GITHUB_WORKSPACE p) f)) eqn:Er;
        cbn [negb]; unfold ret, fail; [|reflexivity].
      rewrite Er. cbn [negb]. rewrite IH.
      destruct (locate_all p l); [|reflexivity].
      cbn [map]. now rewrite <- app_assoc.
Qed.

Lemma setFiles_outcome p c w :
  setFiles p c w
  = if String.eqb (getInput p "files") "" then Thrown w
    else match locate_all p (split_delims (getInput p "files")) with
         | Some ts =>
             Done (with_files c (files c ++ map backslash_to_slash ts)%list) w
         | None => Exited 2 w
         end.
Proof.
  unfold setFiles, required_input, bind.
  destruct (String.eqb (getInput p "files") ""); [reflexivity|].
  unfold ret. rewrite push_files_located.
  now destruct (locate_all p (split_delims (getInput p "files"))).
Qed.

(** X2.  [setFiles] keeps all the files or none: with an empty [files]
    input it throws; when some token is neither an existing absolute path
    nor the name of an existing file under the workspace it ends the process
    with status 2; otherwise it appends, in input order, each token's path
    (the token as given when it is absolute and exists, else resolved against
    the workspace) with backslashes turned into slashes.  In no case does it
    touch the world. *)
Theorem setFiles_all_or_nothing p c w :
  setFiles p c w
  = if String.eqb (getInput p "files") "" then Thrown w
    else match locate_all p (split_delims (getInput p "files")) with
         | Some ts =>
             Done (with_files c (files c ++ map backslash_to_slash ts)%list) w
         | None => Exited 2 w
         end.
Proof.
  unfold setFiles, required_input, bind.
  destruct (String.eqb (getInput p "files") ""); [reflexivity|].
  unfold ret. rewrite push_files_located.
  now destruct (locate_all p (split_delims (getInput p "files"))).
Qed.

Lemma backslash_to_slash_clean s :
  has_char "092" (backslash_to_slash s) = false.
Proof.
  induction s as [|a s IH]; simpl; [reflexivity|].
  rewrite IH, orb_false_r.
  destruct (Ascii.eqb a "092") eqn:E; [reflexivity | exact E].
Qed.

Lemma slash_to_dash_clean s : has_char "/" (slash_to_dash s) = false.
Proof.
  induction s as [|a s IH]; simpl; [reflexivity|].
  rewrite IH, orb_false_r.
  destruct (Ascii.eqb a "/") eqn:E; [reflexivity | exact E].
Qed.

Lemma setMessage_files p c : files (setMessage p c) = files c.
Proof. unfold setMessage. now destruct (String.eqb (getInput p "message") ""). Qed.

Lemma setBody_Done p c w : setBody p c w = Done tt (world_of (setBody p c w)).
Proof.
  unfold setBody. destruct (negb (String.eqb (getInput p "body") ""));
    [reflexivity|].
  now destruct (next_fault w).
Qed.

Lemma early_files p :
  files (setPrerelease p (setDraft p (setRelease p (from_runner p)))) = [].
Proof.
  unfold setPrerelease, setDraft, setRelease.
  cbn [files with_prerelease with_draft release with_release].
  destruct (String.eqb (getInput p "release") "");
    cbn [files with_tag tag with_release];
    now destruct (String.eqb (getInput p "tag") "").
Qed.

Lemma constructor_outcome p w :
  constructor p w
  = if String.eqb (getInput p "token") "" then Thrown w
    else if String.eqb (getInput p "files") "" then Thrown w
    else match locate_all p (split_delims (getInput p "files")) with
         | Some ts =>
             Done (configured p ts) (world_of (setBody p (configured p ts) w))
         | None => Exited 2 w
         end.
Proof.
  unfold constructor, required_input.
  unfold bind at 1.
  destruct (String.eqb (getInput p "token") ""); [reflexivity|].
  unfold ret at 1. unfold bind at 1. rewrite setFiles_outcome.
  destruct (String.eqb (getInput p "files") ""); [reflexivity|].
  destruct (locate_all p (split_delims (getInput p "files"))) as [ts|];
    [|reflexivity].
  unfold bind. rewrite setBody_Done. unfold ret, configured.
  now rewrite early_files.
Qed.

(** X3.  No path the constructor stores in [files] holds a backslash. *)
Theorem stored_paths_have_no_backslash p w c w' :
  constructor p w = Done c w' ->
  Forall (fun f => has_char "092" f = false) (files c).
Proof.
  rewrite constructor_outcome.
  destruct (String.eqb (getInput p "token") ""); [discriminate|].
  destruct (String.eqb (getInput p "files") ""); [discriminate|].
  destruct (locate_all p (split_delims (getInput p "files"))) as [ts|];
    [|discriminate].
  intros H. injection H as Hc _. subst c.
  unfold configured. rewrite setMessage_files. cbn [files with_files].
  apply Forall_forall. intros f Hf. apply in_map_iff in Hf.
  destruct Hf as [t [Et _]]. subst f. apply backslash_to_slash_clean.
Qed.

End Constructor.

(** X4.  A release name derived from the ref holds no slash, and so does
    the tag name that defaults to it. *)
Theorem derived_name_has_no_slash p c :
  getInput p "release" = "" ->
  has_char "/" (release (setRelease p c)) = false
  /\ (getInput p "tag" = "" -> has_char "/" (tag (setRelease p c)) = false).
Proof.
  intros Hr.
  assert (R : release (setRelease p c)
              = slash_to_dash
                  (replace_first "tags/"
                     (replace_first "heads/" (replace_first "refs/" (ref c))))).
  { unfold setRelease. cbn [release with_release]. rewrite Hr.
    cbn [String.eqb]. cbn [ref with_release with_tag tag release].
    now destruct (String.eqb (getInput p "tag") ""). }
  split.
  - rewrite R. apply slash_to_dash_clean.
  - intros Ht. rewrite (setRelease_tag_default p c Ht), R.
    apply slash_to_dash_clean.
Qed.

(** X5.  Naming is idempotent: [setRelease] applied to its own result
    changes nothing. *)
Theorem setRelease_idempotent p c :
  setRelease p (setRelease p c) = setRelease p c.
Proof.
  unfold setRelease. cbn [release with_release ref tag with_tag].
  destruct (String.eqb (getInput p "release") "") eqn:Er;
    cbn [release with_release ref tag with_tag];
    destruct (String.eqb (getInput p "tag") "") eqn:Et;
    cbn [release with_release ref tag with_tag sha message draft prerelease
         files];
    reflexivity.
Qed.

(* ------------------------------------------------------------------ *)
(** ** How a method can end                                             *)
(* ------------------------------------------------------------------ *)












Section Outcomes.
Context {K : Collaborators}.






























End Outcomes.

(* ------------------------------------------------------------------ *)
(** ** What a run leaves alone                                          *)
(* ------------------------------------------------------------------ *)

Lemma request_remote {A : Type} c (serve : Remote -> option (A * Remote)) w :
  remote (world_of (request c serve w))
  = match (if fst (next_fault w) then None else serve (remote w)) with
    | Some (_, r') => r'
    | None => remote w
    end.
Proof.
  unfold request; destruct (next_fault w) as [rej rest]; cbn [fst].
  destruct (settle _) as [w0|w0] eqn:S.
  - apply settle_inl in S as (S1 & _).
    destruct (if rej then None else serve (remote w)) as [[a r']|];
      exact S1.
  - apply settle_inr in S as (-> & _).
    now destruct (if rej then None else serve (remote w)) as [[a r']|].
Qed.

Lemma request_on_remote {A : Type} (G : Remote -> Remote -> Prop) c
      (serve : Remote -> option (A * Remote)) :
  (forall r, G r r) -> respects G serve ->
  always (on_remote G) (request c serve).
Proof.
  intros R S w; unfold on_remote; rewrite request_remote.
  destruct (fst (next_fault w)); [apply R|].
  destruct (serve (remote w)) as [[a r']|] eqn:E; [exact (S _ _ _ E)|apply R].
Qed.


Section Always.
Context {K : Collaborators}.
Variable T : World -> World -> Prop.
Hypothesis T_refl : forall w, T w w.
Hypothesis T_trans : forall w1 w2 w3, T w1 w2 -> T w2 w3 -> T w1 w3.

Lemma always_ret {A : Type} (a : A) : always T (ret a).
Proof. intros w; apply T_refl. Qed.

Lemma always_fail {A : Type} : always T (@fail A).
Proof. intros w; apply T_refl. Qed.

Lemma always_throw {A : Type} : always T (@throw A).
Proof. intros w; apply T_refl. Qed.

Lemma always_bind {A B : Type} (m : M A) (f : A -> M B) :
  always T m -> (forall a, always T (f a)) -> always T (bind m f).
Proof.
  intros Hm Hf w; specialize (Hm w); unfold bind.
  destruct (m w) as [a w1|w1|code w1]; cbn [world_of] in *;
    [|exact Hm|exact Hm].
  eapply T_trans; [exact Hm|apply Hf].
Qed.

Lemma always_try {A : Type} (m h : M A) :
  always T m -> always T h -> always T (try_catch m h).
Proof.
  intros Hm Hh w; specialize (Hm w); unfold try_catch.
  destruct (m w) as [a w1|w1|code w1]; cbn [world_of] in *;
    [exact Hm| |exact Hm].
  eapply T_trans; [exact Hm|apply Hh].
Qed.

Lemma always_reading {A B : Type} (field : World -> B) (m : B -> M A) :
  (forall b, always T (m b)) -> always T (fun w => m (field w) w).
Proof. intros H w; apply H. Qed.

Variable p : Process.
Variable c : Connection.

Hypothesis T_listTags : always T rest_listTags.
Hypothesis T_createTag : forall o, always T (rest_createTag o).
Hypothesis T_createRef :
  forall h, always T (rest_createRef ("refs/tags/" ++ tag c) h).
Hypothesis T_updateRef :
  forall h, always T (rest_updateRef ("tags/" ++ tag c) h).
Hypothesis T_listReleases : always T rest_listReleases.
Hypothesis T_createRelease :
  forall t n b d pr, always T (rest_createRelease t n b d pr).
Hypothesis T_updateRelease :
  forall id n b d pr, always T (rest_updateRelease id n b d pr).
Hypothesis T_listReleaseAssets :
  forall id, always T (rest_listReleaseAssets id).
Hypothesis T_deleteReleaseAsset :
  forall aid, always T (rest_deleteReleaseAsset aid).
Hypothesis T_uploadReleaseAsset :
  forall id url n ct len d,
    always T (rest_uploadReleaseAsset id url n ct len d).

Ltac always_step :=
  first
    [ apply always_ret | apply always_fail | apply always_throw
    | apply always_try
    | apply always_bind; [|intros ?]
    | apply T_listTags | apply T_createTag | apply T_createRef
    | apply T_updateRef | apply T_listReleases | apply T_createRelease
    | apply T_updateRelease | apply T_listReleaseAssets
    | apply T_deleteReleaseAsset | apply T_uploadReleaseAsset
    | match goal with
      | |- always _ (match ?x with _ => _ end) => destruct x
      end ].

Lemma always_getTag : always T (getTag c).
Proof. unfold getTag; repeat always_step. Qed.

Lemma always_createTag : always T (createTag p c).
Proof. unfold createTag, createLightweightTag; repeat always_step. Qed.

Lemma always_run_tag : always T (run_tag p c).
Proof.
  unfold run_tag. apply always_bind; [apply always_getTag|intros [t|]].
  - apply always_ret.
  - apply always_bind; [apply always_createTag|intros _; apply always_getTag].
Qed.

Lemma always_getReleaseID : always T (getReleaseID c).
Proof. unfold getReleaseID; repeat always_step. Qed.

Lemma always_doesReleaseExist : always T (doesReleaseExist c).
Proof. unfold doesReleaseExist, getReleases; repeat always_step. Qed.

Lemma always_createRelease : always T (createRelease c).
Proof.
  unfold createRelease. apply always_try; [|apply always_fail].
  apply (@always_reading unit string body
           (fun b => rest_createRelease (tag c) (release c) b (draft c)
                                        (prerelease c))).
  intros b; apply T_createRelease.
Qed.

Lemma always_updateRelease id : always T (updateRelease c id).
Proof.
  unfold updateRelease. apply always_try; [|apply always_fail].
  apply (@always_reading unit string body
           (fun b => rest_updateRelease id (release c) b (draft c)
                                        (prerelease c))).
  intros b; apply T_updateRelease.
Qed.

Lemma always_run_release : always T (run_release c).
Proof.
  unfold run_release.
  apply always_bind; [apply always_doesReleaseExist|intros b].
  apply always_bind; [|intros _; apply always_getReleaseID].
  destruct (negb b); [apply always_createRelease|apply always_ret].
Qed.

Lemma always_getReleaseAssets : always T (getReleaseAssets c).
Proof.
  unfold getReleaseAssets.
  apply always_try; [|apply always_fail].
  apply always_bind; [apply always_getReleaseID|intros id].
  repeat always_step.
Qed.

Lemma always_delete_loop flag l res : always T (delete_loop c flag l res).
Proof.
  revert res; induction l as [|a l IH]; intros res; simpl.
  - apply always_ret.
  - destruct (shouldDelete c flag a); [|apply IH].
    apply always_bind; [apply T_deleteReleaseAsset|intros _; apply IH].
Qed.

Lemma always_deleteAssetsIfTheyExist flag :
  always T (deleteAssetsIfTheyExist c flag).
Proof.
  unfold deleteAssetsIfTheyExist.
  apply always_try; [|apply always_fail].
  apply always_bind; [apply always_getReleaseAssets|].
  intros [l|]; [apply always_delete_loop|apply always_throw].
Qed.

Lemma always_getReleaseUploadURL : always T (getReleaseUploadURL c).
Proof. unfold getReleaseUploadURL, getRepos; repeat always_step. Qed.

Lemma always_upload_loop id l : always T (upload_loop c id l).
Proof.
  induction l as [|f l IH]; simpl.
  - apply always_ret.
  - apply always_bind; [repeat always_step|intros n].
    apply always_bind; [apply always_getReleaseUploadURL|intros url].
    apply always_bind; [repeat always_step|intros d].
    apply always_bind; [apply T_uploadReleaseAsset|intros _; apply IH].
Qed.

Lemma always_uploadAssets id : always T (uploadAssets c id).
Proof.
  unfold uploadAssets.
  apply always_try; [apply always_upload_loop|apply always_fail].
Qed.

Lemma always_updateTag : always T (updateTag p c).
Proof. unfold updateTag; repeat always_step. Qed.

Lemma always_run_publish id : always T (run_publish p c id).
Proof.
  unfold run_publish. destruct (0 <=? id); [|apply always_ret].
  apply always_bind; [apply always_updateRelease|intros _].
  apply always_bind; [apply always_deleteAssetsIfTheyExist|intros _].
  apply always_bind; [apply always_uploadAssets|intros _].
  destruct (negb _); [apply always_updateTag|apply always_ret].
Qed.

Lemma always_run : always T (run p c).
Proof.
  unfold run. apply always_bind; [apply always_run_tag|intros _].
  apply always_bind; [apply always_run_release|intros id].
  apply always_run_publish.
Qed.

End Always.

Lemma assoc_app_other {A : Type} k k0 (v : A) l :
  k <> k0 -> Platform.assoc k (l ++ [(k0, v)]) = Platform.assoc k l.
Proof.
  intros N; induction l as [|[k' v'] l IH]; simpl.
  - apply String.eqb_neq in N. rewrite String.eqb_sym in N. now rewrite N.
  - now rewrite IH.
Qed.

Lemma assoc_set_other {A : Type} k k0 (v : A) l :
  k <> k0 ->
  Platform.assoc k (Platform.assoc_set k0 v l) = Platform.assoc k l.
Proof.
  intros N; induction l as [|[k' v'] l IH]; simpl; [reflexivity|].
  destruct (String.eqb k' k0) eqn:E0; simpl.
  - destruct (String.eqb k' k) eqn:E; [|reflexivity].
    apply String.eqb_eq in E0, E. congruence.
  - now rewrite IH.
Qed.

Lemma on_remote_refl (G : Remote -> Remote -> Prop) :
  (forall r, G r r) -> forall w, on_remote G w w.
Proof. intros R w; apply R. Qed.

Lemma on_remote_trans (G : Remote -> Remote -> Prop) :
  (forall r1 r2 r3, G r1 r2 -> G r2 r3 -> G r1 r3) ->
  forall w1 w2 w3, on_remote G w1 w2 -> on_remote G w2 w3 -> on_remote G w1 w3.
Proof. intros Tr w1 w2 w3; apply Tr. Qed.

Lemma unchanged_refl r : unchanged r r.
Proof. reflexivity. Qed.

Lemma unchanged_trans r1 r2 r3 :
  unchanged r1 r2 -> unchanged r2 r3 -> unchanged r1 r3.
Proof. unfold unchanged; congruence. Qed.

Lemma only_tag_ref_moves_refl c r : only_tag_ref_moves c r r.
Proof. split; [intros k _|]; reflexivity. Qed.

Lemma only_tag_ref_moves_trans c r1 r2 r3 :
  only_tag_ref_moves c r1 r2 -> only_tag_ref_moves c r2 r3 ->
  only_tag_ref_moves c r1 r3.
Proof.
  intros [A1 B1] [A2 B2]; split; [|congruence].
  intros k Hk; now rewrite (A2 k Hk), (A1 k Hk).
Qed.

Lemma same_refs c r r' :
  refs r' = refs r -> commits r' = commits r -> only_tag_ref_moves c r r'.
Proof. intros E1 E2; split; [intros k _; now rewrite E1|exact E2]. Qed.

Lemma releases_survive_refl r : releases_survive r r.
Proof. split; [now exists []|lia]. Qed.

Lemma releases_survive_trans r1 r2 r3 :
  releases_survive r1 r2 -> releases_survive r2 r3 -> releases_survive r1 r3.
Proof.
  intros [[n1 A1] B1] [[n2 A2] B2]; split; [|lia].
  exists (n2 ++ n1)%list. now rewrite A2, A1, app_assoc.
Qed.

Lemma same_identities r r' :
  map identity (releases r') = map identity (releases r) ->
  next_id r <= next_id r' -> releases_survive r r'.
Proof. intros E L; split; [now exists []|exact L]. Qed.

Lemma map_identity_edit id (f : Release -> Release) l :
  (forall x, identity (f x) = identity x) ->
  map identity (map (fun x => if rel_id x =? id then f x else x) l)
  = map identity l.
Proof.
  intros H; rewrite map_map; apply map_ext; intros x.
  now destruct (rel_id x =? id).
Qed.



Section Untouched.
Context {K : Collaborators}.

Ltac served H :=
  cbv zeta in H;
  repeat match type of H with
         | context [match ?x with _ => _ end] =>
             destruct x eqn:?; try discriminate H
         end;
  inversion H; subst; clear H.

Lemma unchanged_listTags : respects unchanged Platform.listTags.
Proof. intros r a r' H; unfold Platform.listTags in H; served H; reflexivity. Qed.

Lemma unchanged_listReleases : respects unchanged Platform.listReleases.
Proof.
  intros r a r' H; unfold Platform.listReleases in H; served H; reflexivity.
Qed.

Lemma unchanged_listReleaseAssets id :
  respects unchanged (Platform.listReleaseAssets id).
Proof.
  intros r a r' H; unfold Platform.listReleaseAssets in H; served H.
  reflexivity.
Qed.

Section Moves.
Variable c : Connection.

Lemma moves_listTags : respects (only_tag_ref_moves c) Platform.listTags.
Proof.
  intros r a r' H; unfold Platform.listTags in H; served H.
  apply only_tag_ref_moves_refl.
Qed.

Lemma moves_createTag o : respects (only_tag_ref_moves c) (Platform.createTag o).
Proof.
  intros r a r' H; unfold Platform.createTag in H; served H.
  now apply same_refs.
Qed.

Lemma moves_createRef h :
  respects (only_tag_ref_moves c)
           (Platform.createRef ("refs/tags/" ++ tag c) h).
Proof.
  intros r a r' H; unfold Platform.createRef in H; served H.
  split; [|reflexivity].
  intros k Hk; cbn [refs]. now apply assoc_app_other.
Qed.

Lemma moves_updateRef h :
  respects (only_tag_ref_moves c) (Platform.updateRef ("tags/" ++ tag c) h).
Proof.
  intros r a r' H; unfold Platform.updateRef in H; served H.
  split; [|reflexivity].
  intros k Hk; cbn [refs]. now apply assoc_set_other.
Qed.

Lemma moves_listReleases : respects (only_tag_ref_moves c) Platform.listReleases.
Proof.
  intros r a r' H; unfold Platform.listReleases in H; served H.
  apply only_tag_ref_moves_refl.
Qed.

Lemma moves_createRelease t n b d pr :
  respects (only_tag_ref_moves c) (Platform.createRelease t n b d pr).
Proof.
  intros r a r' H; unfold Platform.createRelease in H; served H.
  now apply same_refs.
Qed.

Lemma moves_updateRelease id n b d pr :
  respects (only_tag_ref_moves c) (Platform.updateRelease id n b d pr).
Proof.
  intros r a r' H; unfold Platform.updateRelease in H; served H.
  now apply same_refs.
Qed.

Lemma moves_listReleaseAssets id :
  respects (only_tag_ref_moves c) (Platform.listReleaseAssets id).
Proof.
  intros r a r' H; unfold Platform.listReleaseAssets in H; served H.
  apply only_tag_ref_moves_refl.
Qed.

Lemma moves_deleteReleaseAsset aid :
  respects (only_tag_ref_moves c) (Platform.deleteReleaseAsset aid).
Proof.
  intros r a r' H; unfold Platform.deleteReleaseAsset in H; served H.
  now apply same_refs.
Qed.

Lemma moves_uploadReleaseAsset id n :
  respects (only_tag_ref_moves c) (Platform.uploadReleaseAsset id n).
Proof.
  intros r a r' H; unfold Platform.uploadReleaseAsset in H; served H.
  now apply same_refs.
Qed.

End Moves.

Lemma survive_listTags : respects releases_survive Platform.listTags.
Proof.
  intros r a r' H; unfold Platform.listTags in H; served H.
  apply releases_survive_refl.
Qed.

Lemma survive_createTag o : respects releases_survive (Platform.createTag o).
Proof.
  intros r a r' H; unfold Platform.createTag in H; served H.
  apply same_identities; cbn [releases next_id]; [reflexivity|lia].
Qed.

Lemma survive_createRef n h : respects releases_survive (Platform.createRef n h).
Proof.
  intros r a r' H; unfold Platform.createRef in H; served H.
  apply same_identities; cbn [releases next_id]; [reflexivity|lia].
Qed.

Lemma survive_updateRef n h : respects releases_survive (Platform.updateRef n h).
Proof.
  intros r a r' H; unfold Platform.updateRef in H; served H.
  apply same_identities; cbn [releases next_id]; [reflexivity|lia].
Qed.

Lemma survive_listReleases : respects releases_survive Platform.listReleases.
Proof.
  intros r a r' H; unfold Platform.listReleases in H; served H.
  apply releases_survive_refl.
Qed.

Lemma survive_createRelease t n b d pr :
  respects releases_survive (Platform.createRelease t n b d pr).
Proof.
  intros r a r' H; unfold Platform.createRelease in H; served H.
  split; cbn [releases next_id]; [|lia].
  eexists [_]; reflexivity.
Qed.

Lemma survive_updateRelease id n b d pr :
  respects releases_survive (Platform.updateRelease id n b d pr).
Proof.
  intros r a r' H; unfold Platform.updateRelease, Platform.edit_release in H.
  served H.
  apply same_identities; cbn [releases next_id]; [|lia].
  now apply map_identity_edit.
Qed.

Lemma survive_listReleaseAssets id :
  respects releases_survive (Platform.listReleaseAssets id).
Proof.
  intros r a r' H; unfold Platform.listReleaseAssets in H; served H.
  apply releases_survive_refl.
Qed.

Lemma survive_deleteReleaseAsset aid :
  respects releases_survive (Platform.deleteReleaseAsset aid).
Proof.
  intros r a r' H; unfold Platform.deleteReleaseAsset in H; served H.
  apply same_identities; cbn [releases next_id]; [|lia].
  rewrite map_map; now apply map_ext.
Qed.

Lemma survive_uploadReleaseAsset id n :
  respects releases_survive (Platform.uploadReleaseAsset id n).
Proof.
  intros r a r' H.
  unfold Platform.uploadReleaseAsset, Platform.edit_release in H; served H.
  apply same_identities; cbn [releases next_id]; [|lia].
  now apply map_identity_edit.
Qed.

Ltac listing_step :=
  first
    [ apply emits_ret | apply emits_fail | apply emits_throw
    | apply emits_try
    | apply emits_bind; [|intros ?]
    | apply emits_request; reflexivity
    | match goal with
      | |- emits _ (match ?x with _ => _ end) => destruct x
      end ].

Ltac unchanged_side :=
  first
    [ (apply on_remote_refl; exact unchanged_refl)
    | (apply on_remote_trans; exact unchanged_trans)
    | intros;
      unfold rest_listTags, rest_listReleases, rest_listReleaseAssets;
      apply request_on_remote;
      [ exact unchanged_refl
      | first [ apply unchanged_listTags | apply unchanged_listReleases
              | apply unchanged_listReleaseAssets ] ] ].

Lemma reads_only_intro {A : Type} (m : M A) :
  always (on_remote unchanged) m -> emits is_listing m -> reads_only m.
Proof. intros H1 H2 w; split; [exact (H1 w)|exact (H2 w)]. Qed.

(** X8.  The lookups of a run, [getTag], [doesReleaseExist],
    [getReleaseID], [getReleaseAssets] and [getReleaseUploadURL], leave the
    remote as it is and send only listing calls, whatever their outcome. *)
Theorem lookups_change_nothing c :
  reads_only (getTag c)
  /\ reads_only (doesReleaseExist c)
  /\ reads_only (getReleaseID c)
  /\ reads_only (getReleaseAssets c)
  /\ reads_only (getReleaseUploadURL c).
Proof.
  split; [|split; [|split; [|split]]]; apply reads_only_intro.
  - apply always_getTag; unchanged_side.
  - unfold getTag, rest_listTags; repeat listing_step.
  - apply always_doesReleaseExist; unchanged_side.
  - unfold doesReleaseExist, getReleases, rest_listReleases;
      repeat listing_step.
  - apply always_getReleaseID; unchanged_side.
  - unfold getReleaseID, rest_listReleases; repeat listing_step.
  - apply always_getReleaseAssets; unchanged_side.
  - unfold getReleaseAssets, getReleaseID, rest_listReleases,
      rest_listReleaseAssets; repeat listing_step.
  - apply always_getReleaseUploadURL; unchanged_side.
  - unfold getReleaseUploadURL, getRepos, rest_listReleases;
      repeat listing_step.
Qed.

Ltac rest_unfold :=
  unfold rest_listTags, rest_createTag, rest_createRef, rest_updateRef,
    rest_listReleases, rest_createRelease, rest_updateRelease,
    rest_listReleaseAssets, rest_deleteReleaseAsset, rest_uploadReleaseAsset.

(** X9.  Whatever its outcome, a run moves no ref but [refs/tags/<tag>]:
    every branch and every other tag points where it pointed before, and no
    commit has changed. *)
Theorem run_moves_only_its_tag p c w :
  only_tag_ref_moves c (remote w) (remote (world_of (run p c w))).
Proof.
  assert (H : always (on_remote (only_tag_ref_moves c)) (run p c)).
  { apply always_run;
      first
        [ (apply on_remote_refl; exact (only_tag_ref_moves_refl c))
        | (apply on_remote_trans; exact (@only_tag_ref_moves_trans c))
        | intros; rest_unfold; apply request_on_remote;
          [ exact (only_tag_ref_moves_refl c)
          | first [ apply moves_listTags | apply moves_createTag
                  | apply moves_createRef | apply moves_updateRef
                  | apply moves_listReleases | apply moves_createRelease
                  | apply moves_updateRelease | apply moves_listReleaseAssets
                  | apply moves_deleteReleaseAsset
                  | apply moves_uploadReleaseAsset ] ] ]. }
  exact (H w).
Qed.

Lemma run_keeps_releases p c :
  always (on_remote releases_survive) (run p c).
Proof.
  apply always_run;
    first
      [ (apply on_remote_refl; exact releases_survive_refl)
      | (apply on_remote_trans; exact releases_survive_trans)
      | intros; rest_unfold; apply request_on_remote;
        [ exact releases_survive_refl
        | first [ apply survive_listTags | apply survive_createTag
                | apply survive_createRef | apply survive_updateRef
                | apply survive_listReleases | apply survive_createRelease
                | apply survive_updateRelease | apply survive_listReleaseAssets
                | apply survive_deleteReleaseAsset
                | apply survive_uploadReleaseAsset ] ] ].
Qed.

Lemma main_unfold p w :
  main p w
  = match constructor p w with
    | Done c w1 =>
        match (run p c ;; drain) w1 with
        | Thrown w2 => Exited 1 w2
        | o => o
        end
    | Thrown w1 => Exited 1 w1
    | Exited code w1 => Exited code w1
    end.
Proof.
  unfold main, try_catch. unfold bind at 1. now destruct (constructor p w).
Qed.

Lemma setBody_remote p c w : remote (world_of (setBody p c w)) = remote w.
Proof.
  unfold setBody. destruct (negb (String.eqb (getInput p "body") ""));
    [reflexivity|].
  now destruct (next_fault w).
Qed.

Lemma drain_remote w : remote (world_of (drain w)) = remote w.
Proof.
  unfold drain. now destruct (commit_fetch w) as [[n [m|]]|].
Qed.

Lemma main_remote p w :
  remote (world_of (main p w)) = remote w
  \/ exists c w1,
      remote w1 = remote w
      /\ remote (world_of (main p w)) = remote (world_of (run p c w1)).
Proof.
  rewrite main_unfold, constructor_outcome.
  destruct (String.eqb (getInput p "token") ""); [now left|].
  destruct (String.eqb (getInput p "files") ""); [now left|].
  destruct (locate_all p (split_delims (getInput p "files"))) as [ts|];
    [|now left].
  right. exists (configured p ts), (world_of (setBody p (configured p ts) w)).
  split; [apply setBody_remote|].
  unfold bind.
  destruct (run p (configured p ts)
                (world_of (setBody p (configured p ts) w)))
    as [a w2|w2|code w2]; cbn [world_of]; try reflexivity.
  pose proof (drain_remote w2) as D.
  now destruct (drain w2).
Qed.

(** X10.  Whatever its outcome, a run deletes no release: every release is
    still listed, in the same order, under the same identifier, attached to
    the same tag; releases can only have been added in front, and the
    platform's counter has not gone back.  The same holds of the whole
    script. *)
Theorem no_release_is_deleted p w :
  (forall c, releases_survive (remote w) (remote (world_of (run p c w))))
  /\ releases_survive (remote w) (remote (world_of (main p w))).
Proof.
  split.
  - intros c. exact (run_keeps_releases p c w).
  - destruct (main_remote p w) as [E|(c & w1 & E1 & E2)].
    + rewrite E. apply releases_survive_refl.
    + rewrite E2, <- E1. exact (run_keeps_releases p c w1).
Qed.

Lemma configured_sha p ts : sha (configured p ts) = GITHUB_SHA p.
Proof.
  unfold configured, setMessage, setPrerelease, setDraft, setRelease.
  destruct (String.eqb (getInput p "message") "");
    cbn [sha with_message with_files with_prerelease with_draft release
         with_release];
    destruct (String.eqb (getInput p "release") "");
    cbn [sha with_tag tag with_release];
    now destruct (String.eqb (getInput p "tag") "").
Qed.



End Untouched.

(* ------------------------------------------------------------------ *)
(** ** The release stage and the uploads                                *)
(* ------------------------------------------------------------------ *)

Section Stages.
Context {K : Collaborators}.

Lemma getReleaseUploadURL_Done c w url w' :
  getReleaseUploadURL c w = Done url w' ->
  remote w' = remote w
  /\ log w' = (log w ++ [ListReleases])%list
  /\ exists r, find (named (release c)) (releases (remote w)) = Some r
               /\ rel_upload_url r = url.
Proof.
  unfold getReleaseUploadURL, getRepos; intros H.
  apply bind_Done in H as (l & w1 & H1 & H2).
  apply try_fail_Done in H1.
  pose proof H1 as H1'. apply listReleases_Done in H1' as (-> & R & _).
  unfold rest_listReleases in H1.
  apply request_Done in H1 as (_ & _ & _ & L & _).
  change (fun r => name_is (rel_name r) (release c))
    with (named (release c)) in H2.
  destruct (find (named (release c)) (releases (remote w))) as [r|] eqn:F;
    [|discriminate].
  apply ret_Done in H2 as [<- <-].
  split; [exact R|]. split; [exact L|]. now exists r.
Qed.



(** X12.  The identifier [getReleaseID] returns and the upload address
    [getReleaseUploadURL] returns belong to one release: the first release
    listed under the name. *)
Theorem id_and_upload_address_agree c w id w1 w2 url w3 :
  getReleaseID c w = Done id w1 ->
  remote w2 = remote w ->
  getReleaseUploadURL c w2 = Done url w3 ->
  exists r,
    find (named (release c)) (releases (remote w)) = Some r
    /\ rel_id r = id /\ rel_upload_url r = url.
Proof.
  intros H1 E H2.
  apply getReleaseID_Done in H1 as (_ & _ & r & F & I).
  apply getReleaseUploadURL_Done in H2 as (_ & _ & r' & F' & U).
  rewrite E, F in F'. apply some_eq in F'. subst r'.
  exists r. now repeat split.
Qed.

Lemma mutations_app l1 l2 :
  mutations (l1 ++ l2) = (mutations l1 ++ mutations l2)%list.
Proof. apply filter_app. Qed.

Lemma upload_loop_Done c id l :
  forall w w',
    upload_loop c id l w = Done tt w' ->
    exists calls,
      log w' = (log w ++ calls)%list
      /\ Forall2 (uploads_file id) l (mutations calls)
      /\ Forall (fun call => is_mutation call = false -> call = ListReleases)
                calls.
Proof.
  induction l as [|f l IH]; intros w w' H.
  - apply ret_Done in H as [_ <-]. exists []. rewrite app_nil_r.
    split; [reflexivity|]. split; constructor.
  - cbn [upload_loop] in H.
    apply bind_Done in H as (n & w1 & H1 & H).
    apply bind_Done in H as (url & w2 & H2 & H).
    apply bind_Done in H as (d & w3 & H3 & H).
    apply bind_Done in H as (u & w4 & H4 & H).
    destruct (statSync_size f) as [n'|] eqn:En; [|discriminate].
    apply ret_Done in H1 as [-> <-].
    destruct (readFileSync f) as [d'|] eqn:Ed; [|discriminate].
    apply ret_Done in H3 as [-> <-].
    apply getReleaseUploadURL_Done in H2 as (_ & L2 & _).
    unfold rest_uploadReleaseAsset in H4.
    apply request_Done in H4 as (_ & _ & _ & L4 & _).
    apply IH in H as (calls & L & F2 & Fl).
    exists (ListReleases
              :: UploadReleaseAsset id url (basename f) (content_type_of f) n d
              :: calls).
    split; [|split].
    + rewrite L, L4, L2, <- !app_assoc. reflexivity.
    + cbn [mutations filter is_mutation]. constructor; [|exact F2].
      exists url, n, d. now repeat split.
    + constructor; [reflexivity|].
      constructor; [discriminate|exact Fl].
Qed.

(** X13.  When [uploadAssets] returns, the mutating calls it has sent are
    one upload for each file of [files], in input order: the file goes up
    under its basename, with its size, its content and the content type
    looked up for it, [application/octet-stream] when the lookup knows none.
    Every other call it has sent lists the releases. *)
Theorem uploads_follow_the_files c id w w' :
  uploadAssets c id w = Done tt w' ->
  exists calls,
    log w' = (log w ++ calls)%list
    /\ Forall2 (uploads_file id) (files c) (mutations calls)
    /\ Forall (fun call => is_mutation call = false -> call = ListReleases)
              calls
    /\ (forall f, lookup f = None ->
                  content_type_of f = "application/octet-stream").
Proof.
  intros H. unfold uploadAssets in H. apply try_fail_Done in H.
  apply upload_loop_Done in H as (calls & L & F2 & Fl).
  exists calls. split; [exact L|]. split; [exact F2|]. split; [exact Fl|].
  intros f E. unfold content_type_of. now rewrite E.
Qed.


Lemma after_body w call r' :
  commit_fetch w = None -> body (after w call r') = body w.
Proof. unfold after, settle; cbn [commit_fetch]; now intros ->. Qed.

Lemma find_none_filter_nil {A : Type} (f : A -> bool) l :
  filter f l = [] -> existsb f l = false.
Proof. apply existsb_filter_nil. Qed.

Lemma find_some_existsb {A : Type} (f : A -> bool) l x :
  find f l = Some x -> existsb f l = true.
Proof.
  intros F; apply find_some in F as [I E]. apply existsb_exists; eauto.
Qed.

Lemma run_release_absent c w :
  quiet w ->
  releases_named (release c) (remote w) = [] ->
  exists w' b,
    run_release c w = Done (next_id (remote w)) w'
    /\ quiet w'
    /\ log w' = (log w ++ [ListReleases;
                           CreateRelease (tag c) (release c) b (draft c)
                                         (prerelease c);
                           ListReleases])%list
    /\ (commit_fetch w = None -> b = body w)
    /\ releases (remote w')
       = created c b (next_id (remote w)) :: releases (remote w)
    /\ refs (remote w') = refs (remote w).
Proof.
  intros Q Hn. apply find_none_filter_nil in Hn.
  unfold run_release, bind. rewrite (doesReleaseExist_quiet c Q), Hn.
  cbn [negb].
  set (w1 := after w ListReleases (remote w)).
  assert (Q1 : quiet w1) by now apply after_quiet.
  rewrite (createRelease_quiet c Q1).
  set (b := body w1).
  set (r2 := mkRemote _ _ _ _ _).
  set (w2 := after w1 _ r2).
  assert (Q2 : quiet w2) by now apply after_quiet.
  assert (F : find (named (release c)) (releases (remote w2))
              = Some (created c b (next_id (remote w1)))).
  { unfold w2. rewrite after_remote. unfold r2. cbn [releases find].
    now rewrite named_created. }
  rewrite (getReleaseID_quiet c Q2 F). cbn [rel_id created].
  assert (R1 : remote w1 = remote w) by apply after_remote.
  rewrite R1.
  eexists; exists b. split; [reflexivity|]. split; [now apply after_quiet|].
  split; [|split; [|split]].
  - rewrite after_log. unfold w2. rewrite after_log. unfold w1.
    rewrite after_log, <- !app_assoc. reflexivity.
  - intros Hc. unfold b, w1. now apply after_body.
  - rewrite after_remote. unfold w2. rewrite after_remote. unfold r2.
    cbn [releases]. now rewrite R1.
  - rewrite after_remote. unfold w2. rewrite after_remote. unfold r2.
    cbn [refs]. now rewrite R1.
Qed.

Lemma run_release_found c w r :
  quiet w ->
  find (named (release c)) (releases (remote w)) = Some r ->
  exists w',
    run_release c w = Done (rel_id r) w'
    /\ quiet w'
    /\ log w' = (log w ++ [ListReleases; ListReleases])%list
    /\ remote w' = remote w.
Proof.
  intros Q F. pose proof (find_some_existsb _ _ F) as Ex.
  unfold run_release, bind. rewrite (doesReleaseExist_quiet c Q), Ex.
  cbn [negb]. unfold ret.
  set (w1 := after w ListReleases (remote w)).
  assert (Q1 : quiet w1) by now apply after_quiet.
  assert (R1 : remote w1 = remote w) by apply after_remote.
  assert (F1 : find (named (release c)) (releases (remote w1)) = Some r)
    by now rewrite R1.
  rewrite (getReleaseID_quiet c Q1 F1).
  eexists. split; [reflexivity|]. split; [now apply after_quiet|].
  split.
  - rewrite after_log. unfold w1. rewrite after_log, <- app_assoc.
    reflexivity.
  - now rewrite after_remote.
Qed.

(** X15.  The release stage of a run that nothing disturbs.  When no
    release has the name it lists, creates one release, attached to the tag,
    with the name, the draft and the prerelease flag of the connection and
    the body known at that moment, and returns the new identifier.  When
    one has the name it creates nothing, lists twice and returns the
    identifier of the first match; the remote is as it was. *)
Theorem release_stage c w :
  quiet w ->
  (releases_named (release c) (remote w) = [] ->
   exists w' b,
     run_release c w = Done (next_id (remote w)) w'
     /\ quiet w'
     /\ log w' = (log w ++ [ListReleases;
                            CreateRelease (tag c) (release c) b (draft c)
                                          (prerelease c);
                            ListReleases])%list
     /\ (commit_fetch w = None -> b = body w)
     /\ releases (remote w')
        = created c b (next_id (remote w)) :: releases (remote w)
     /\ refs (remote w') = refs (remote w))
  /\ (forall r,
        find (named (release c)) (releases (remote w)) = Some r ->
        exists w',
          run_release c w = Done (rel_id r) w'
          /\ quiet w'
          /\ log w' = (log w ++ [ListReleases; ListReleases])%list
          /\ remote w' = remote w).
Proof.
  intros Q. split.
  - now apply run_release_absent.
  - intros r. now apply run_release_found.
Qed.

(** X16.  A release listed under a negative identifier is skipped: a run
    that nothing disturbs returns and every release is as it was, its
    assets included; on its own, [deleteAssetsIfTheyExist] then ends the
    process with status 2 once it has listed the releases. *)
Theorem negative_id_is_skipped p c w r :
  quiet w ->
  find (named (release c)) (releases (remote w)) = Some r ->
  rel_id r < 0 ->
  (exists w', run p c w = Done tt w'
              /\ releases (remote w') = releases (remote w))
  /\ (forall flag,
        exists w', deleteAssetsIfTheyExist c flag w = Exited 2 w'
                   /\ log w' = (log w ++ [ListReleases])%list
                   /\ remote w' = remote w).
Proof.
  intros Q F Neg. split.
  - destruct (run_tag_returns p c Q) as (t & wa & Et & Qa & Ra & _ & _).
    assert (Fa : find (named (release c)) (releases (remote wa)) = Some r)
      by now rewrite Ra.
    destruct (run_release_found c Qa Fa) as (wb & Er & _ & _ & Rb).
    exists wb. split; [|now rewrite Rb].
    unfold run, bind. rewrite Et, Er. unfold run_publish.
    destruct (Z.leb_spec 0 (rel_id r)); [lia|reflexivity].
  - intros flag.
    exists (after w ListReleases (remote w)).
    split; [|split; [apply after_log|apply after_remote]].
    unfold deleteAssetsIfTheyExist, getReleaseAssets, try_catch, bind.
    rewrite (getReleaseID_quiet c Q F).
    destruct (Z.ltb_spec (rel_id r) 0); [reflexivity|lia].
Qed.

Lemma configured_ref p ts : ref (configured p ts) = GITHUB_REF p.
Proof.
  unfold configured, setMessage, setPrerelease, setDraft, setRelease.
  destruct (String.eqb (getInput p "message") "");
    cbn [ref with_message with_files with_prerelease with_draft release
         with_release];
    destruct (String.eqb (getInput p "release") "");
    cbn [ref with_tag tag with_release];
    now destruct (String.eqb (getInput p "tag") "").
Qed.

Lemma setBody_log p c w :
  log (world_of (setBody p c w))
  = if String.eqb (getInput p "body") "" then (log w ++ [GetCommit (sha c)])%list
    else log w.
Proof.
  unfold setBody. destruct (String.eqb (getInput p "body") "");
    cbn [negb]; [|reflexivity].
  now destruct (next_fault w).
Qed.

Lemma setBody_given p c w :
  getInput p "body" <> "" ->
  body (world_of (setBody p c w)) = getInput p "body"
  /\ commit_fetch (world_of (setBody p c w)) = commit_fetch w.
Proof.
  intros H; apply String.eqb_neq in H. unfold setBody. rewrite H.
  now split.
Qed.

(** X17.  The constructor changes nothing on the platform.  The one call
    it can send is the commit lookup, and it sends it only when the [body]
    input is empty; with a body given it sends nothing and stores the body.
    The connection it returns carries the ref and the commit of the
    runner. *)
Theorem constructor_touches_nothing p w :
  remote (world_of (constructor p w)) = remote w
  /\ (log (world_of (constructor p w)) = log w
      \/ (getInput p "body" = ""
          /\ log (world_of (constructor p w))
             = (log w ++ [GetCommit (GITHUB_SHA p)])%list))
  /\ (forall c w',
        constructor p w = Done c w' ->
        ref c = GITHUB_REF p /\ sha c = GITHUB_SHA p
        /\ (getInput p "body" <> "" ->
            body w' = getInput p "body" /\ commit_fetch w' = commit_fetch w)).
Proof.
  rewrite constructor_outcome.
  destruct (String.eqb (getInput p "token") "");
    [split; [reflexivity|split; [now left|discriminate]]|].
  destruct (String.eqb (getInput p "files") "");
    [split; [reflexivity|split; [now left|discriminate]]|].
  destruct (locate_all p (split_delims (getInput p "files"))) as [ts|];
    [|split; [reflexivity|split; [now left|discriminate]]].
  cbn [world_of]. split; [apply setBody_remote|]. split.
  - rewrite setBody_log, configured_sha.
    destruct (String.eqb (getInput p "body") "") eqn:Eb; [|now left].
    right. apply String.eqb_eq in Eb. now split.
  - intros c w' H. injection H as <- <-.
    split; [apply configured_ref|]. split; [apply configured_sha|].
    apply setBody_given.
Qed.

End Stages.

(* ------------------------------------------------------------------ *)
(** ** The order of the mutating calls                                  *)
(* ------------------------------------------------------------------ *)

Lemma mutations_listing l : Forall is_listing l -> mutations l = [].
Proof.
  induction 1 as [|call l H _ IH]; [reflexivity|].
  unfold mutations in *; cbn [filter]. now rewrite H.
Qed.

Lemma mutations_deletions (l : list Asset) :
  mutations (map deletion_of l) = map deletion_of l.
Proof.
  induction l as [|a l IH]; [reflexivity|].
  unfold mutations in *; cbn [map filter deletion_of is_mutation].
  now rewrite IH.
Qed.

Lemma mutations_early l :
  Forall early_or_listing l -> Forall is_early (mutations l).
Proof.
  induction 1 as [|call l H _ IH]; [constructor|].
  unfold mutations in *; cbn [filter].
  destruct (is_mutation call) eqn:E; [|exact IH].
  constructor; [exact (H E)|exact IH].
Qed.

Section Order.
Context {K : Collaborators}.

Ltac calls_step :=
  first
    [ apply emits_ret | apply emits_fail | apply emits_throw
    | apply emits_try
    | apply emits_bind; [|intros ?]
    | apply emits_request;
      first [reflexivity | intros E; first [exact I | discriminate E]]
    | match goal with
      | |- emits _ (match ?x with _ => _ end) => destruct x
      end ].

Lemma listing_getReleaseAssets c : emits is_listing (getReleaseAssets c).
Proof.
  unfold getReleaseAssets, getReleaseID, rest_listReleases,
    rest_listReleaseAssets; repeat calls_step.
Qed.

Lemma early_run_tag p c : emits early_or_listing (run_tag p c).
Proof.
  unfold run_tag, createTag, createLightweightTag, getTag, rest_listTags,
    rest_createTag, rest_createRef.
  repeat calls_step.
Qed.

Lemma early_run_release c : emits early_or_listing (run_release c).
Proof.
  unfold run_release, doesReleaseExist, getReleases, getReleaseID,
    rest_listReleases.
  apply emits_bind; [repeat calls_step|intros b].
  apply emits_bind; [|intros _; repeat calls_step].
  destruct (negb b); [|apply emits_ret].
  unfold createRelease. apply emits_try; [|apply emits_fail].
  apply (@emits_reading unit string early_or_listing body
           (fun b => rest_createRelease (tag c) (release c) b (draft c)
                                        (prerelease c))).
  intros b'; apply emits_request. intros _; exact I.
Qed.

Lemma delete_loop_Done c flag l :
  forall res w b w',
    delete_loop c flag l res w = Done b w' ->
    log w' = (log w ++ map deletion_of (filter (shouldDelete c flag) l))%list.
Proof.
  induction l as [|a l IH]; intros res w b w' H; cbn [delete_loop] in H.
  - apply ret_Done in H as [_ <-]. cbn [filter map]. now rewrite app_nil_r.
  - cbn [filter]. destruct (shouldDelete c flag a).
    + apply bind_Done in H as (u & w1 & H1 & H).
      unfold rest_deleteReleaseAsset in H1.
      apply request_Done in H1 as (_ & _ & _ & L1 & _).
      apply IH in H. rewrite H, L1, <- app_assoc. reflexivity.
    + now apply IH in H.
Qed.

Lemma run_publish_calls p c id w w' :
  0 <= id -> run_publish p c id w = Done tt w' ->
  exists calls b dels ups,
    log w' = (log w ++ calls)%list
    /\ mutations calls
       = (UpdateRelease id (release c) b (draft c) (prerelease c)
            :: map DeleteReleaseAsset dels ++ ups ++ repoint p c)%list
    /\ Forall2 (uploads_file id) (files c) ups.
Proof.
  intros Hid H. unfold run_publish in H.
  destruct (Z.leb_spec 0 id); [|lia].
  apply bind_Done in H as (u1 & w1 & H1 & H).
  apply bind_Done in H as (b2 & w2 & H2 & H).
  apply bind_Done in H as (u3 & w3 & H3 & H).
  apply updateRelease_Done in H1 as (_ & _ & _ & L1).
  unfold deleteAssetsIfTheyExist in H2. apply try_fail_Done in H2.
  apply bind_Done in H2 as (o & w1a & G & H2).
  pose proof G as G'.
  eapply emits_Done in G'; [|apply listing_getReleaseAssets].
  destruct G' as (lg & Lg & Fg).
  destruct o as [la|]; [|discriminate].
  apply delete_loop_Done in H2.
  destruct u3. unfold uploadAssets in H3. apply try_fail_Done in H3.
  apply upload_loop_Done in H3 as (lu & Lu & F2 & _).
  assert (Lt : log w' = (log w3 ++ repoint p c)%list).
  { unfold repoint.
    destruct (negb (isFalsyString (getInput p "updateTag"))).
    - now apply updateTag_Done in H as [Lt _].
    - apply ret_Done in H as [_ <-]. now rewrite app_nil_r. }
  exists ([UpdateRelease id (release c) (body w) (draft c) (prerelease c)]
            ++ lg ++ map deletion_of (filter (shouldDelete c
                        (isTruthyString (getInput p "replace"))) la)
            ++ lu ++ repoint p c)%list,
    (body w),
    (map asset_id (filter (shouldDelete c
                             (isTruthyString (getInput p "replace"))) la)),
    (mutations lu).
  split; [|split; [|exact F2]].
  - rewrite Lt, Lu, H2, Lg, L1, <- !app_assoc. reflexivity.
  - rewrite !mutations_app, (mutations_listing Fg), mutations_deletions.
    cbn [mutations filter is_mutation app].
    rewrite map_map. f_equal. f_equal. f_equal.
    unfold repoint. now destruct (negb _).
Qed.

(** X18.  The mutating calls of a run that returns come in this order:
    the calls that create the tag and the release, if any; one update of the
    release; the deletions; one upload for each file of [files], in input
    order; and last the call that moves the tag, unless the [updateTag] input
    forbids it.  No asset is deleted after an upload, and the release is
    updated before its assets are touched. *)
Theorem mutations_in_order p c w w' :
  ids_nonneg (remote w) ->
  run p c w = Done tt w' ->
  exists calls early id b dels ups,
    log w' = (log w ++ calls)%list
    /\ mutations calls
       = (early
            ++ UpdateRelease id (release c) b (draft c) (prerelease c)
            :: map DeleteReleaseAsset dels ++ ups ++ repoint p c)%list
    /\ Forall is_early early
    /\ Forall2 (uploads_file id) (files c) ups.
Proof.
  intros Hn H. unfold run in H.
  apply bind_Done in H as (t & wa & Ha & H).
  apply bind_Done in H as (id & wb & Hb & H).
  assert (Hab : (run_tag p c ;; run_release c) w = Done id wb).
  { unfold bind. now rewrite Ha. }
  apply (@release_id_nonneg _ p c _ _ _ Hn) in Hab as [Hid _].
  pose proof Ha as Ha'.
  eapply emits_Done in Ha'; [|apply early_run_tag].
  destruct Ha' as (la & La & Fa).
  pose proof Hb as Hb'.
  eapply emits_Done in Hb'; [|apply early_run_release].
  destruct Hb' as (lb & Lb & Fb).
  pose proof H as Hc. apply run_publish_calls in Hc; [|exact Hid].
  destruct Hc as (lc & b & dels & ups & Lc & Mc & F2).
  exists (la ++ lb ++ lc)%list, (mutations la ++ mutations lb)%list, id, b,
    dels, ups.
  split; [|split; [|split; [|exact F2]]].
  - rewrite Lc, Lb, La, <- !app_assoc. reflexivity.
  - rewrite !mutations_app, Mc, <- !app_assoc. reflexivity.
  - apply Forall_app; split; now apply mutations_early.
Qed.

End Order.

(* ------------------------------------------------------------------ *)
(** ** A separator at an end of the [files] input                       *)
(* ------------------------------------------------------------------ *)



Section Tokens.
Context {K : Collaborators}.




End Tokens.

(** ** The theorems at concrete inputs *)

#[local] Existing Instance Scenario.node.

Lemma first_world_is_quiet : quiet Scenario.first_world.
Proof. split; [reflexivity|intros n H; discriminate H]. Qed.

Lemma empty_repo_is_ready :
  ready (Scenario.connected Scenario.tagged_build)
        (remote Scenario.first_world).
Proof.
  split; [split; [constructor|simpl; lia]|].
  split; [split; constructor|].
  split; [intros x H; discriminate H|].
  split.
  - constructor; [|constructor]; split; discriminate.
  - constructor; [intros []|constructor].
Qed.

Lemma release_convergence_witness :
  let p := Scenario.tagged_build in
  let c := Scenario.connected p in
  let w2' := world_of (run (K := Scenario.node) p c Scenario.second_world) in
  (length (releases_named (release c) (remote w2')) = 1%nat
   /\ exists r,
       find (named (release c)) (releases (remote w2')) = Some r
       /\ rel_draft r = draft c /\ rel_prerelease r = prerelease c
       /\ rel_body r = "notes")
  /\ exists w1',
      run (K := Scenario.node) p c Scenario.first_world = Done tt w1'.
Proof.
  intros p c w2'.
  assert (Hn : ids_nonneg (remote Scenario.first_world)).
  { split; [constructor|simpl; lia]. }
  assert (Hf : fresh_ids (remote Scenario.first_world)).
  { split; constructor. }
  assert (R1 : run (K := Scenario.node) p c Scenario.first_world
               = Done tt (world_of (run (K := Scenario.node) p c
                                        Scenario.first_world))).
  { vm_compute; reflexivity. }
  assert (Same : remote Scenario.second_world
                 = remote (world_of (run (K := Scenario.node) p c
                                         Scenario.first_world))).
  { reflexivity. }
  assert (R2 : run (K := Scenario.node) p c Scenario.second_world
               = Done tt w2').
  { vm_compute; reflexivity. }
  destruct (@release_convergence Scenario.node p c Scenario.first_world)
    as (Twice & Returns).
  split.
  - destruct (Twice _ _ Hn Hf R1 Same) as (_ & Returned).
    destruct (Returned _ R2) as (_ & _ & One & r & F & D & P & B).
    split; [apply One; vm_compute; reflexivity|].
    exists r; split; [exact F|]. split; [exact D|]. split; [exact P|].
    apply B; reflexivity.
  - destruct (Returns first_world_is_quiet empty_repo_is_ready)
      as (w1' & E & _).
    exists w1'; exact E.
Defined.

(** The scenarios' connection is the one the constructor builds. *)
Lemma connected_is_constructed :
  constructor Scenario.tagged_build (boot Scenario.empty_repo [] 0)
  = Done (Scenario.connected Scenario.tagged_build) Scenario.first_world.
Proof. vm_compute; reflexivity. Qed.

Lemma split_delims_examples :
  split_delims "a.zip, b.zip" = ["a.zip"; "b.zip"]
  /\ split_delims ",a.zip," = [""; "a.zip"; ""]
  /\ split_delims "" = [""].
Proof. repeat split; reflexivity. Qed.

(** With replace-all set both assets of the release are deleted before
    [a.zip] is uploaded again. *)
Lemma replace_all_deletes_before_upload :
  mutations
    (log (world_of (run Scenario.replace_all
                        (Scenario.connected Scenario.replace_all)
                        Scenario.calm_world)))
  = [UpdateRelease 7 "v1.0" "notes" false true;
     DeleteReleaseAsset 8; DeleteReleaseAsset 9;
     UploadReleaseAsset 7 "https://uploads.example/assets" "a.zip"
                        "application/zip" 2 "PK";
     UpdateRef "tags/v1.0" "c0ffee"].
Proof. vm_compute; reflexivity. Qed.

(** A commit message that arrives late: the release is created with an
    empty body and updated with the message. *)
Lemma late_commit_message :
  let p := Scenario.process_of [("token", "t0ken"); ("files", "a.zip")]
                               "refs/tags/v1.0" in
  filter (fun call => is_create_release call
                      || match call with
                         | UpdateRelease _ _ _ _ _ => true
                         | _ => false
                         end)
         (log (world_of (main p (boot Scenario.empty_repo [] 5))))
  = [CreateRelease "v1.0" "v1.0" "" false true;
     UpdateRelease 1 "v1.0" "first commit" false true].
Proof. vm_compute; reflexivity. Qed.

Lemma calm_world_is_quiet : quiet Scenario.calm_world.
Proof. split; [reflexivity|intros n H; discriminate H]. Qed.

Lemma tag_stage_creates_once_witness :
  let p := Scenario.tagged_build in
  let c := Scenario.connected p in
  (exists w', run_tag (K := Scenario.node) p c Scenario.calm_world
              = Done (Some (mkTag "v1.0" "0ldc0de")) w')
  /\ (exists w', run_tag (K := Scenario.node) p c Scenario.first_world
                 = Done (Some (mkTag "v1.0" "c0ffee")) w'
                 /\ mutations (log w')
                    = [CreateTag (tag_object_of p c);
                       CreateRef "refs/tags/v1.0" "object-of-v1.0"]).
Proof.
  intros p c; split.
  - destruct (@tag_stage_creates_once Scenario.node p c Scenario.calm_world)
      as [A _].
    assert (L : listed_tag (K := Scenario.node) c (remote Scenario.calm_world)
                = Some (mkTag "v1.0" "0ldc0de")) by (vm_compute; reflexivity).
    destruct (A _ L) as (_ & _ & _ & D).
    apply D, calm_world_is_quiet.
  - destruct (@tag_stage_creates_once Scenario.node p c Scenario.first_world)
      as [_ B].
    assert (L : listed_tag (K := Scenario.node) c (remote Scenario.first_world)
                = None) by (vm_compute; reflexivity).
    destruct (B L first_world_is_quiet) as (w' & E & Lg & _).
    exists w'; split; [exact E|].
    rewrite Lg; vm_compute; reflexivity.
Defined.

Lemma deletion_set_witness :
  let c := Scenario.connected Scenario.tagged_build in
  (exists w',
      deleteAssetsIfTheyExist (K := Scenario.node) c false Scenario.calm_world
      = Done true w'
      /\ assets_of 7 (remote w') = Some [mkAsset 9 "b.zip"])
  /\ (exists w',
         deleteAssetsIfTheyExist (K := Scenario.node) c true Scenario.calm_world
         = Done true w'
         /\ assets_of 7 (remote w') = Some []).
Proof.
  intros c.
  assert (F : find (named (release c)) (releases (remote Scenario.calm_world))
              = Some Scenario.v1_release) by (vm_compute; reflexivity).
  assert (Id : 0 <= rel_id Scenario.v1_release) by (simpl; lia).
  assert (N : NoDup (map rel_id (releases (remote Scenario.calm_world)))).
  { simpl; constructor; [intros []|constructor]. }
  assert (Na : NoDup (map asset_id (rel_assets Scenario.v1_release))).
  { simpl; constructor; [intros [H|[]]; discriminate H|].
    constructor; [intros []|constructor]. }
  split.
  - destruct (@deletion_set Scenario.node c false _ _ calm_world_is_quiet
                F Id N Na) as (w' & E & _ & _ & A).
    exists w'; split; [rewrite E; vm_compute; reflexivity|].
    etransitivity; [exact A|vm_compute; reflexivity].
  - destruct (@deletion_set Scenario.node c true _ _ calm_world_is_quiet
                F Id N Na) as (w' & E & _ & _ & A).
    exists w'; split; [rewrite E; vm_compute; reflexivity|].
    etransitivity; [exact A|vm_compute; reflexivity].
Defined.

Lemma tag_repoint_gate_witness :
  let c := Scenario.connected Scenario.tagged_build in
  (exists l,
      log (world_of (run (K := Scenario.node) Scenario.update_off c
                         Scenario.calm_world))
      = (log Scenario.calm_world ++ l)%list
      /\ Forall (fun call => is_update_ref call = false) l)
  /\ Platform.assoc "refs/tags/v1.0"
       (refs (remote (world_of (run (K := Scenario.node) Scenario.tagged_build
                                    c Scenario.first_world))))
     = Some "c0ffee"
  /\ (exists w',
         updateTag Scenario.tagged_build c Scenario.calm_world = Done tt w'
         /\ Platform.assoc "refs/tags/v1.0" (refs (remote w')) = Some "c0ffee")
  /\ exists w',
      run (K := Scenario.node) Scenario.tagged_build c Scenario.first_world
      = Done tt w'.
Proof.
  intros c; split; [|split; [|split]].
  - destruct (@tag_repoint_gate Scenario.node Scenario.update_off c)
      as (Off & _).
    apply Off; reflexivity.
  - destruct (@tag_repoint_gate Scenario.node Scenario.tagged_build c)
      as (_ & On & _).
    assert (Hn : ids_nonneg (remote Scenario.first_world)).
    { split; [constructor|simpl; lia]. }
    assert (R : run (K := Scenario.node) Scenario.tagged_build c
                    Scenario.first_world
                = Done tt (world_of (run (K := Scenario.node)
                                         Scenario.tagged_build c
                                         Scenario.first_world))).
    { vm_compute; reflexivity. }
    destruct (On eq_refl _ _ Hn R) as [_ A]; exact A.
  - destruct (@tag_repoint_gate Scenario.node Scenario.tagged_build c)
      as (_ & _ & Any & _).
    apply (Any Scenario.calm_world "0ldc0de" calm_world_is_quiet).
    vm_compute; reflexivity.
  - destruct (@tag_repoint_gate Scenario.node Scenario.tagged_build c)
      as (_ & _ & _ & Runs).
    apply (Runs _ first_world_is_quiet empty_repo_is_ready).
Defined.





(** C4.  The ref [refs/heads/feature/tags/x] of the branch
    [feature/tags/x], with no release name given: the specification's
    derivation gives [feature-tags-x], [setRelease] gives [feature-x],
    because its patterns are not anchored and [tags/] is removed from the
    middle of the branch name. *)
Theorem setRelease_strips_inner_segment :
  GITHUB_REF Scenario.feature_branch = "refs/heads/feature/tags/x"
  /\ getInput Scenario.feature_branch "release" = ""
  /\ Spec.derive_name (GITHUB_REF Scenario.feature_branch) = "feature-tags-x"
  /\ release (setRelease Scenario.feature_branch
                         (from_runner Scenario.feature_branch))
     = "feature-x"
  /\ tag (setRelease Scenario.feature_branch
                     (from_runner Scenario.feature_branch))
     = "feature-x".
Proof. repeat split; vm_compute; reflexivity. Qed.

(** C5.  With the message input [Release 1] and no tag [v1.0] on the
    remote, the tag object that the run creates carries the empty message:
    [setMessage] assigns the field only when the input is empty. *)
Theorem supplied_message_is_dropped :
  getInput Scenario.message_supplied "message" = "Release 1"
  /\ message (setMessage Scenario.message_supplied
                (setRelease Scenario.message_supplied
                            (from_runner Scenario.message_supplied)))
     = ""
  /\ exists o,
      In (CreateTag o)
         (log (world_of (main (K := Scenario.node) Scenario.message_supplied
                              (boot Scenario.empty_repo [] 0))))
      /\ to_tag o = "v1.0" /\ to_message o = "".
Proof.
  split; [reflexivity|]. split; [reflexivity|].
  eexists; split; [|split].
  - vm_compute; right; left; reflexivity.
  - reflexivity.
  - reflexivity.
Qed.

(** ** The further properties at concrete inputs *)

Lemma negative_world_is_quiet : quiet Scenario.negative_world.
Proof. split; [reflexivity|intros n; discriminate]. Qed.

Lemma bare_world_is_quiet : quiet Scenario.bare_world.
Proof. split; [reflexivity|intros n; discriminate]. Qed.

Lemma split_delims_tokens_witness : split_delims "a.zip" = ["a.zip"].
Proof.
  apply (proj2 (proj2 (split_delims_tokens "a.zip"))); reflexivity.
Defined.

Lemma stored_paths_have_no_backslash_witness :
  Forall (fun f => has_char "092" f = false)
         (files (Scenario.connected Scenario.tagged_build)).
Proof.
  apply (@stored_paths_have_no_backslash Scenario.node Scenario.tagged_build
           (boot Scenario.empty_repo [] 0)
           (Scenario.connected Scenario.tagged_build) Scenario.first_world).
  vm_compute; reflexivity.
Defined.

Lemma derived_name_has_no_slash_witness :
  let p := Scenario.feature_branch in
  has_char "/" (release (setRelease p (from_runner p))) = false
  /\ has_char "/" (tag (setRelease p (from_runner p))) = false.
Proof.
  intros p.
  destruct (@derived_name_has_no_slash p (from_runner p)) as [A B];
    [reflexivity|].
  split; [exact A|apply B; reflexivity].
Defined.


Lemma run_moves_only_its_tag_witness :
  let c := Scenario.connected Scenario.tagged_build in
  Platform.assoc "refs/heads/main"
    (refs (remote (world_of (run (K := Scenario.node) Scenario.tagged_build c
                                 Scenario.calm_world))))
  = Platform.assoc "refs/heads/main" (refs (remote Scenario.calm_world)).
Proof.
  intros c.
  apply (proj1 (@run_moves_only_its_tag Scenario.node Scenario.tagged_build c
                  Scenario.calm_world)).
  vm_compute; discriminate.
Defined.


Lemma id_and_upload_address_agree_witness :
  let c := Scenario.connected Scenario.tagged_build in
  exists r,
    find (named (release c)) (releases (remote Scenario.calm_world)) = Some r
    /\ rel_id r = 7
    /\ rel_upload_url r = "https://uploads.example/assets".
Proof.
  intros c.
  apply (@id_and_upload_address_agree c Scenario.calm_world 7
           (world_of (getReleaseID c Scenario.calm_world))
           Scenario.calm_world "https://uploads.example/assets"
           (world_of (getReleaseUploadURL c Scenario.calm_world)));
    vm_compute; reflexivity.
Defined.

Lemma uploads_follow_the_files_witness :
  let c := Scenario.connected Scenario.tagged_build in
  let w' := world_of (uploadAssets (K := Scenario.node) c 7
                                   Scenario.bare_world) in
  exists calls,
    log w' = (log Scenario.bare_world ++ calls)%list
    /\ Forall2 (uploads_file 7) (files c) (mutations calls)
    /\ Forall (fun call => is_mutation call = false -> call = ListReleases)
              calls
    /\ (forall f, lookup f = None ->
                  content_type_of f = "application/octet-stream").
Proof.
  intros c w'.
  apply (@uploads_follow_the_files Scenario.node c 7 Scenario.bare_world w').
  vm_compute; reflexivity.
Defined.


Lemma release_stage_witness :
  let c := Scenario.connected Scenario.tagged_build in
  (exists w', run_release c Scenario.first_world = Done 1 w'
              /\ releases (remote w')
                 = [created (K := Scenario.node) c "notes" 1])
  /\ (exists w', run_release c Scenario.calm_world = Done 7 w'
                 /\ remote w' = remote Scenario.calm_world).
Proof.
  intros c. split.
  - destruct (@release_stage Scenario.node c Scenario.first_world
                first_world_is_quiet) as [A _].
    destruct (A eq_refl) as (w' & b & E & _ & _ & B & R & _).
    exists w'. split; [exact E|].
    rewrite R, (B eq_refl). reflexivity.
  - destruct (@release_stage Scenario.node c Scenario.calm_world
                calm_world_is_quiet) as [_ A].
    destruct (A Scenario.v1_release eq_refl) as (w' & E & _ & _ & R).
    exists w'. split; [exact E|exact R].
Defined.

Lemma negative_id_is_skipped_witness :
  let c := Scenario.connected Scenario.tagged_build in
  (exists w',
      run (K := Scenario.node) Scenario.tagged_build c Scenario.negative_world
      = Done tt w'
      /\ releases (remote w') = releases (remote Scenario.negative_world))
  /\ (forall flag,
        exists w',
          deleteAssetsIfTheyExist (K := Scenario.node) c flag
                                  Scenario.negative_world
          = Exited 2 w'
          /\ log w' = (log Scenario.negative_world ++ [ListReleases])%list
          /\ remote w' = remote Scenario.negative_world).
Proof.
  intros c.
  apply (@negative_id_is_skipped Scenario.node Scenario.tagged_build c
           Scenario.negative_world Scenario.negative_release).
  - exact negative_world_is_quiet.
  - reflexivity.
  - reflexivity.
Defined.

Lemma constructor_touches_nothing_witness :
  let p := Scenario.tagged_build in
  let c := Scenario.connected p in
  ref c = GITHUB_REF p /\ sha c = GITHUB_SHA p
  /\ (getInput p "body" <> "" ->
      body Scenario.first_world = getInput p "body"
      /\ commit_fetch Scenario.first_world
         = commit_fetch (boot Scenario.empty_repo [] 0)).
Proof.
  intros p c.
  apply (proj2 (proj2 (@constructor_touches_nothing Scenario.node p
                         (boot Scenario.empty_repo [] 0)))).
  vm_compute; reflexivity.
Defined.

Lemma mutations_in_order_witness :
  let p := Scenario.tagged_build in
  let c := Scenario.connected p in
  let w' := world_of (run (K := Scenario.node) p c Scenario.first_world) in
  exists calls early id b dels ups,
    log w' = (log Scenario.first_world ++ calls)%list
    /\ mutations calls
       = (early
            ++ UpdateRelease id (release c) b (draft c) (prerelease c)
            :: map DeleteReleaseAsset dels ++ ups ++ repoint p c)%list
    /\ Forall is_early early
    /\ Forall2 (uploads_file id) (files c) ups.
Proof.
  intros p c w'.
  apply (@mutations_in_order Scenario.node p c Scenario.first_world w').
  - split; [constructor|simpl; lia].
  - vm_compute; reflexivity.
Defined.

